(** * Git Gladiators: the statistics and scoring pipeline

    A shallow embedding of the core of [background.js] (contributor merge and
    diff backfill) and of [popup.js] (period aggregation, scoring, title
    classification, ranking), with the properties stated about them.

    Further parts: the repository URL parser of [content.js] and
    [popup.js], the leaderboard that [popup.js] renders, and the PNG encoder
    of [scripts/generate-icons.js] (scanlines, chunks and CRC-32).

    Numbers.  JavaScript numbers are IEEE doubles.  The counters handled here
    are integers far below 2^53, on which double arithmetic is exact, so they
    are modelled as [Z].  Quotients that are only compared with constants
    ([assignTitle], the period cutoff) are modelled as exact rationals [Q].
    [calculateScore] goes through [Math.log10]; it is modelled over the real
    numbers [R], that is, up to the rounding error of doubles. *)

From Stdlib Require Import ZArith QArith Reals Lra Lia List Bool String Ascii.
From Stdlib Require Import Permutation Sorted.
Import ListNotations.

Set Implicit Arguments.

(** ** popup.js: ScoringEngine *)

Module Scoring.

Local Open Scope R_scope.

Record ScoringConfig := {
  commitWeight : R;
  additionsWeight : R;
  deletionsWeight : R;
  linesPerCommitBaseline : R
}.

Definition SCORING_CONFIG : ScoringConfig := {|
  commitWeight := 4 / 10;
  additionsWeight := 35 / 100;
  deletionsWeight := 25 / 100;
  linesPerCommitBaseline := 50
|}.

(** [Math.log10]. *)
Definition log10 (x : R) : R := ln x / ln 10.

(** [Math.round]: the nearest integer, ties towards plus infinity. *)
Definition Math_round (x : R) : Z := Int_part (x + / 2).

(** [commits > 0 ? (additions + deletions) / commits : 0] *)
Definition avgLinesPerCommit (commits additions deletions : Z) : R :=
  if (0 <? commits)%Z then IZR (additions + deletions) / IZR commits else 0.

(** The conditional expression bound to [balanceBonus], as a function of
    [avgLinesPerCommit]. *)
Definition balanceBonusOf (cfg : ScoringConfig) (avg : R) : R :=
  let baseline := linesPerCommitBaseline cfg in
  if Rlt_dec 0 avg then
    if Rle_dec avg (baseline * 2) then
      Rmin 10 (10 * (1 - Rabs (avg - baseline) / baseline))
    else 0
  else 0.

Definition balanceBonus (commits additions deletions : Z) : R :=
  balanceBonusOf SCORING_CONFIG (avgLinesPerCommit commits additions deletions).

(** [commitScore + additionScore + deletionScore] *)
Definition weightedScore (cfg : ScoringConfig) (commits additions deletions : Z) : R :=
  let logCommits := log10 (IZR commits + 1) * 100 in
  let logAdditions := log10 (IZR additions + 1) * 10 in
  let logDeletions := log10 (IZR deletions + 1) * 10 in
  let commitScore := logCommits * commitWeight cfg in
  let additionScore := logAdditions * additionsWeight cfg in
  let deletionScore := logDeletions * deletionsWeight cfg in
  commitScore + additionScore + deletionScore.

(** The argument of [Math.round] in the last line of [calculateScore]. *)
Definition rawScore (commits additions deletions : Z) : R :=
  weightedScore SCORING_CONFIG commits additions deletions
  + balanceBonus commits additions deletions.

Definition calculateScore (commits additions deletions : Z) : R :=
  IZR (Math_round (rawScore commits additions deletions * 10)) / 10.

End Scoring.

(** ** Data shared by the two scripts *)

(** One element of a contributor's [weeks] array, in GitHub's field names:
    [w] week start (Unix seconds), [a] additions, [d] deletions, [c] commits. *)
Record Week := { w : Z; a : Z; d : Z; c : Z }.

(** The objects stored in [contributorMap] and sent to the popup.  The
    property [totalCommits] exists only on entries that come from the
    contributors list endpoint. *)
Record Contributor := {
  login : string;
  avatar : string;
  profileUrl : string;
  weeks : list Week;
  totalCommits : option Z
}.

(** [x || 0] on a possibly missing number. *)
Definition orZero (x : option Z) : Z :=
  match x with Some n => n | None => 0%Z end.

(** [x || y] on numbers: the left operand unless it is falsy. *)
Definition orElse (x y : Z) : Z := if (x =? 0)%Z then y else x.

(** [arr.reduce((sum, x) => sum + f(x), 0)] *)
Definition sumBy (A : Type) (f : A -> Z) (l : list A) : Z :=
  fold_left (fun sum x => (sum + f x)%Z) l 0%Z.

(** ** A JavaScript [Map]: keys in insertion order *)

Section JsMap.
Variables (K V : Type) (eqb : K -> K -> bool).

Definition JsMap := list (K * V).

Fixpoint Map_get (k : K) (m : JsMap) : option V :=
  match m with
  | [] => None
  | (k', v) :: m' => if eqb k' k then Some v else Map_get k m'
  end.

Definition Map_has (k : K) (m : JsMap) : bool :=
  match Map_get k m with Some _ => true | None => false end.

(** [set] overwrites the value of a key that is present, in place, and
    appends a key that is not. *)
Fixpoint Map_set (k : K) (v : V) (m : JsMap) : JsMap :=
  match m with
  | [] => [(k, v)]
  | (k', v') :: m' =>
      if eqb k' k then (k', v) :: m' else (k', v') :: Map_set k v m'
  end.

Definition Map_values (m : JsMap) : list V := map snd m.
Definition Map_keys (m : JsMap) : list K := map fst m.
Definition Map_size (m : JsMap) : nat := List.length m.
End JsMap.

(** ** background.js *)

Module Background.

Local Open Scope Z_scope.

(** [String.prototype.toLowerCase] on the ASCII range (GitHub logins are
    ASCII letters, digits and hyphens). *)
Definition lowerAscii (ch : ascii) : ascii :=
  let n := nat_of_ascii ch in
  if (Nat.leb 65 n && Nat.leb n 90)%bool then ascii_of_nat (n + 32) else ch.

Fixpoint toLowerCase (s : string) : string :=
  match s with
  | EmptyString => EmptyString
  | String ch s' => String (lowerAscii ch) (toLowerCase s')
  end.

(** A parsed JSON body that is expected to be an array. *)
Inductive Json (A : Type) : Type :=
  | JArray (items : list A)
  | JOther.
Arguments JOther {A}.

(** An element of the [/stats/contributors] body.  Missing strings are
    modelled by the empty string, which [!login] and [|| ''] treat alike. *)
Record Author := { a_login : string; avatar_url : string; html_url : string }.
Record Stat := { author : option Author; s_weeks : option (list Week) }.

(** An element of the [/contributors] body. *)
Record ListEntry := {
  l_login : string;
  l_avatar_url : string;
  l_html_url : string;
  contributions : option Z
}.

Definition ContributorMap := JsMap string Contributor.

(** Body of the first loop of [fetchContributorStats]. *)
Definition addStat (m : ContributorMap) (stat : Stat) : ContributorMap :=
  match author stat with
  | None => m
  | Some au =>
      if String.eqb (a_login au) "" then m
      else Map_set String.eqb (toLowerCase (a_login au))
             {| login := a_login au;
                avatar := avatar_url au;
                profileUrl := html_url au;
                weeks := match s_weeks stat with Some ws => ws | None => [] end;
                totalCommits := None |} m
  end.

(** Body of the second loop. *)
Definition addListEntry (m : ContributorMap) (e : ListEntry) : ContributorMap :=
  if String.eqb (l_login e) "" then m
  else
    let key := toLowerCase (l_login e) in
    if Map_has String.eqb key m then m
    else Map_set String.eqb key
           {| login := l_login e;
              avatar := l_avatar_url e;
              profileUrl := l_html_url e;
              weeks := [];
              totalCommits := Some (orZero (contributions e)) |} m.

(** [fetchContributorStats], from the two parsed bodies to [contributorMap]
    after both loops. *)
Definition buildContributorMap (statsData : Json Stat) (listData : Json ListEntry)
  : ContributorMap :=
  let m0 : ContributorMap := [] in
  let m1 := match statsData with
            | JArray stats => fold_left addStat stats m0
            | JOther => m0
            end in
  match listData with
  | JArray entries => fold_left addListEntry entries m1
  | JOther => m1
  end.

(** The callback of [contributors.filter] that computes [needsDiffStats]. *)
Definition needsDiffStats (co : Contributor) : bool :=
  let totalCommits :=
    orElse (orElse (sumBy c (weeks co)) (orZero (totalCommits co))) 0 in
  let totalAdd := sumBy a (weeks co) in
  let totalDel := sumBy d (weeks co) in
  (0 <? totalCommits) && (totalAdd =? 0) && (totalDel =? 0).

(** [getWeekStartTimestamp], on the time value (milliseconds since the epoch)
    of the [Date].  1970-01-01 was a Thursday, day 4 of the week. *)
Definition msPerDay : Z := 86400000.

Definition getWeekStartTimestamp (date : Z) : Z :=
  let d0 := (date / msPerDay) * msPerDay in          (* setUTCHours(0,0,0,0) *)
  let utcDay := ((d0 / msPerDay) + 4) mod 7 in       (* getUTCDay() *)
  let d1 := d0 - utcDay * msPerDay in                (* setUTCDate(getUTCDate() - getUTCDay()) *)
  d1 / 1000.

(** The outcome of [fetch] followed by [json()]. *)
Inductive Response (A : Type) : Type :=
  | NetworkError          (* fetch rejects *)
  | HttpError             (* the response is not ok *)
  | BodyError             (* json() rejects *)
  | Body (body : A).
Arguments NetworkError {A}.
Arguments HttpError {A}.
Arguments BodyError {A}.

Record Commit := { sha : string }.
Record Stats := { additions : option Z; deletions : option Z }.

(** A commit detail: [detail.stats] and the time value of
    [detail.commit.author.date], either of which may be missing. *)
Record CommitDetail := { stats : option Stats; authorDate : option Z }.

(** The hosting API as seen by [fillDiffStats]: the commits of an author, and
    the detail of a commit. *)
Record Api := {
  listCommits : string -> Response (Json Commit);
  getCommit : string -> Response CommitDetail
}.

(** The async callback mapped over [commits.slice(0, 10)]: any failure
    yields [null]. *)
Definition fetchDetail (api : Api) (commit : Commit) : option CommitDetail :=
  match getCommit api (sha commit) with
  | Body detail => Some detail
  | _ => None
  end.

Definition WeekMap := JsMap Z Week.

(** Body of the loop that builds [weekMap]. *)
Definition addDetail (weekMap : WeekMap) (detail : option CommitDetail) : WeekMap :=
  match detail with
  | Some {| stats := Some st; authorDate := Some date |} =>
      let weekStart := getWeekStartTimestamp date in
      let weekMap1 :=
        if Map_has Z.eqb weekStart weekMap then weekMap
        else Map_set Z.eqb weekStart {| w := weekStart; a := 0; d := 0; c := 0 |} weekMap in
      match Map_get Z.eqb weekStart weekMap1 with
      | Some week =>
          Map_set Z.eqb weekStart
            {| w := w week;
               a := a week + orZero (additions st);
               d := d week + orZero (deletions st);
               c := c week + 1 |} weekMap1
      | None => weekMap1
      end
  | _ => weekMap
  end.

Definition buildWeekMap (details : list (option CommitDetail)) : WeekMap :=
  fold_left addDetail details [].

(** [existing.a = commitWeek.a; existing.d = commitWeek.d] on the first
    element found by [weeks.find(w => w.w === weekStart)]; [None] when
    [find] returns [undefined]. *)
Fixpoint overwriteFirst (weekStart : Z) (commitWeek : Week) (ws : list Week)
  : option (list Week) :=
  match ws with
  | [] => None
  | wk :: ws' =>
      if w wk =? weekStart
      then Some ({| w := w wk; a := a commitWeek; d := d commitWeek; c := c wk |} :: ws')
      else option_map (cons wk) (overwriteFirst weekStart commitWeek ws')
  end.

(** Body of the loop over [weekMap] in the [else] branch. *)
Definition mergeWeek (ws : list Week) (entry : Z * Week) : list Week :=
  let (weekStart, commitWeek) := entry in
  match overwriteFirst weekStart commitWeek ws with
  | Some ws' => ws'
  | None => ws ++ [commitWeek]
  end.

(** The final [if]/[else] of [fillDiffStats]: the new value of
    [contributor.weeks]. *)
Definition mergeWeeks (ws : list Week) (weekMap : WeekMap) : list Week :=
  if (List.length ws =? 0)%nat then Map_values weekMap
  else fold_left mergeWeek weekMap ws.

Definition setWeeks (co : Contributor) (ws : list Week) : Contributor :=
  {| login := login co; avatar := avatar co; profileUrl := profileUrl co;
     weeks := ws; totalCommits := totalCommits co |}.

(** A computation that may throw. *)
Inductive Exn (A : Type) : Type :=
  | Return (value : A)
  | Throw.
Arguments Throw {A}.

(** The body of the [try] block of [fillDiffStats]; the result is the
    contributor object after the block. *)
Definition fillDiffStats_try (api : Api) (contributor : Contributor) : Exn Contributor :=
  match listCommits api (login contributor) with
  | NetworkError => Throw
  | HttpError => Return contributor
  | BodyError => Throw
  | Body JOther => Return contributor
  | Body (JArray commits) =>
      if (List.length commits =? 0)%nat then Return contributor
      else
        let details := map (fetchDetail api) (firstn 10 commits) in
        let weekMap := buildWeekMap details in
        Return (setWeeks contributor (mergeWeeks (weeks contributor) weekMap))
  end.

(** [fillDiffStats]: the [catch] clause logs and returns normally; nothing has
    been written to the contributor at the points that can throw. *)
Definition fillDiffStats (api : Api) (contributor : Contributor) : Contributor :=
  match fillDiffStats_try api contributor with
  | Return contributor' => contributor'
  | Throw => contributor
  end.

(** The contributor objects live in the array [contributors];
    [needsDiffStats] holds references to some of them and [fillDiffStats]
    writes through these references.  An object is identified by its index
    in [contributors]. *)
Fixpoint setNth (A : Type) (i : nat) (x : A) (l : list A) : list A :=
  match l, i with
  | [], _ => []
  | _ :: l', O => x :: l'
  | y :: l', S i' => y :: setNth i' x l'
  end.

Definition needsDiffStatsRefs (contributors : list Contributor) : list nat :=
  filter (fun i => match nth_error contributors i with
                   | Some co => needsDiffStats co
                   | None => false
                   end)
         (seq 0 (List.length contributors)).

Definition fillDiffStatsAt (api : Api) (store : list Contributor) (i : nat)
  : list Contributor :=
  match nth_error store i with
  | Some co => setNth i (fillDiffStats api co) store
  | None => store
  end.

(** [await Promise.all(needsDiffStats.map(c => fillDiffStats(baseUrl, headers, c)))] *)
Definition backfill (api : Api) (contributors : list Contributor) : list Contributor :=
  fold_left (fillDiffStatsAt api) (needsDiffStatsRefs contributors) contributors.

Inductive FetchResult : Type :=
  | StatusEmpty
  | StatusSuccess (data : list Contributor)
  | StatusError.

(** [fetchContributorStats] from the two parsed bodies on. *)
Definition fetchContributorStats (api : Api)
    (statsData : Json Stat) (listData : Json ListEntry) : FetchResult :=
  let contributorMap := buildContributorMap statsData listData in
  if (Map_size contributorMap =? 0)%nat then StatusEmpty
  else
    let contributors := Map_values contributorMap in
    StatusSuccess (backfill api contributors).

End Background.

(** ** popup.js: PeriodAggregator, TitleClassifier, Ranker *)

(** [Array.prototype.sort(comparefn)] is a built-in of the platform.  It is
    required to be stable (ECMAScript 2019), and it is modelled by the
    simplest stable sort, an insertion sort: [gt0 x y] stands for
    [comparefn(x, y) > 0], which asks for [x] to come after [y]. *)
Section ArraySort.
Variables (A : Type) (gt0 : A -> A -> bool).

Fixpoint sortInsert (x : A) (l : list A) : list A :=
  match l with
  | [] => [x]
  | y :: l' => if gt0 x y then y :: sortInsert x l' else x :: y :: l'
  end.

Fixpoint Array_sort (l : list A) : list A :=
  match l with
  | [] => []
  | x :: l' => sortInsert x (Array_sort l')
  end.
End ArraySort.

Module Popup.

Local Open Scope Z_scope.

Definition Qltb (x y : Q) : bool := negb (Qle_bool y x).

(** [getPeriodCutoff]; [now] is the value of [Date.now()], in milliseconds. *)
Definition weekMs : Z := 7 * 24 * 60 * 60 * 1000.

Definition getPeriodCutoff (now : Z) (period : string) : Z :=
  if String.eqb period "week" then now - weekMs
  else if String.eqb period "month" then now - 4 * weekMs
  else 0.

Record TitleInfo := { title : string; color : string }.

(** [assignTitle]. *)
Definition assignTitle (commits additions deletions : Z) : TitleInfo :=
  let total := additions + deletions in
  let ratio : Q := if 0 <? commits then (inject_Z total / inject_Z commits)%Q else 0%Q in
  let deleteRatio : Q := if 0 <? total then (inject_Z deletions / inject_Z total)%Q else 0%Q in
  if 500 <=? commits then {| title := "🏛️ Code Architect"; color := "#FFD700" |}
  else if Qltb (6 # 10) deleteRatio && (100 <? total)
    then {| title := "🧹 The Cleaner"; color := "#9B59B6" |}
  else if Qltb (inject_Z 500) ratio then {| title := "🌊 Tsunami Coder"; color := "#3498DB" |}
  else if Qltb ratio (inject_Z 20) && (50 <? commits)
    then {| title := "⚡ Rapid Fire"; color := "#E74C3C" |}
  else if 50000 <? additions then {| title := "📚 Novel Writer"; color := "#2ECC71" |}
  else if 100 <=? commits then {| title := "🎖️ Veteran"; color := "#F39C12" |}
  else if 50 <=? commits then {| title := "⚔️ Warrior"; color := "#E67E22" |}
  else if 20 <=? commits then {| title := "🛡️ Defender"; color := "#1ABC9C" |}
  else if 10 <=? commits then {| title := "🌱 Rising Star"; color := "#27AE60" |}
  else if 1 <=? commits then {| title := "🆕 Fresh Blood"; color := "#95A5A6" |}
  else {| title := "💤 Inactive"; color := "#666677" |}.

(** The objects built by the [map] callback of [processContributors]; [rank]
    is absent until the final [forEach] sets it. *)
Record Entry := {
  e_login : string;
  e_avatar : string;
  e_profileUrl : string;
  commits : Z;
  additions : Z;
  deletions : Z;
  score : R;
  e_title : string;
  e_color : string;
  rank : option Z
}.

(** The [map] callback of [processContributors]. *)
Definition processOne (cutoffTimestamp : Q) (contributor : Contributor) : Entry :=
  let relevantWeeks :=
    filter (fun week => Qle_bool cutoffTimestamp (inject_Z (w week))) (weeks contributor) in
  let commits := sumBy c relevantWeeks in
  let additions := sumBy a relevantWeeks in
  let deletions := sumBy d relevantWeeks in
  let score := Scoring.calculateScore commits additions deletions in
  let titleInfo := assignTitle commits additions deletions in
  {| e_login := login contributor;
     e_avatar := avatar contributor;
     e_profileUrl := profileUrl contributor;
     commits := commits;
     additions := additions;
     deletions := deletions;
     score := score;
     e_title := title titleInfo;
     e_color := color titleInfo;
     rank := None |}.

(** The [filter] callback: [c.commits > 0 || c.additions > 0 || c.deletions > 0]. *)
Definition isActive (e : Entry) : bool :=
  (0 <? commits e) || (0 <? additions e) || (0 <? deletions e).

(** [(a, b) => b.score - a.score] is positive when [a.score < b.score]. *)
Definition byScoreGt0 (x y : Entry) : bool :=
  if Rlt_dec 0 (score y - score x) then true else false.

Definition setRank (e : Entry) (r : Z) : Entry :=
  {| e_login := e_login e; e_avatar := e_avatar e; e_profileUrl := e_profileUrl e;
     commits := commits e; additions := additions e; deletions := deletions e;
     score := score e; e_title := e_title e; e_color := e_color e;
     rank := Some r |}.

(** [active.forEach((contributor, index) => { contributor.rank = index + 1 })],
    started at [index]. *)
Fixpoint assignRanks (index : Z) (active : list Entry) : list Entry :=
  match active with
  | [] => []
  | e :: rest => setRank e (index + 1) :: assignRanks (index + 1) rest
  end.

(** [active.sort((a, b) => b.score - a.score)] followed by the rank
    assignment. *)
Definition sortAndRank (active : list Entry) : list Entry :=
  assignRanks 0 (Array_sort byScoreGt0 active).

(** [getPeriodCutoff(period) / 1000]: the division is not rounded. *)
Definition cutoffTimestamp (now : Z) (period : string) : Q :=
  (inject_Z (getPeriodCutoff now period) / inject_Z 1000)%Q.

(** [processContributors]; [now] is the clock read by [getPeriodCutoff]. *)
Definition processContributors (now : Z) (contributors : list Contributor)
    (period : string) : list Entry :=
  let processed := map (processOne (cutoffTimestamp now period)) contributors in
  let active := filter isActive processed in
  sortAndRank active.

End Popup.

(** ** popup.js on a store of objects

    [processContributors] receives the array [rawContributorData], whose
    elements are objects that stay cached between calls.  To speak about what
    the call leaves untouched, objects live in a store and are named by
    their address; [map] and [filter] allocate, [sort] and the rank
    assignment write. *)

Module Store.

Definition loc := nat.

Record ContributorObj := {
  o_login : string;
  o_avatar : string;
  o_profileUrl : string;
  o_weeks : loc;
  o_totalCommits : option Z
}.

Inductive Obj : Type :=
  | OArray (items : list loc)
  | OWeek (wk : Week)
  | OContributor (co : ContributorObj)
  | OEntry (e : Popup.Entry).

Definition Heap := list Obj.

(** Computations on the store; [None] is a [TypeError] (a reference that does
    not hold the kind of object the code expects). *)
Definition M (A : Type) : Type := Heap -> option (A * Heap).

Definition ret (A : Type) (x : A) : M A := fun h => Some (x, h).

Definition bind (A B : Type) (m : M A) (k : A -> M B) : M B :=
  fun h => match m h with
           | Some (x, h') => k x h'
           | None => None
           end.

Notation "x <- m ;; k" := (bind m (fun x => k))
  (at level 61, m at next level, right associativity).

Definition alloc (o : Obj) : M loc :=
  fun h => Some (List.length h, h ++ [o]).

Definition readArray (l : loc) : M (list loc) :=
  fun h => match nth_error h l with Some (OArray items) => Some (items, h) | _ => None end.

Definition readWeek (l : loc) : M Week :=
  fun h => match nth_error h l with Some (OWeek wk) => Some (wk, h) | _ => None end.

Definition readContributor (l : loc) : M ContributorObj :=
  fun h => match nth_error h l with Some (OContributor co) => Some (co, h) | _ => None end.

Definition readEntry (l : loc) : M Popup.Entry :=
  fun h => match nth_error h l with Some (OEntry e) => Some (e, h) | _ => None end.

Definition writeObj (l : loc) (o : Obj) : M unit :=
  fun h => match nth_error h l with
           | Some _ => Some (tt, Background.setNth l o h)
           | None => None
           end.

Fixpoint mapM (A B : Type) (f : A -> M B) (l : list A) : M (list B) :=
  match l with
  | [] => ret []
  | x :: l' => y <- f x ;; ys <- mapM f l' ;; ret (y :: ys)
  end.

(** [arr.forEach((x, index) => f(x, index))], started at [index]. *)
Fixpoint forEachM (A : Type) (f : A -> Z -> M unit) (l : list A) (index : Z) : M unit :=
  match l with
  | [] => ret tt
  | x :: l' => _ <- f x index ;; forEachM f l' (index + 1)%Z
  end.

(** The contributor record held at an address, with its weeks read through
    the [weeks] array. *)
Definition readContributorValue (l : loc) : M (Contributor * list loc) :=
  co <- readContributor l ;;
  refs <- readArray (o_weeks co) ;;
  vals <- mapM readWeek refs ;;
  ret ({| login := o_login co; avatar := o_avatar co; profileUrl := o_profileUrl co;
          weeks := vals; totalCommits := o_totalCommits co |}, refs).

(** The [map] callback: [weeks.filter] allocates the array [relevantWeeks],
    the object literal allocates the entry.  The object returned by
    [assignTitle] is spread into the entry at once and is not kept. *)
Definition processOne (cutoffTimestamp : Q) (l : loc) : M loc :=
  cr <- readContributorValue l ;;
  let (contributor, refs) := cr in
  let kept := filter (fun p => Qle_bool cutoffTimestamp (inject_Z (w (snd p))))
                     (combine refs (weeks contributor)) in
  _ <- alloc (OArray (map fst kept)) ;;
  alloc (OEntry (Popup.processOne cutoffTimestamp contributor)).

(** The [forEach] callback: [contributor.rank = index + 1]. *)
Definition assignRank (l : loc) (index : Z) : M unit :=
  e <- readEntry l ;;
  writeObj l (OEntry (Popup.setRank e (index + 1)%Z)).

(** [processContributors]: [contributors] is the address of the input array,
    the result is the address of [active]. *)
Definition processContributors (now : Z) (contributors : loc) (period : string) : M loc :=
  let cutoffTimestamp := Popup.cutoffTimestamp now period in
  arr <- readArray contributors ;;
  processedItems <- mapM (processOne cutoffTimestamp) arr ;;
  _ <- alloc (OArray processedItems) ;;
  es <- mapM readEntry processedItems ;;
  let activeItems :=
    map fst (filter (fun p => Popup.isActive (snd p)) (combine processedItems es)) in
  active <- alloc (OArray activeItems) ;;
  items <- readArray active ;;
  es' <- mapM readEntry items ;;
  let sorted :=
    Array_sort (fun p q => Popup.byScoreGt0 (snd p) (snd q)) (combine items es') in
  _ <- writeObj active (OArray (map fst sorted)) ;;
  items' <- readArray active ;;
  _ <- forEachM assignRank items' 0%Z ;;
  ret active.

(** The array of contributor records held at an address. *)
Definition readContributors (contributors : loc) : M (list Contributor) :=
  arr <- readArray contributors ;;
  crs <- mapM readContributorValue arr ;;
  ret (map fst crs).

Definition readEntries (active : loc) : M (list Popup.Entry) :=
  items <- readArray active ;;
  mapM readEntry items.

End Store.

(** ** content.js and popup.js: the repository of a URL *)

Module Url.

Local Open Scope string_scope.

(** [s] with the prefix [p] taken off, when [s] starts with [p]. *)
Fixpoint stripPrefix (p s : string) : option string :=
  match p, s with
  | EmptyString, _ => Some s
  | String a p', String b s' => if Ascii.eqb a b then stripPrefix p' s' else None
  | String _ _, EmptyString => None
  end.

(** The longest prefix of [s] made of characters of the class, and the rest:
    a greedy [[...]+] or [[...]*]. *)
Fixpoint span (cls : ascii -> bool) (s : string) : string * string :=
  match s with
  | EmptyString => (EmptyString, EmptyString)
  | String ch s' =>
      if cls ch then let (run, rest) := span cls s' in (String ch run, rest)
      else (EmptyString, s)
  end.

(** [[^\/]] *)
Definition notSlash (ch : ascii) : bool := negb (Ascii.eqb ch "/").

(** [[^\/\?#]] *)
Definition notDelimiter (ch : ascii) : bool :=
  negb (Ascii.eqb ch "/" || Ascii.eqb ch "?" || Ascii.eqb ch "#").

(** The regular expression [/github\.com\/([^\/]+)\/([^\/\?#]+)/] tried at
    the start of [s]: the two captures.  The first group is greedy and can
    only be followed by a slash or the end, so giving back characters never
    helps. *)
Definition matchHere (s : string) : option (string * string) :=
  match stripPrefix "github.com/" s with
  | None => None
  | Some s1 =>
      let (owner, s2) := span notSlash s1 in
      if String.eqb owner "" then None
      else
        match s2 with
        | String "/" s3 =>
            let (repo, _) := span notDelimiter s3 in
            if String.eqb repo "" then None else Some (owner, repo)
        | _ => None
        end
  end.

(** [url.match(...)]: the leftmost position at which the expression
    matches. *)
Fixpoint regexMatch (url : string) : option (string * string) :=
  match matchHere url with
  | Some captures => Some captures
  | None =>
      match url with
      | EmptyString => None
      | String _ url' => regexMatch url'
      end
  end.

(** [s.replace(/\.git$/, '')]: one final [.git] is taken off. *)
Fixpoint stripGitSuffix (s : string) : string :=
  if String.eqb s ".git" then EmptyString
  else
    match s with
    | EmptyString => EmptyString
    | String ch s' => String ch (stripGitSuffix s')
    end.

Record RepoInfo := { owner : string; repo : string }.

(** [parseGitHubUrl] of popup.js; [parseCurrentRepo] of content.js is the
    same function of [window.location.href]. *)
Definition parseGitHubUrl (url : string) : option RepoInfo :=
  match regexMatch url with
  | Some (o, r) => Some {| owner := o; repo := stripGitSuffix r |}
  | None => None
  end.

Definition parseCurrentRepo (href : string) : option RepoInfo := parseGitHubUrl href.

End Url.

(** ** scripts/generate-icons.js: PNG chunks *)

Module Icons.

Local Open Scope Z_scope.

(** The 32-bit conversions behind JavaScript's bitwise operators. *)
Definition ToUint32 (x : Z) : Z := x mod 2 ^ 32.

Definition ToInt32 (x : Z) : Z :=
  let u := x mod 2 ^ 32 in
  if u <? 2 ^ 31 then u else u - 2 ^ 32.

(** [x ^ y], [x & y] and [x >>> n]. *)
Definition bitXor (x y : Z) : Z := ToInt32 (Z.lxor (ToInt32 x) (ToInt32 y)).
Definition bitAnd (x y : Z) : Z := ToInt32 (Z.land (ToInt32 x) (ToInt32 y)).
Definition ushr (x n : Z) : Z := Z.shiftr (ToUint32 x) (n mod 32).

(** The value of an element of a [Buffer] or [Uint8Array]. *)
Definition byteZ (b : Byte.byte) : Z := Z.of_N (Byte.to_N b).

(** Storing a number into such an element keeps its low eight bits. *)
Definition byteOf (x : Z) : Byte.byte :=
  match Byte.of_N (Z.to_N (x mod 256)) with
  | Some b => b
  | None => Byte.x00
  end.

(** One turn of the inner loop of [getCRC32Table]:
    [c = (c & 1) ? (0xedb88320 ^ (c >>> 1)) : (c >>> 1)]. *)
Definition tableStep (c : Z) : Z :=
  if bitAnd c 1 =? 0 then ushr c 1 else bitXor 0xedb88320 (ushr c 1).

(** [crc32Table[i] = c] stores into a [Uint32Array]. *)
Definition tableEntry (i : Z) : Z := ToUint32 (Nat.iter 8 tableStep i).

(** [getCRC32Table()]: the table is built at the first call and returned
    as it is afterwards. *)
Definition getCRC32Table : list Z :=
  map (fun i => tableEntry (Z.of_nat i)) (seq 0 256).

(** [table[i]] for an index inside the table. *)
Definition tableAt (table : list Z) (i : Z) : Z := nth (Z.to_nat i) table 0.

(** [crc32]. *)
Definition crc32 (data : list Byte.byte) : Z :=
  let table := getCRC32Table in
  let crc :=
    fold_left
      (fun crc b => bitXor (tableAt table (bitAnd (bitXor crc (byteZ b)) 0xff)) (ushr crc 8))
      data 0xffffffff in
  ushr (bitXor crc 0xffffffff) 0.

(** [buf.writeUInt32BE(value, 0)] on a fresh four-byte buffer; it throws a
    [RangeError] when the value is not an unsigned 32-bit integer. *)
Definition writeUInt32BE (value : Z) : option (list Byte.byte) :=
  if (0 <=? value) && (value <? 2 ^ 32)
  then Some [ byteOf (Z.shiftr value 24); byteOf (Z.shiftr value 16);
              byteOf (Z.shiftr value 8); byteOf value ]
  else None.

(** [createChunk(type, data)]; [typeBuffer] holds the character codes of
    [type]. *)
Definition createChunk (type : string) (data : list Byte.byte) : option (list Byte.byte) :=
  match writeUInt32BE (Z.of_nat (List.length data)) with
  | None => None
  | Some length =>
      let typeBuffer := list_byte_of_string type in
      let crcData := typeBuffer ++ data in
      match writeUInt32BE (crc32 crcData) with
      | None => None
      | Some crc => Some (length ++ typeBuffer ++ data ++ crc)
      end
  end.

(** The loops of [createPNG] that fill [rawData], a zero-filled buffer of
    [(width * 4 + 1) * height] bytes.  Reading [pixels] past its end gives
    [undefined], which a buffer stores as 0; a write past the end of a
    buffer is ignored.  Sizes are non-negative integers (the script passes
    16, 48 and 128). *)
Definition writePixel (width : nat) (pixels : list Byte.byte) (y : nat)
    (rawData : list Byte.byte) (x : nat) : list Byte.byte :=
  let srcIdx := ((y * width + x) * 4)%nat in
  let dstIdx := (y * (width * 4 + 1) + 1 + x * 4)%nat in
  let rawData := Background.setNth dstIdx (nth srcIdx pixels Byte.x00) rawData in
  let rawData := Background.setNth (dstIdx + 1) (nth (srcIdx + 1) pixels Byte.x00) rawData in
  let rawData := Background.setNth (dstIdx + 2) (nth (srcIdx + 2) pixels Byte.x00) rawData in
  Background.setNth (dstIdx + 3) (nth (srcIdx + 3) pixels Byte.x00) rawData.

Definition writeRow (width : nat) (pixels : list Byte.byte)
    (rawData : list Byte.byte) (y : nat) : list Byte.byte :=
  let rawData := Background.setNth (y * (width * 4 + 1)) Byte.x00 rawData in
  fold_left (writePixel width pixels y) (seq 0 width) rawData.

Definition fillRawData (width height : nat) (pixels : list Byte.byte) : list Byte.byte :=
  fold_left (writeRow width pixels) (seq 0 height)
            (repeat Byte.x00 ((width * 4 + 1) * height)).

(** [createPNG]; [deflateSync] stands for [zlib.deflateSync(_, { level: 9 })]. *)
Definition createPNG (deflateSync : list Byte.byte -> list Byte.byte)
    (width height : nat) (pixels : list Byte.byte) : option (list Byte.byte) :=
  let signature := map byteOf [137; 80; 78; 71; 13; 10; 26; 10] in
  match writeUInt32BE (Z.of_nat width), writeUInt32BE (Z.of_nat height) with
  | Some widthBytes, Some heightBytes =>
      let ihdrData := widthBytes ++ heightBytes ++ map byteOf [8; 6; 0; 0; 0] in
      match createChunk "IHDR" ihdrData with
      | None => None
      | Some ihdr =>
          let rawData := fillRawData width height pixels in
          let compressed := deflateSync rawData in
          match createChunk "IDAT" compressed with
          | None => None
          | Some idat =>
              match createChunk "IEND" [] with
              | None => None
              | Some iend => Some (signature ++ ihdr ++ idat ++ iend)
              end
          end
      end
  | _, _ => None
  end.

End Icons.

(** ** popup.js: the leaderboard on the page

    The page is the part of the DOM that [renderLeaderboard] and [showEmpty]
    write: the status bar's [hidden] class and the content of
    [leaderboardEl].  A card is kept as the values that
    [createContributorCard] puts into its markup. *)

Module View.

Local Open Scope Z_scope.

(** [rank === n] on a rank that may be [undefined]. *)
Definition rankIs (rank : option Z) (n : Z) : bool :=
  match rank with
  | Some r => r =? n
  | None => false
  end.

Definition getMedalEmoji (rank : option Z) : option string :=
  if rankIs rank 1 then Some "🥇"%string
  else if rankIs rank 2 then Some "🥈"%string
  else if rankIs rank 3 then Some "🥉"%string
  else None.

(** The class [rank-N] and the text [#N]; the animation delay, [index]
    times 0.05 s; the medal; and the contributor whose login, avatar,
    profile, title, colour, score and counters fill the rest. *)
Record Card := {
  cardRank : option Z;
  cardIndex : nat;
  cardMedal : option string;
  cardContributor : Popup.Entry
}.

Definition createContributorCard (contributor : Popup.Entry) (index : nat) : Card :=
  {| cardRank := Popup.rank contributor;
     cardIndex := index;
     cardMedal := getMedalEmoji (Popup.rank contributor);
     cardContributor := contributor |}.

Inductive Leaderboard :=
  | Children (cards : list Card)
  | EmptyState (title message : string).

Record Page := {
  statusBarHidden : bool;
  leaderboardEl : Leaderboard
}.

Definition hideStatus (page : Page) : Page :=
  {| statusBarHidden := true; leaderboardEl := leaderboardEl page |}.

Definition showEmpty (title message : string) (page : Page) : Page :=
  let page := hideStatus page in
  {| statusBarHidden := statusBarHidden page;
     leaderboardEl := EmptyState title message |}.

(** [contributors.forEach((contributor, index) => ...appendChild(card))],
    started at [index]. *)
Fixpoint appendCards (index : nat) (contributors : list Popup.Entry) : list Card :=
  match contributors with
  | [] => []
  | contributor :: rest =>
      createContributorCard contributor index :: appendCards (S index) rest
  end.

Definition periodName (currentPeriod : string) : string :=
  if String.eqb currentPeriod "week" then "this week"%string
  else if String.eqb currentPeriod "month" then "this month"%string
  else "all time"%string.

(** [renderLeaderboard]; [currentPeriod] is the global it reads. *)
Definition renderLeaderboard (currentPeriod : string) (contributors : list Popup.Entry)
    (page : Page) : Page :=
  let page := {| statusBarHidden := statusBarHidden page; leaderboardEl := Children [] |} in
  match contributors with
  | [] =>
      showEmpty "No activity"
        ("No contributions found for " ++ periodName currentPeriod)%string page
  | _ :: _ =>
      {| statusBarHidden := statusBarHidden page;
         leaderboardEl := Children (appendCards 0 contributors) |}
  end.

End View.

(** * The specification, transcribed

    The definitions of this part follow the wording of the specification;
    the properties compare them with the code above. *)

(** The sum of a list of counters. *)
Definition sumOf (l : list Z) : Z := fold_right Z.add 0%Z l.

(** Selecting the elements of one score, and the descending order, for the
    statement of stability and of sortedness. *)
Definition keyIs (A : Type) (key : A -> R) (s : R) (x : A) : bool :=
  if Req_dec_T (key x) s then true else false.

Definition descending (A : Type) (key : A -> R) (x y : A) : Prop := (key y <= key x)%R.


(** ** The title rules as the specification lists them *)

Module TitleSpec.

Local Open Scope Z_scope.

Inductive Title : Type :=
  | CodeArchitect | TheCleaner | TsunamiCoder | RapidFire | NovelWriter
  | Veteran | Warrior | Defender | RisingStar | FreshBlood | Inactive.

(** The fixed (title, color) pair of each title. *)
Definition display (t : Title) : Popup.TitleInfo :=
  match t with
  | CodeArchitect => {| Popup.title := "🏛️ Code Architect"; Popup.color := "#FFD700" |}
  | TheCleaner => {| Popup.title := "🧹 The Cleaner"; Popup.color := "#9B59B6" |}
  | TsunamiCoder => {| Popup.title := "🌊 Tsunami Coder"; Popup.color := "#3498DB" |}
  | RapidFire => {| Popup.title := "⚡ Rapid Fire"; Popup.color := "#E74C3C" |}
  | NovelWriter => {| Popup.title := "📚 Novel Writer"; Popup.color := "#2ECC71" |}
  | Veteran => {| Popup.title := "🎖️ Veteran"; Popup.color := "#F39C12" |}
  | Warrior => {| Popup.title := "⚔️ Warrior"; Popup.color := "#E67E22" |}
  | Defender => {| Popup.title := "🛡️ Defender"; Popup.color := "#1ABC9C" |}
  | RisingStar => {| Popup.title := "🌱 Rising Star"; Popup.color := "#27AE60" |}
  | FreshBlood => {| Popup.title := "🆕 Fresh Blood"; Popup.color := "#95A5A6" |}
  | Inactive => {| Popup.title := "💤 Inactive"; Popup.color := "#666677" |}
  end.

Definition total (additions deletions : Z) : Z := additions + deletions.

Definition ratio (commits additions deletions : Z) : Q :=
  if 0 <? commits then (inject_Z (total additions deletions) / inject_Z commits)%Q else 0%Q.

Definition deleteRatio (additions deletions : Z) : Q :=
  if 0 <? total additions deletions
  then (inject_Z deletions / inject_Z (total additions deletions))%Q else 0%Q.

(** Rules 1 to 10, in order, each with its condition evaluated. *)
Definition rules (commits additions deletions : Z) : list (bool * Title) :=
  [ (500 <=? commits, CodeArchitect);
    (Popup.Qltb (6 # 10) (deleteRatio additions deletions)
       && (100 <? total additions deletions), TheCleaner);
    (Popup.Qltb (inject_Z 500) (ratio commits additions deletions), TsunamiCoder);
    (Popup.Qltb (ratio commits additions deletions) (inject_Z 20) && (50 <? commits), RapidFire);
    (50000 <? additions, NovelWriter);
    (100 <=? commits, Veteran);
    (50 <=? commits, Warrior);
    (20 <=? commits, Defender);
    (10 <=? commits, RisingStar);
    (1 <=? commits, FreshBlood) ].

(** First match wins; rule 11 is the default. *)
Fixpoint firstMatch (rs : list (bool * Title)) : Title :=
  match rs with
  | [] => Inactive
  | (matches, t) :: rs' => if matches then t else firstMatch rs'
  end.

Definition classify (commits additions deletions : Z) : Title :=
  firstMatch (rules commits additions deletions).

End TitleSpec.

(** ** Period totals as the specification defines them *)

Module PeriodSpec.

Local Open Scope Z_scope.

Record PeriodTotals := {
  t_login : string;
  t_commits : Z;
  t_additions : Z;
  t_deletions : Z
}.

(** The buckets whose [weekStart] is at or after the cutoff. *)
Definition inWindow (cutoff : Q) (weeks : list Week) : list Week :=
  filter (fun wk => Qle_bool cutoff (inject_Z (w wk))) weeks.

Definition periodTotals (cutoff : Q) (co : Contributor) : PeriodTotals :=
  {| t_login := login co;
     t_commits := sumOf (map c (inWindow cutoff (weeks co)));
     t_additions := sumOf (map a (inWindow cutoff (weeks co)));
     t_deletions := sumOf (map d (inWindow cutoff (weeks co))) |}.

Definition allZero (t : PeriodTotals) : bool :=
  (t_commits t =? 0) && (t_additions t =? 0) && (t_deletions t =? 0).

(** Some total is positive. *)
Definition hasActivity (t : PeriodTotals) : bool :=
  (0 <? t_commits t) || (0 <? t_additions t) || (0 <? t_deletions t).

Definition totalsOfEntry (e : Popup.Entry) : PeriodTotals :=
  {| t_login := Popup.e_login e;
     t_commits := Popup.commits e;
     t_additions := Popup.additions e;
     t_deletions := Popup.deletions e |}.

(** Counters are non-negative in the data model. *)
Definition weekNonneg (wk : Week) : Prop := 0 <= a wk /\ 0 <= d wk /\ 0 <= c wk.

Definition countersNonneg (co : Contributor) : Prop := Forall weekNonneg (weeks co).

End PeriodSpec.

(** ** The merge of the two sources as the specification describes it *)

Module MergeSpec.

Import Background.

(** A source that is not list-shaped counts as empty. *)
Definition items (A : Type) (j : Json A) : list A :=
  match j with JArray l => l | JOther => [] end.

(** The identity key of an entry: the lowercased login, when there is one. *)
Definition statKey (s : Stat) : option string :=
  match author s with
  | Some au => if String.eqb (a_login au) "" then None else Some (toLowerCase (a_login au))
  | None => None
  end.

Definition listKey (e : ListEntry) : option string :=
  if String.eqb (l_login e) "" then None else Some (toLowerCase (l_login e)).

Definition hasKey (k : string) (key : option string) : bool :=
  match key with Some k' => String.eqb k' k | None => false end.

(** The record of a detailed entry: its weeks, no fallback total. *)
Definition statRecord (s : Stat) : Contributor :=
  {| login := match author s with Some au => a_login au | None => "" end;
     avatar := match author s with Some au => avatar_url au | None => "" end;
     profileUrl := match author s with Some au => html_url au | None => "" end;
     weeks := match s_weeks s with Some ws => ws | None => [] end;
     totalCommits := None |}.

(** The record of a summary entry: no weeks, the contributions as fallback
    total. *)
Definition listRecord (e : ListEntry) : Contributor :=
  {| login := l_login e;
     avatar := l_avatar_url e;
     profileUrl := l_html_url e;
     weeks := [];
     totalCommits := Some (orZero (contributions e)) |}.

(** The record under key [k]: the detailed entry when source A has the key
    (its last one, should A repeat a key), otherwise the first summary entry
    with the key, otherwise none. *)
Definition lookup (k : string) (A : list Stat) (B : list ListEntry) : option Contributor :=
  match find (fun s => hasKey k (statKey s)) (rev A) with
  | Some s => Some (statRecord s)
  | None =>
      match find (fun e => hasKey k (listKey e)) B with
      | Some e => Some (listRecord e)
      | None => None
      end
  end.

End MergeSpec.

(** ** The qualification predicate as the specification defines it *)

Module BackfillSpec.

Local Open Scope Z_scope.

Definition weeklyCommits (co : Contributor) : Z := sumOf (map c (weeks co)).
Definition totalAdditions (co : Contributor) : Z := sumOf (map a (weeks co)).
Definition totalDeletions (co : Contributor) : Z := sumOf (map d (weeks co)).

(** The fallback total of a record; absent counts as zero. *)
Definition fallbackTotalCommits (co : Contributor) : Z := orZero (totalCommits co).

(** The sum of the weekly commit counts, or the fallback total when that sum
    is zero. *)
Definition totalCommitsOf (co : Contributor) : Z :=
  if weeklyCommits co =? 0 then fallbackTotalCommits co else weeklyCommits co.

Definition qualifies (co : Contributor) : Prop :=
  0 < totalCommitsOf co /\ totalAdditions co = 0 /\ totalDeletions co = 0.

(** The commit-list fetch fails, or returns nothing to work on. *)
Definition commitListFails (api : Background.Api) (co : Contributor) : Prop :=
  match Background.listCommits api (login co) with
  | Background.NetworkError | Background.HttpError | Background.BodyError => True
  | Background.Body Background.JOther => True
  | Background.Body (Background.JArray commits) => commits = []
  end.

(** What the backfill makes of one record, qualifying or not. *)
Definition backfillOne (api : Background.Api) (co : Contributor) : Contributor :=
  if Background.needsDiffStats co then Background.fillDiffStats api co else co.

End BackfillSpec.

(** ** Week buckets of the backfill as the specification describes them *)

Module WeekSpec.

Local Open Scope Z_scope.

(** [s] (Unix seconds) is the most recent Sunday 00:00 UTC on or before the
    instant [date] (milliseconds).  Day 3 of the epoch, 1970-01-04, was a
    Sunday. *)
Definition isWeekStartOf (date s : Z) : Prop :=
  (exists n, s = 86400 * (7 * n + 3)) /\
  s * 1000 <= date < (s + 7 * 86400) * 1000.

(** What a fetched detail contributes: its week key, additions and
    deletions; nothing when the fetch failed or the diff-stat or the
    authored date is missing. *)
Definition sample (detail : option Background.CommitDetail) : option (Z * (Z * Z)) :=
  match detail with
  | Some {| Background.stats := Some st; Background.authorDate := Some date |} =>
      Some (Background.getWeekStartTimestamp date,
            (orZero (Background.additions st), orZero (Background.deletions st)))
  | _ => None
  end.

Fixpoint samplesOf (k : Z) (details : list (option Background.CommitDetail)) : list (Z * Z) :=
  match details with
  | [] => []
  | detail :: rest =>
      match sample detail with
      | Some (k', ad) => if k' =? k then ad :: samplesOf k rest else samplesOf k rest
      | None => samplesOf k rest
      end
  end.

(** The per-week aggregate for key [k]. *)
Definition aggregate (k : Z) (details : list (option Background.CommitDetail)) : option Week :=
  match samplesOf k details with
  | [] => None
  | l => Some {| w := k;
                 a := sumOf (map fst l);
                 d := sumOf (map snd l);
                 c := Z.of_nat (List.length l) |}
  end.

(** An existing bucket after the merge: additions and deletions of the new
    bucket with its key, if there is one. *)
Definition overwritten (newBuckets : JsMap Z Week) (wk : Week) : Week :=
  match Map_get Z.eqb (w wk) newBuckets with
  | Some b => {| w := w wk; a := a b; d := d b; c := c wk |}
  | None => wk
  end.

(** The new buckets whose key no existing bucket has. *)
Definition appended (existing : list Week) (newBuckets : JsMap Z Week) : list Week :=
  filter (fun b => negb (existsb (fun wk => w wk =? w b) existing)) (Map_values newBuckets).

Definition mergedWeeks (existing : list Week) (newBuckets : JsMap Z Week) : list Week :=
  match existing with
  | [] => Map_values newBuckets
  | _ => map (overwritten newBuckets) existing ++ appended existing newBuckets
  end.

End WeekSpec.

(** ** Reasoning on the store *)

Module StoreFacts.
Import Store.

(** [h'] holds every object of [h] at its address. *)
Definition sub (h h' : Heap) : Prop :=
  forall l o, nth_error h l = Some o -> nth_error h' l = Some o.

(** A computation that reads: it succeeds exactly when [R] relates the store
    and its result, and leaves the store as it is. *)
Definition reads (A : Type) (m : M A) (R : Heap -> A -> Prop) : Prop :=
  forall h x h', m h = Some (x, h') <-> h' = h /\ R h x.

Definition holdsArray (l : loc) (h : Heap) (items : list loc) : Prop :=
  nth_error h l = Some (OArray items).
Definition holdsWeek (h : Heap) (l : loc) (wk : Week) : Prop :=
  nth_error h l = Some (OWeek wk).
Definition holdsEntry (h : Heap) (l : loc) (e : Popup.Entry) : Prop :=
  nth_error h l = Some (OEntry e).

(** The record at [l], with the addresses and the values of its weeks. *)
Definition holdsContributor (h : Heap) (l : loc) (cr : Contributor * list loc) : Prop :=
  exists co,
    nth_error h l = Some (OContributor co) /\
    holdsArray (o_weeks co) h (snd cr) /\
    Forall2 (holdsWeek h) (snd cr) (weeks (fst cr)) /\
    fst cr = {| login := o_login co; avatar := o_avatar co; profileUrl := o_profileUrl co;
                weeks := weeks (fst cr); totalCommits := o_totalCommits co |}.

Definition holdsContributors (contributors : loc) (h : Heap) (cs : list Contributor) : Prop :=
  exists arr crs,
    holdsArray contributors h arr /\
    Forall2 (holdsContributor h) arr crs /\
    cs = map fst crs.

End StoreFacts.

(** ** Sample data *)

Module Sample.

Local Open Scope Z_scope.

(** 2023-11-14T22:13:20Z, a Tuesday; its week starts on Sunday 2023-11-12. *)
Definition now : Z := 1700000000000.
Definition day : Z := 86400.

(** Buckets at the epoch, ten days ago and one day ago. *)
Definition alice : Contributor :=
  {| login := "Alice"; avatar := ""; profileUrl := "";
     weeks := [ {| w := 0; a := 100; d := 20; c := 4 |};
                {| w := 1700000000 - 10 * day; a := 30; d := 5; c := 2 |};
                {| w := 1700000000 - 1 * day; a := 7; d := 3; c := 1 |} ];
     totalCommits := None |}.

(** Known to the summary list only: ten commits, no weeks. *)
Definition bob : Contributor :=
  {| login := "Bob"; avatar := ""; profileUrl := ""; weeks := [];
     totalCommits := Some 10 |}.

Definition listData : Background.Json Background.ListEntry :=
  Background.JArray
    [ {| Background.l_login := "Bob"; Background.l_avatar_url := "";
         Background.l_html_url := ""; Background.contributions := Some 10 |} ].

Definition detail (ad de : Z) : Background.CommitDetail :=
  {| Background.stats := Some {| Background.additions := Some ad;
                                 Background.deletions := Some de |};
     Background.authorDate := Some now |}.

Definition commits : list Background.Commit :=
  [ {| Background.sha := "c1" |}; {| Background.sha := "c2" |}; {| Background.sha := "c3" |} ].

(** Three commits of the same week, with stats (5, 2), (0, 3) and (10, 0). *)
Definition api : Background.Api :=
  {| Background.listCommits := fun _ => Background.Body (Background.JArray commits);
     Background.getCommit := fun s =>
       if String.eqb s "c1" then Background.Body (detail 5 2)
       else if String.eqb s "c2" then Background.Body (detail 0 3)
       else if String.eqb s "c3" then Background.Body (detail 10 0)
       else Background.HttpError |}.

(** The commit list cannot be fetched. *)
Definition offline : Background.Api :=
  {| Background.listCommits := fun _ => Background.NetworkError;
     Background.getCommit := fun _ => Background.NetworkError |}.

(** A store with the array [[1]], Alice at 1, her week array at 2 and one
    bucket at 3. *)
Definition heap : Store.Heap :=
  [ Store.OArray [1%nat];
    Store.OContributor {| Store.o_login := "Alice"; Store.o_avatar := "";
                          Store.o_profileUrl := ""; Store.o_weeks := 2%nat;
                          Store.o_totalCommits := None |};
    Store.OArray [3%nat];
    Store.OWeek {| w := 0; a := 100; d := 20; c := 4 |} ].

Definition aliceStored : Contributor :=
  {| login := "Alice"; avatar := ""; profileUrl := "";
     weeks := [ {| w := 0; a := 100; d := 20; c := 4 |} ];
     totalCommits := None |}.

End Sample.

(** Every bucket of [weekMap] carries its key. *)
Definition keyed (m : Background.WeekMap) : Prop :=
  forall k b, In (k, b) m -> w b = k.

Module TitleInt.

Local Open Scope Z_scope.

(** The conditions of rules 1 to 10 on the integer counters alone, the
    quotients cross-multiplied. *)
Definition rules (commits additions deletions : Z) : list (bool * TitleSpec.Title) :=
  let total := additions + deletions in
  [ (500 <=? commits, TitleSpec.CodeArchitect);
    ((3 * total <? 5 * deletions) && (100 <? total), TitleSpec.TheCleaner);
    ((0 <? commits) && (500 * commits <? total), TitleSpec.TsunamiCoder);
    ((total <? 20 * commits) && (50 <? commits), TitleSpec.RapidFire);
    (50000 <? additions, TitleSpec.NovelWriter);
    (100 <=? commits, TitleSpec.Veteran);
    (50 <=? commits, TitleSpec.Warrior);
    (20 <=? commits, TitleSpec.Defender);
    (10 <=? commits, TitleSpec.RisingStar);
    (1 <=? commits, TitleSpec.FreshBlood) ].

End TitleInt.

Module SampleSpec.

(** The additions and deletions of the details that count, in order. *)
Fixpoint usable (details : list (option Background.CommitDetail)) : list (Z * Z) :=
  match details with
  | [] => []
  | detail :: rest =>
      match WeekSpec.sample detail with
      | Some (_, ad) => ad :: usable rest
      | None => usable rest
      end
  end.

End SampleSpec.

Module OrderSpec.

(** The keys of the entries that have one, in order. *)
Definition statKeys (stats : list Background.Stat) : list string :=
  flat_map (fun s => match MergeSpec.statKey s with Some k => [k] | None => [] end) stats.

Definition listKeys (entries : list Background.ListEntry) : list string :=
  flat_map (fun e => match MergeSpec.listKey e with Some k => [k] | None => [] end) entries.

Definition hasLogin (s : Background.Stat) : bool :=
  match MergeSpec.statKey s with Some _ => true | None => false end.

(** The summary entry has a login that no detailed entry has. *)
Definition fillsGap (stats : list Background.Stat) (e : Background.ListEntry) : bool :=
  match MergeSpec.listKey e with
  | Some k => negb (existsb (String.eqb k) (statKeys stats))
  | None => false
  end.

End OrderSpec.

Module UrlSpec.

Local Open Scope string_scope.

(** Every character of [s] is in the class. *)
Fixpoint allOf (cls : ascii -> bool) (s : string) : bool :=
  match s with
  | EmptyString => true
  | String ch s' => cls ch && allOf cls s'
  end.

(** [s] is empty or starts with a character outside the class. *)
Definition stopsAt (cls : ascii -> bool) (s : string) : Prop :=
  match s with
  | EmptyString => True
  | String ch _ => cls ch = false
  end.

Definition notG (ch : ascii) : bool := negb (Ascii.eqb ch "g").

End UrlSpec.

Module CrcSpec.

Local Open Scope Z_scope.

(** The reflected CRC-32 polynomial. *)
Definition poly : Z := 0xEDB88320.

(** One bit: shift right, and add the polynomial when a one falls out. *)
Definition shiftStep (c : Z) : Z :=
  if Z.odd c then Z.lxor (Z.shiftr c 1) poly else Z.shiftr c 1.

(** One byte: add it to the low end of the register and shift eight times. *)
Definition feed (crc : Z) (b : Byte.byte) : Z :=
  Nat.iter 8 shiftStep (Z.lxor crc (Icons.byteZ b)).

(** Start from all ones, feed the bytes, complement. *)
Definition crcBitwise (data : list Byte.byte) : Z :=
  Z.lxor (fold_left feed data 0xFFFFFFFF) 0xFFFFFFFF.

(** [buf.readUInt32BE(0)] of four bytes. *)
Definition readUInt32BE (bytes : list Byte.byte) : Z :=
  match bytes with
  | [b3; b2; b1; b0] =>
      Icons.byteZ b3 * 2 ^ 24 + Icons.byteZ b2 * 2 ^ 16 + Icons.byteZ b1 * 2 ^ 8 + Icons.byteZ b0
  | _ => 0
  end.

End CrcSpec.

Module ScanlineSpec.

(** Scanline [y] of an image of the given width: the filter type 0, then
    the four bytes of each pixel of the row. *)
Definition scanline (width : nat) (pixels : list Byte.byte) (y : nat) : list Byte.byte :=
  Byte.x00 :: map (fun k => nth (y * width * 4 + k) pixels Byte.x00) (seq 0 (width * 4)).

Definition scanlines (width height : nat) (pixels : list Byte.byte) : list Byte.byte :=
  flat_map (scanline width pixels) (seq 0 height).

End ScanlineSpec.

Module ViewSpec.

(** The medals, in the order of the podium. *)
Definition medals : list string := ["🥇"; "🥈"; "🥉"]%string.

(** Whether a contributor is shown for a period. *)
Definition shownIn (now : Z) (period : string) (co : Contributor) : bool :=
  Popup.isActive (Popup.processOne (Popup.cutoffTimestamp now period) co).

End ViewSpec.

(** * Properties *)

(** ** ScoringEngine *)

Section ScoringFacts.
Import Scoring.
Local Open Scope R_scope.

Lemma ln10_pos : 0 < ln 10.
Proof. rewrite <- ln_1. apply ln_increasing; lra. Qed.

Lemma log10_mono (x y : R) : 0 < x -> x <= y -> log10 x <= log10 y.
Proof.
  intros Hx Hxy. unfold log10.
  apply Rmult_le_compat_r.
  - left. apply Rinv_0_lt_compat, ln10_pos.
  - destruct Hxy as [Hlt | ->]; [left; apply ln_increasing; assumption | right; reflexivity].
Qed.

Lemma log10_1 : log10 1 = 0.
Proof. unfold log10. rewrite ln_1. lra. Qed.

Lemma log10_nonneg (x : R) : 1 <= x -> 0 <= log10 x.
Proof. intros Hx. rewrite <- log10_1. apply log10_mono; lra. Qed.


(** [Math.round] is within one half of its argument, and monotone. *)
Lemma Math_round_bounds (x : R) :
  x - / 2 < IZR (Math_round x) <= x + / 2.
Proof.
  unfold Math_round. destruct (base_Int_part (x + / 2)) as [H1 H2]. lra.
Qed.


Lemma Math_round_nonneg (x : R) : 0 <= x -> (0 <= Math_round x)%Z.
Proof.
  intros Hx. pose proof (Math_round_bounds x) as [H1 _].
  apply Z.lt_succ_r, lt_IZR. rewrite succ_IZR. lra.
Qed.


Lemma balanceBonusOf_range (avg : R) :
  0 <= balanceBonusOf SCORING_CONFIG avg <= 10.
Proof.
  unfold balanceBonusOf. cbn [linesPerCommitBaseline SCORING_CONFIG].
  destruct (Rlt_dec 0 avg) as [Hpos |]; [| lra].
  destruct (Rle_dec avg (50 * 2)) as [Hle |]; [| lra].
  split; [| apply Rmin_l].
  apply Rmin_glb; [lra |].
  assert (Rabs (avg - 50) <= 50) by (apply Rabs_le; lra).
  lra.
Qed.

Lemma weightedScore_nonneg (c a d : Z) :
  (0 <= c)%Z -> (0 <= a)%Z -> (0 <= d)%Z ->
  0 <= weightedScore SCORING_CONFIG c a d.
Proof.
  intros Hc Ha Hd. apply IZR_le in Hc, Ha, Hd.
  unfold weightedScore. cbn [commitWeight additionsWeight deletionsWeight SCORING_CONFIG].
  pose proof (@log10_nonneg (IZR c + 1)).
  pose proof (@log10_nonneg (IZR a + 1)).
  pose proof (@log10_nonneg (IZR d + 1)).
  lra.
Qed.

(** C10.  For non-negative counters the balance bonus lies in [0, 10] and
    the score is non-negative. *)
Theorem balanceBonus_range_score_nonneg (commits additions deletions : Z) :
  (0 <= commits)%Z -> (0 <= additions)%Z -> (0 <= deletions)%Z ->
  0 <= balanceBonus commits additions deletions <= 10 /\
  0 <= calculateScore commits additions deletions.
Proof.
  intros Hc Ha Hd.
  pose proof (balanceBonusOf_range (avgLinesPerCommit commits additions deletions)) as Hb.
  split; [exact Hb |].
  pose proof (weightedScore_nonneg Hc Ha Hd) as Hw.
  unfold calculateScore.
  apply Rmult_le_pos; [| lra].
  apply IZR_le, Math_round_nonneg.
  unfold rawScore, balanceBonus. lra.
Qed.

Lemma balanceBonus_range_score_nonneg_witness :
  (0 <= 3)%Z /\ (0 <= 200)%Z /\ (0 <= 40)%Z /\
  0 <= balanceBonus 3 200 40 <= 10 /\ 0 <= calculateScore 3 200 40.
Proof.
  assert (Hc : (0 <= 3)%Z) by lia.
  assert (Ha : (0 <= 200)%Z) by lia.
  assert (Hd : (0 <= 40)%Z) by lia.
  repeat split; try lia; apply (balanceBonus_range_score_nonneg Hc Ha Hd).
Defined.

(** The bonus is a tent over (0, 100] with its top at the baseline. *)
Lemma balanceBonusOf_low (avg : R) :
  0 < avg <= 50 -> balanceBonusOf SCORING_CONFIG avg = avg / 5.
Proof.
  intros [H0 H1]. unfold balanceBonusOf. cbn [linesPerCommitBaseline SCORING_CONFIG].
  destruct (Rlt_dec 0 avg); [| lra].
  destruct (Rle_dec avg (50 * 2)); [| lra].
  rewrite Rabs_left1 by lra. rewrite Rmin_right by lra. lra.
Qed.

Lemma balanceBonusOf_high (avg : R) :
  50 <= avg <= 100 -> balanceBonusOf SCORING_CONFIG avg = (100 - avg) / 5.
Proof.
  intros [H0 H1]. unfold balanceBonusOf. cbn [linesPerCommitBaseline SCORING_CONFIG].
  destruct (Rlt_dec 0 avg); [| lra].
  destruct (Rle_dec avg (50 * 2)); [| lra].
  rewrite Rabs_right by lra. rewrite Rmin_right by lra. lra.
Qed.

Lemma balanceBonusOf_outside (avg : R) :
  avg <= 0 \/ 100 < avg -> balanceBonusOf SCORING_CONFIG avg = 0.
Proof.
  intros H. unfold balanceBonusOf. cbn [linesPerCommitBaseline SCORING_CONFIG].
  destruct (Rlt_dec 0 avg); [| reflexivity].
  destruct (Rle_dec avg (50 * 2)); [lra | reflexivity].
Qed.





Lemma avgLinesPerCommit_pos (c a d : Z) :
  (0 < c)%Z -> avgLinesPerCommit c a d = IZR (a + d) / IZR c.
Proof.
  intros Hc. unfold avgLinesPerCommit.
  destruct (Z.ltb_spec 0 c); [reflexivity | lia].
Qed.

Lemma avgLinesPerCommit_zero (a d : Z) : avgLinesPerCommit 0 a d = 0.
Proof. reflexivity. Qed.




Example calculateScore_zero : calculateScore 0 0 0 = 0.
Proof.
  assert (Hraw : rawScore 0 0 0 = 0).
  { unfold rawScore, balanceBonus. rewrite avgLinesPerCommit_zero.
    rewrite (@balanceBonusOf_outside 0) by lra.
    unfold weightedScore. replace (IZR 0 + 1) with 1 by lra. rewrite log10_1. lra. }
  unfold calculateScore. rewrite Hraw.
  pose proof (Math_round_bounds (0 * 10)) as [Hlo Hhi].
  assert (Hz : Math_round (0 * 10) = 0%Z).
  { assert (H1 : (Math_round (0 * 10) < 1)%Z) by (apply lt_IZR; lra).
    assert (H2 : (-1 < Math_round (0 * 10))%Z) by (apply lt_IZR; lra).
    lia. }
  rewrite Hz. lra.
Qed.










End ScoringFacts.

(** ** TitleClassifier *)

Lemma display_injective (t1 t2 : TitleSpec.Title) :
  TitleSpec.display t1 = TitleSpec.display t2 -> t1 = t2.
Proof.
  destruct t1, t2; intros H; try reflexivity; discriminate H.
Qed.

Lemma assignTitle_classify (commits additions deletions : Z) :
  Popup.assignTitle commits additions deletions
  = TitleSpec.display (TitleSpec.classify commits additions deletions).
Proof.
  unfold Popup.assignTitle, TitleSpec.classify, TitleSpec.rules, TitleSpec.firstMatch,
    TitleSpec.ratio, TitleSpec.deleteRatio, TitleSpec.total.
  repeat match goal with
         | |- context [if ?b then _ else _] =>
             lazymatch b with
             | context [if _ then _ else _] => fail
             | _ => destruct b
             end
         end; reflexivity.
Qed.

Lemma firstMatch_none (rs : list (bool * TitleSpec.Title)) :
  Forall (fun r => fst r = false) rs -> TitleSpec.firstMatch rs = TitleSpec.Inactive.
Proof.
  induction 1 as [| [b t] rs Hb _ IH]; [reflexivity |].
  simpl in *. rewrite Hb. exact IH.
Qed.

(** Earlier rules win: 600 commits that are all deletions make a Code
    Architect, not a Cleaner; nine tenths of deletions make a Cleaner before
    anything commit-based. *)
Example assignTitle_samples :
  Popup.assignTitle 600 0 1000 = TitleSpec.display TitleSpec.CodeArchitect /\
  Popup.assignTitle 10 100 900 = TitleSpec.display TitleSpec.TheCleaner /\
  Popup.assignTitle 1 600 0 = TitleSpec.display TitleSpec.TsunamiCoder /\
  Popup.assignTitle 60 100 100 = TitleSpec.display TitleSpec.RapidFire /\
  Popup.assignTitle 3 60000 0 = TitleSpec.display TitleSpec.TsunamiCoder /\
  Popup.assignTitle 200 60000 0 = TitleSpec.display TitleSpec.NovelWriter /\
  Popup.assignTitle 100 5000 0 = TitleSpec.display TitleSpec.Veteran /\
  Popup.assignTitle 1 10 0 = TitleSpec.display TitleSpec.FreshBlood /\
  Popup.assignTitle 0 0 0 = TitleSpec.display TitleSpec.Inactive.
Proof. repeat split; reflexivity. Qed.

(** C6.  [assignTitle] returns the pair of the first rule that matches, the
    rules taken in the order of the specification; distinct titles have
    distinct pairs; 500 commits with no lines give Code Architect; when no
    rule matches the result is Inactive. *)
Theorem assignTitle_first_match :
  (forall commits additions deletions : Z,
      Popup.assignTitle commits additions deletions
      = TitleSpec.display (TitleSpec.classify commits additions deletions)) /\
  (forall t1 t2, TitleSpec.display t1 = TitleSpec.display t2 -> t1 = t2) /\
  Popup.assignTitle 500 0 0 = TitleSpec.display TitleSpec.CodeArchitect /\
  (forall commits additions deletions : Z,
      Forall (fun r => fst r = false) (TitleSpec.rules commits additions deletions) ->
      Popup.assignTitle commits additions deletions = TitleSpec.display TitleSpec.Inactive).
Proof.
  split; [exact assignTitle_classify |].
  split; [exact display_injective |].
  split; [reflexivity |].
  intros commits additions deletions Hnone.
  rewrite assignTitle_classify. unfold TitleSpec.classify.
  rewrite (firstMatch_none Hnone). reflexivity.
Qed.

(** No commits, ten lines: no rule matches. *)
Lemma assignTitle_first_match_witness :
  Popup.assignTitle 0 7 3 = TitleSpec.display TitleSpec.Inactive.
Proof.
  destruct assignTitle_first_match as (_ & _ & _ & Hnone).
  apply Hnone. vm_compute. repeat constructor.
Defined.

(** ** Generic facts on [Array_sort] *)

Section ArraySortFacts.
Variables (A : Type) (gt0 : A -> A -> bool) (key : A -> R).
Hypothesis gt0_key : forall x y, gt0 x y = true <-> (key x < key y)%R.

Lemma sortInsert_perm (x : A) (l : list A) : Permutation (sortInsert gt0 x l) (x :: l).
Proof.
  induction l as [| y l IH]; simpl; [apply Permutation_refl |].
  destruct (gt0 x y); [| apply Permutation_refl].
  eapply Permutation_trans; [apply perm_skip, IH | apply perm_swap].
Qed.

Lemma Array_sort_perm (l : list A) : Permutation (Array_sort gt0 l) l.
Proof.
  induction l as [| x l IH]; simpl; [constructor |].
  eapply Permutation_trans; [apply sortInsert_perm | apply perm_skip, IH].
Qed.

Lemma sortInsert_sorted (x : A) (l : list A) :
  StronglySorted (descending key) l -> StronglySorted (descending key) (sortInsert gt0 x l).
Proof.
  induction 1 as [| y l Hl IH Hy]; simpl.
  - repeat constructor.
  - destruct (gt0 x y) eqn:E.
    + constructor; [exact IH |].
      apply gt0_key in E.
      eapply Permutation_Forall; [apply Permutation_sym, sortInsert_perm |].
      constructor; [unfold descending; lra | exact Hy].
    + assert (Hxy : (key y <= key x)%R).
      { destruct (Rlt_dec (key x) (key y)) as [Hlt |]; [| lra].
        apply gt0_key in Hlt. congruence. }
      constructor; [constructor; assumption |].
      constructor; [exact Hxy |].
      eapply Forall_impl; [| exact Hy].
      unfold descending. intros z Hz. lra.
Qed.

Lemma Array_sort_sorted (l : list A) : StronglySorted (descending key) (Array_sort gt0 l).
Proof.
  induction l as [| x l IH]; simpl; [constructor | apply sortInsert_sorted, IH].
Qed.

(** Stability: among the elements of one key, the order is that of the
    input. *)
Lemma sortInsert_stable (s : R) (x : A) (l : list A) :
  filter (keyIs key s) (sortInsert gt0 x l) = filter (keyIs key s) (x :: l).
Proof.
  induction l as [| y l IH]; [reflexivity |].
  simpl sortInsert. destruct (gt0 x y) eqn:E; [| reflexivity].
  apply gt0_key in E.
  simpl in *. rewrite IH. unfold keyIs.
  destruct (Req_dec_T (key x) s), (Req_dec_T (key y) s); try reflexivity.
  lra.
Qed.

Lemma Array_sort_stable (s : R) (l : list A) :
  filter (keyIs key s) (Array_sort gt0 l) = filter (keyIs key s) l.
Proof.
  induction l as [| x l IH]; [reflexivity |].
  simpl Array_sort. rewrite sortInsert_stable. simpl. rewrite IH. reflexivity.
Qed.
End ArraySortFacts.

(** ** Ranker *)

Lemma byScoreGt0_spec (x y : Popup.Entry) :
  Popup.byScoreGt0 x y = true <-> (Popup.score x < Popup.score y)%R.
Proof.
  unfold Popup.byScoreGt0.
  destruct (Rlt_dec 0 (Popup.score y - Popup.score x)); split; intros; try lra; try discriminate;
    reflexivity.
Qed.

Lemma assignRanks_length (index : Z) (l : list Popup.Entry) :
  List.length (Popup.assignRanks index l) = List.length l.
Proof.
  revert index. induction l as [| e l IH]; intros index; simpl; [reflexivity |].
  rewrite IH. reflexivity.
Qed.

Lemma assignRanks_nth (l : list Popup.Entry) (index : Z) (i : nat) :
  nth_error (Popup.assignRanks index l) i
  = option_map (fun e => Popup.setRank e (index + Z.of_nat i + 1)) (nth_error l i).
Proof.
  revert index i. induction l as [| e l IH]; intros index i.
  - destruct i; reflexivity.
  - destruct i as [| i]; simpl.
    + f_equal. f_equal. lia.
    + rewrite IH. destruct (nth_error l i); simpl; [| reflexivity].
      f_equal. f_equal. lia.
Qed.

(** C7.  The sorted list is a permutation of the active entries, in
    descending order of score, with the entries of one score in their
    pre-sort order; the entry at index [i] receives rank [i + 1], so the
    ranks are 1, ..., n. *)
Theorem sortAndRank_sorted_stable_ranked (active : list Popup.Entry) :
  let sorted := Array_sort Popup.byScoreGt0 active in
  Permutation sorted active /\
  StronglySorted (fun x y => (Popup.score y <= Popup.score x)%R) sorted /\
  (forall s : R, filter (keyIs Popup.score s) sorted = filter (keyIs Popup.score s) active) /\
  List.length (Popup.sortAndRank active) = List.length active /\
  (forall i : nat,
      nth_error (Popup.sortAndRank active) i
      = option_map (fun e => Popup.setRank e (Z.of_nat i + 1)) (nth_error sorted i)) /\
  map Popup.rank (Popup.sortAndRank active)
  = map (fun i => Some (Z.of_nat i)) (seq 1 (List.length active)).
Proof.
  intros sorted.
  assert (Hlen : List.length sorted = List.length active)
    by (apply Permutation_length, Array_sort_perm).
  split; [apply Array_sort_perm |].
  split; [exact (@Array_sort_sorted _ _ _ byScoreGt0_spec active) |].
  split; [intros s; exact (@Array_sort_stable _ _ _ byScoreGt0_spec s active) |].
  split; [unfold Popup.sortAndRank; rewrite assignRanks_length; exact Hlen |].
  split.
  - intros i. unfold Popup.sortAndRank. rewrite assignRanks_nth. reflexivity.
  - unfold Popup.sortAndRank. fold sorted. rewrite <- Hlen.
    apply nth_error_ext. intros i.
    rewrite nth_error_map, assignRanks_nth, nth_error_map.
    destruct (nth_error sorted i) as [e |] eqn:E.
    + assert (Hi : (i < List.length sorted)%nat) by (apply nth_error_Some; congruence).
      rewrite nth_error_seq. destruct (Nat.ltb_spec i (List.length sorted)); [| lia].
      cbn [option_map Popup.rank Popup.setRank Nat.add]. do 2 f_equal. lia.
    + apply nth_error_None in E. rewrite nth_error_seq.
      destruct (Nat.ltb_spec i (List.length sorted)); [lia | reflexivity].
Qed.

(** ** PeriodAggregator *)

Lemma sumBy_sumOf (A : Type) (f : A -> Z) (l : list A) :
  sumBy f l = sumOf (map f l).
Proof.
  unfold sumBy.
  assert (H : forall acc, fold_left (fun sum x => (sum + f x)%Z) l acc
                          = (acc + sumOf (map f l))%Z).
  { induction l as [| x l IH]; intros acc; simpl; [lia |]. rewrite IH. lia. }
  rewrite H. lia.
Qed.

Lemma sumOf_nonneg (l : list Z) : Forall (fun x => (0 <= x)%Z) l -> (0 <= sumOf l)%Z.
Proof. induction 1; simpl; lia. Qed.

Lemma totalsOfEntry_processOne (cutoff : Q) (co : Contributor) :
  PeriodSpec.totalsOfEntry (Popup.processOne cutoff co) = PeriodSpec.periodTotals cutoff co.
Proof.
  unfold PeriodSpec.totalsOfEntry, Popup.processOne, PeriodSpec.periodTotals, PeriodSpec.inWindow.
  cbn [Popup.e_login Popup.commits Popup.additions Popup.deletions].
  rewrite !sumBy_sumOf. reflexivity.
Qed.

Lemma periodTotals_nonneg (cutoff : Q) (co : Contributor) :
  PeriodSpec.countersNonneg co ->
  (0 <= PeriodSpec.t_commits (PeriodSpec.periodTotals cutoff co))%Z /\
  (0 <= PeriodSpec.t_additions (PeriodSpec.periodTotals cutoff co))%Z /\
  (0 <= PeriodSpec.t_deletions (PeriodSpec.periodTotals cutoff co))%Z.
Proof.
  intros Hnn. unfold PeriodSpec.countersNonneg in Hnn.
  assert (Hw : Forall PeriodSpec.weekNonneg (PeriodSpec.inWindow cutoff (weeks co))).
  { apply Forall_forall. intros wk Hin. apply filter_In in Hin.
    rewrite Forall_forall in Hnn. apply Hnn, Hin. }
  cbn [PeriodSpec.periodTotals PeriodSpec.t_commits PeriodSpec.t_additions PeriodSpec.t_deletions].
  repeat split; apply sumOf_nonneg; rewrite Forall_map;
    (eapply Forall_impl; [| exact Hw]); unfold PeriodSpec.weekNonneg; intros wk; tauto.
Qed.

Lemma isActive_processOne (cutoff : Q) (co : Contributor) :
  Popup.isActive (Popup.processOne cutoff co)
  = PeriodSpec.hasActivity (PeriodSpec.periodTotals cutoff co).
Proof. rewrite <- totalsOfEntry_processOne. reflexivity. Qed.

Lemma allZero_no_activity (t : PeriodSpec.PeriodTotals) :
  PeriodSpec.allZero t = true -> PeriodSpec.hasActivity t = false.
Proof.
  unfold PeriodSpec.allZero, PeriodSpec.hasActivity.
  rewrite !andb_true_iff, !Z.eqb_eq. intros [[-> ->] ->]. reflexivity.
Qed.

Lemma hasActivity_nonneg (cutoff : Q) (co : Contributor) :
  PeriodSpec.countersNonneg co ->
  PeriodSpec.hasActivity (PeriodSpec.periodTotals cutoff co)
  = negb (PeriodSpec.allZero (PeriodSpec.periodTotals cutoff co)).
Proof.
  intros Hnn. pose proof (periodTotals_nonneg cutoff Hnn) as (Hc & Ha & Hd).
  unfold PeriodSpec.hasActivity, PeriodSpec.allZero.
  set (t := PeriodSpec.periodTotals cutoff co) in *.
  destruct (Z.ltb_spec 0 (PeriodSpec.t_commits t));
  destruct (Z.ltb_spec 0 (PeriodSpec.t_additions t));
  destruct (Z.ltb_spec 0 (PeriodSpec.t_deletions t));
  destruct (Z.eqb_spec (PeriodSpec.t_commits t) 0);
  destruct (Z.eqb_spec (PeriodSpec.t_additions t) 0);
  destruct (Z.eqb_spec (PeriodSpec.t_deletions t) 0);
  simpl; try reflexivity; lia.
Qed.

Lemma totalsOfEntry_assignRanks (index : Z) (l : list Popup.Entry) :
  map PeriodSpec.totalsOfEntry (Popup.assignRanks index l) = map PeriodSpec.totalsOfEntry l.
Proof.
  revert index. induction l as [| e l IH]; intros index; simpl; [reflexivity |].
  rewrite IH. reflexivity.
Qed.

Lemma filter_map_commute (A B : Type) (f : A -> B) (p : B -> bool) (l : list A) :
  filter p (map f l) = map f (filter (fun x => p (f x)) l).
Proof.
  induction l as [| x l IH]; simpl; [reflexivity |].
  destruct (p (f x)); simpl; rewrite IH; reflexivity.
Qed.

Lemma cutoffTimestamp_week (now : Z) :
  (Popup.cutoffTimestamp now "week" == inject_Z now / inject_Z 1000 - inject_Z (7 * 86400))%Q.
Proof.
  unfold Popup.cutoffTimestamp, Popup.getPeriodCutoff, Popup.weekMs.
  simpl String.eqb. cbv iota.
  unfold Qeq, Qdiv, Qminus, Qplus, Qmult, Qinv, Qopp, inject_Z. simpl. lia.
Qed.

Lemma cutoffTimestamp_month (now : Z) :
  (Popup.cutoffTimestamp now "month" == inject_Z now / inject_Z 1000 - inject_Z (28 * 86400))%Q.
Proof.
  unfold Popup.cutoffTimestamp, Popup.getPeriodCutoff, Popup.weekMs.
  simpl String.eqb. cbv iota.
  unfold Qeq, Qdiv, Qminus, Qplus, Qmult, Qinv, Qopp, inject_Z. simpl. lia.
Qed.

(** C5.  The cutoff, in Unix seconds, is 0 for ['all'], now minus 7 days for
    ['week'] and now minus 28 days for ['month'].  The result of
    [processContributors] carries, up to the order fixed by the sort, the
    totals of every contributor summed over exactly the buckets with
    [w >= cutoff], for the contributors with some positive total: a
    contributor whose three totals are zero is dropped, and with
    non-negative counters no other is. *)
Theorem period_aggregation (now : Z) (contributors : list Contributor) (period : string) :
  (Popup.cutoffTimestamp now "all" == 0)%Q /\
  (Popup.cutoffTimestamp now "week" == inject_Z now / inject_Z 1000 - inject_Z (7 * 86400))%Q /\
  (Popup.cutoffTimestamp now "month" == inject_Z now / inject_Z 1000 - inject_Z (28 * 86400))%Q /\
  Permutation
    (map PeriodSpec.totalsOfEntry (Popup.processContributors now contributors period))
    (filter PeriodSpec.hasActivity
       (map (PeriodSpec.periodTotals (Popup.cutoffTimestamp now period)) contributors)) /\
  (forall t, PeriodSpec.allZero t = true -> PeriodSpec.hasActivity t = false) /\
  (forall co,
      In co contributors -> PeriodSpec.countersNonneg co ->
      PeriodSpec.hasActivity (PeriodSpec.periodTotals (Popup.cutoffTimestamp now period) co)
      = negb (PeriodSpec.allZero
                (PeriodSpec.periodTotals (Popup.cutoffTimestamp now period) co))).
Proof.
  split; [reflexivity |].
  split; [apply cutoffTimestamp_week |].
  split; [apply cutoffTimestamp_month |].
  split; [| split; [exact allZero_no_activity | intros co _; apply hasActivity_nonneg]].
  unfold Popup.processContributors, Popup.sortAndRank.
  set (cutoff := Popup.cutoffTimestamp now period).
  rewrite totalsOfEntry_assignRanks.
  eapply Permutation_trans.
  { apply Permutation_map. apply Array_sort_perm. }
  rewrite filter_map_commute, map_map.
  rewrite filter_map_commute.
  rewrite (map_ext _ _ (totalsOfEntry_processOne cutoff)).
  apply Permutation_map.
  replace (filter (fun x => Popup.isActive (Popup.processOne cutoff x)) contributors)
    with (filter (fun x => PeriodSpec.hasActivity (PeriodSpec.periodTotals cutoff x))
            contributors).
  - apply Permutation_refl.
  - apply filter_ext. intros co. symmetry. apply isActive_processOne.
Qed.

(** ** Facts on [JsMap] *)

Section JsMapFacts.
Variables (K V : Type) (eqb : K -> K -> bool).
Hypothesis eqb_eq : forall x y, eqb x y = true <-> x = y.

Lemma eqb_refl' (k : K) : eqb k k = true.
Proof. apply eqb_eq. reflexivity. Qed.

Lemma eqb_neq (k k' : K) : k <> k' -> eqb k k' = false.
Proof.
  intros Hne. destruct (eqb k k') eqn:E; [| reflexivity].
  apply eqb_eq in E. contradiction.
Qed.

Lemma Map_get_set_same (k : K) (v : V) (m : JsMap K V) :
  Map_get eqb k (Map_set eqb k v m) = Some v.
Proof.
  induction m as [| [k' v'] m IH]; simpl.
  - rewrite eqb_refl'. reflexivity.
  - destruct (eqb k' k) eqn:E; simpl; rewrite E; [reflexivity | exact IH].
Qed.

Lemma Map_get_set_other (k k' : K) (v : V) (m : JsMap K V) :
  k <> k' -> Map_get eqb k' (Map_set eqb k v m) = Map_get eqb k' m.
Proof.
  intros Hne. induction m as [| [k0 v0] m IH]; simpl.
  - rewrite eqb_neq by assumption. reflexivity.
  - destruct (eqb k0 k) eqn:E; simpl.
    + apply eqb_eq in E. subst k0. rewrite eqb_neq by assumption. reflexivity.
    + rewrite IH. reflexivity.
Qed.

Lemma Map_get_None (k : K) (m : JsMap K V) :
  Map_get eqb k m = None <-> ~ In k (Map_keys m).
Proof.
  induction m as [| [k' v'] m IH]; simpl; [tauto |].
  destruct (eqb k' k) eqn:E.
  - apply eqb_eq in E. split; [discriminate | intros H; exfalso; apply H; left; exact E].
  - rewrite IH. split.
    + intros Hn [Heq | Hin]; [| tauto]. subst k'. rewrite eqb_refl' in E. discriminate.
    + tauto.
Qed.

Lemma Map_set_absent (k : K) (v : V) (m : JsMap K V) :
  Map_get eqb k m = None -> Map_set eqb k v m = m ++ [(k, v)].
Proof.
  induction m as [| [k' v'] m IH]; simpl; [reflexivity |].
  destruct (eqb k' k); [discriminate |]. intros H. rewrite IH by assumption. reflexivity.
Qed.

Lemma Map_keys_set_present (k : K) (v v0 : V) (m : JsMap K V) :
  Map_get eqb k m = Some v0 -> Map_keys (Map_set eqb k v m) = Map_keys m.
Proof.
  unfold Map_keys. induction m as [| [k' v'] m IH]; simpl; [discriminate |].
  destruct (eqb k' k); simpl; [reflexivity |].
  intros H. rewrite IH by assumption. reflexivity.
Qed.

Lemma Map_keys_NoDup_set (k : K) (v : V) (m : JsMap K V) :
  NoDup (Map_keys m) -> NoDup (Map_keys (Map_set eqb k v m)).
Proof.
  intros Hnd. destruct (Map_get eqb k m) as [v0 |] eqn:E.
  - rewrite (@Map_keys_set_present k v v0 m E). exact Hnd.
  - rewrite Map_set_absent by assumption.
    unfold Map_keys. rewrite map_app. simpl.
    apply NoDup_app; [exact Hnd | repeat constructor; intros [] |].
    intros x Hx [Hk | []]. subst x.
    apply Map_get_None in E. contradiction.
Qed.
End JsMapFacts.

(** ** StatsMerger *)

Lemma find_app (A : Type) (p : A -> bool) (l1 l2 : list A) :
  find p (l1 ++ l2) = match find p l1 with Some x => Some x | None => find p l2 end.
Proof.
  induction l1 as [| x l1 IH]; simpl; [reflexivity |].
  destruct (p x); [reflexivity | exact IH].
Qed.

Lemma Map_get_addStat (k : string) (m : Background.ContributorMap) (s : Background.Stat) :
  Map_get String.eqb k (Background.addStat m s)
  = if MergeSpec.hasKey k (MergeSpec.statKey s) then Some (MergeSpec.statRecord s)
    else Map_get String.eqb k m.
Proof.
  unfold Background.addStat, MergeSpec.statKey, MergeSpec.statRecord.
  destruct (Background.author s) as [au |]; [| reflexivity].
  destruct (String.eqb (Background.a_login au) ""); [reflexivity |].
  simpl MergeSpec.hasKey.
  destruct (String.eqb_spec (Background.toLowerCase (Background.a_login au)) k) as [-> | Hne].
  - apply Map_get_set_same. apply String.eqb_eq.
  - apply Map_get_set_other; [apply String.eqb_eq | exact Hne].
Qed.

Lemma Map_get_addListEntry (k : string) (m : Background.ContributorMap) (e : Background.ListEntry) :
  Map_get String.eqb k (Background.addListEntry m e)
  = match Map_get String.eqb k m with
    | Some co => Some co
    | None => if MergeSpec.hasKey k (MergeSpec.listKey e) then Some (MergeSpec.listRecord e)
              else None
    end.
Proof.
  unfold Background.addListEntry, MergeSpec.listKey, MergeSpec.listRecord.
  destruct (String.eqb (Background.l_login e) "").
  { simpl. destruct (Map_get String.eqb k m); reflexivity. }
  simpl MergeSpec.hasKey. unfold Map_has.
  destruct (String.eqb_spec (Background.toLowerCase (Background.l_login e)) k) as [-> | Hne].
  - destruct (Map_get String.eqb k m) eqn:E.
    + exact E.
    + apply Map_get_set_same, String.eqb_eq.
  - destruct (Map_get String.eqb (Background.toLowerCase (Background.l_login e)) m) eqn:E.
    + destruct (Map_get String.eqb k m); reflexivity.
    + rewrite Map_get_set_other by (try apply String.eqb_eq; assumption).
      destruct (Map_get String.eqb k m); reflexivity.
Qed.

Lemma Map_get_fold_addStat (k : string) (stats : list Background.Stat)
    (m : Background.ContributorMap) :
  Map_get String.eqb k (fold_left Background.addStat stats m)
  = match find (fun s => MergeSpec.hasKey k (MergeSpec.statKey s)) (rev stats) with
    | Some s => Some (MergeSpec.statRecord s)
    | None => Map_get String.eqb k m
    end.
Proof.
  revert m. induction stats as [| s stats IH]; intros m; [reflexivity |].
  simpl fold_left. rewrite IH. simpl rev. rewrite find_app.
  destruct (find _ (rev stats)); [reflexivity |].
  simpl find. rewrite Map_get_addStat.
  destruct (MergeSpec.hasKey k (MergeSpec.statKey s)); reflexivity.
Qed.

Lemma Map_get_fold_addListEntry (k : string) (entries : list Background.ListEntry)
    (m : Background.ContributorMap) :
  Map_get String.eqb k (fold_left Background.addListEntry entries m)
  = match Map_get String.eqb k m with
    | Some co => Some co
    | None =>
        match find (fun e => MergeSpec.hasKey k (MergeSpec.listKey e)) entries with
        | Some e => Some (MergeSpec.listRecord e)
        | None => None
        end
    end.
Proof.
  revert m. induction entries as [| e entries IH]; intros m.
  - simpl. destruct (Map_get String.eqb k m); reflexivity.
  - simpl fold_left. rewrite IH, Map_get_addListEntry. simpl find.
    destruct (Map_get String.eqb k m); [reflexivity |].
    destruct (MergeSpec.hasKey k (MergeSpec.listKey e)); reflexivity.
Qed.

Lemma addStat_NoDup (m : Background.ContributorMap) (s : Background.Stat) :
  NoDup (Map_keys m) -> NoDup (Map_keys (Background.addStat m s)).
Proof.
  intros H. unfold Background.addStat.
  destruct (Background.author s) as [au |]; [| exact H].
  destruct (String.eqb (Background.a_login au) ""); [exact H |].
  apply Map_keys_NoDup_set; [apply String.eqb_eq | exact H].
Qed.

Lemma addListEntry_NoDup (m : Background.ContributorMap) (e : Background.ListEntry) :
  NoDup (Map_keys m) -> NoDup (Map_keys (Background.addListEntry m e)).
Proof.
  intros H. unfold Background.addListEntry.
  destruct (String.eqb (Background.l_login e) ""); [exact H |].
  destruct (Map_has _ _ m); [exact H |].
  apply Map_keys_NoDup_set; [apply String.eqb_eq | exact H].
Qed.

Lemma fold_left_preserves (A B : Type) (P : B -> Prop) (f : B -> A -> B) (l : list A) (b : B) :
  (forall b x, P b -> P (f b x)) -> P b -> P (fold_left f l b).
Proof.
  intros Hf. revert b. induction l as [| x l IH]; intros b Hb; simpl; [exact Hb |].
  apply IH, Hf, Hb.
Qed.

(** Alice is in both sources, under different capitalisations; Bob in the
    summary only; the third detailed entry has no author. *)
Example buildContributorMap_sample :
  let wk := {| w := 1699747200; a := 7; d := 3; c := 1 |} in
  Map_values
    (Background.buildContributorMap
       (Background.JArray
          [ {| Background.author :=
                 Some {| Background.a_login := "Alice"; Background.avatar_url := "av";
                         Background.html_url := "url" |};
               Background.s_weeks := Some [wk] |};
            {| Background.author := None; Background.s_weeks := Some [wk] |} ])
       (Background.JArray
          [ {| Background.l_login := "alice"; Background.l_avatar_url := "";
               Background.l_html_url := ""; Background.contributions := Some 5%Z |};
            {| Background.l_login := "Bob"; Background.l_avatar_url := "";
               Background.l_html_url := ""; Background.contributions := Some 10%Z |} ]))
  = [ {| login := "Alice"; avatar := "av"; profileUrl := "url"; weeks := [wk];
         totalCommits := None |};
      {| login := "Bob"; avatar := ""; profileUrl := ""; weeks := [];
         totalCommits := Some 10%Z |} ].
Proof. reflexivity. Qed.

(** C2.  Under every key the merged map holds what the specification
    prescribes: the record of the detailed entry with that lowercased login,
    with its weeks; failing that, the record of the first summary entry with
    it, with no weeks and its contributions as fallback total; nothing
    otherwise.  Entries without login have no key, a source that is not an
    array counts as empty, and no key occurs twice. *)
Theorem merge_by_lowercased_login
    (statsData : Background.Json Background.Stat)
    (listData : Background.Json Background.ListEntry) :
  (forall k : string,
      Map_get String.eqb k (Background.buildContributorMap statsData listData)
      = MergeSpec.lookup k (MergeSpec.items statsData) (MergeSpec.items listData)) /\
  NoDup (Map_keys (Background.buildContributorMap statsData listData)).
Proof.
  split.
  - intros k. unfold Background.buildContributorMap, MergeSpec.lookup.
    destruct statsData as [stats |], listData as [entries |]; simpl MergeSpec.items.
    + rewrite Map_get_fold_addListEntry, Map_get_fold_addStat.
      destruct (find _ (rev stats)); reflexivity.
    + rewrite Map_get_fold_addStat. destruct (find _ (rev stats)); reflexivity.
    + rewrite Map_get_fold_addListEntry. reflexivity.
    + reflexivity.
  - unfold Background.buildContributorMap.
    assert (H1 : NoDup (Map_keys
              match statsData with
              | Background.JArray stats => fold_left Background.addStat stats []
              | Background.JOther => []
              end)).
    { destruct statsData as [stats |]; [| constructor].
      apply fold_left_preserves; [apply addStat_NoDup | constructor]. }
    destruct listData as [entries |]; [| exact H1].
    apply fold_left_preserves; [apply addListEntry_NoDup | exact H1].
Qed.

Lemma needsDiffStats_qualifies (co : Contributor) :
  Background.needsDiffStats co = true <-> BackfillSpec.qualifies co.
Proof.
  unfold Background.needsDiffStats, BackfillSpec.qualifies, BackfillSpec.totalCommitsOf,
    BackfillSpec.weeklyCommits, BackfillSpec.totalAdditions, BackfillSpec.totalDeletions,
    BackfillSpec.fallbackTotalCommits, orElse.
  rewrite !sumBy_sumOf.
  set (sc := sumOf (map c (weeks co))).
  set (sa := sumOf (map a (weeks co))).
  set (sd := sumOf (map d (weeks co))).
  set (fb := orZero (totalCommits co)).
  rewrite !andb_true_iff, Z.ltb_lt, !Z.eqb_eq.
  destruct (Z.eqb_spec sc 0) as [Hz | Hnz].
  - destruct (Z.eqb_spec fb 0) as [Hf | Hf]; [rewrite Hf |]; tauto.
  - destruct (Z.eqb_spec sc 0); [contradiction | tauto].
Qed.

Lemma needsDiffStatsRefs_In (contributors : list Contributor) (i : nat) :
  In i (Background.needsDiffStatsRefs contributors) <->
  exists co, nth_error contributors i = Some co /\ Background.needsDiffStats co = true.
Proof.
  unfold Background.needsDiffStatsRefs. rewrite filter_In, in_seq.
  split.
  - intros [_ H]. destruct (nth_error contributors i) as [co |]; [| discriminate].
    exists co. split; [reflexivity | exact H].
  - intros (co & Hco & Hn). rewrite Hco. split; [| exact Hn].
    assert (i < List.length contributors)%nat by (apply nth_error_Some; congruence). lia.
Qed.

(** C3.  A record is selected for the diff backfill exactly when its total
    commits (the weekly sum, or the fallback total when that sum is zero) is
    positive and its weekly additions and deletions both sum to zero. *)
Theorem needsDiffStats_selects (contributors : list Contributor) :
  (forall co : Contributor, Background.needsDiffStats co = true <-> BackfillSpec.qualifies co) /\
  (forall i : nat,
      In i (Background.needsDiffStatsRefs contributors) <->
      exists co, nth_error contributors i = Some co /\ BackfillSpec.qualifies co).
Proof.
  split; [exact needsDiffStats_qualifies |].
  intros i. rewrite needsDiffStatsRefs_In.
  split; intros (co & Hco & Hq); exists co; (split; [exact Hco |]);
    apply needsDiffStats_qualifies; exact Hq.
Qed.

(** ** The backfill writes each selected record once, and no other *)

Lemma nth_error_setNth (A : Type) (i j : nat) (x : A) (l : list A) :
  nth_error (Background.setNth i x l) j
  = if Nat.eqb i j then option_map (fun _ => x) (nth_error l j) else nth_error l j.
Proof.
  revert i j. induction l as [| y l IH]; intros i j.
  - replace (nth_error (Background.setNth i x []) j) with (@None A)
      by (destruct i, j; reflexivity).
    replace (nth_error [] j) with (@None A) by (destruct j; reflexivity).
    destruct (Nat.eqb i j); reflexivity.
  - destruct i as [| i], j as [| j]; simpl; try reflexivity.
    apply IH.
Qed.

Lemma nth_error_fillDiffStatsAt (api : Background.Api) (store : list Contributor) (i j : nat) :
  nth_error (Background.fillDiffStatsAt api store i) j
  = if Nat.eqb i j then option_map (Background.fillDiffStats api) (nth_error store j)
    else nth_error store j.
Proof.
  unfold Background.fillDiffStatsAt.
  destruct (nth_error store i) as [co |] eqn:E.
  - rewrite nth_error_setNth.
    destruct (Nat.eqb_spec i j) as [<- | Hne]; [| reflexivity].
    rewrite E. reflexivity.
  - destruct (Nat.eqb_spec i j) as [<- | Hne]; [| reflexivity].
    rewrite E. reflexivity.
Qed.

Lemma nth_error_fold_fillDiffStatsAt (api : Background.Api) (refs : list nat)
    (store : list Contributor) (j : nat) :
  NoDup refs ->
  nth_error (fold_left (Background.fillDiffStatsAt api) refs store) j
  = if existsb (Nat.eqb j) refs
    then option_map (Background.fillDiffStats api) (nth_error store j)
    else nth_error store j.
Proof.
  intros Hnd. revert store. induction Hnd as [| i refs Hni Hnd IH]; intros store.
  - reflexivity.
  - simpl fold_left. rewrite IH. rewrite !nth_error_fillDiffStatsAt. simpl existsb.
    destruct (Nat.eqb_spec j i) as [-> | Hne].
    + rewrite Nat.eqb_refl. simpl.
      assert (Hex : existsb (Nat.eqb i) refs = false).
      { apply not_true_is_false. intros H. apply existsb_exists in H.
        destruct H as (x & Hx & Heq). apply Nat.eqb_eq in Heq. subst x. contradiction. }
      rewrite Hex. reflexivity.
    + destruct (Nat.eqb_spec i j); [congruence |]. reflexivity.
Qed.

Lemma backfill_nth (api : Background.Api) (contributors : list Contributor) (j : nat) :
  nth_error (Background.backfill api contributors) j
  = option_map (BackfillSpec.backfillOne api) (nth_error contributors j).
Proof.
  unfold Background.backfill.
  rewrite nth_error_fold_fillDiffStatsAt.
  2: { unfold Background.needsDiffStatsRefs. apply NoDup_filter, seq_NoDup. }
  unfold BackfillSpec.backfillOne.
  destruct (existsb (Nat.eqb j) (Background.needsDiffStatsRefs contributors)) eqn:E.
  - apply existsb_exists in E. destruct E as (x & Hx & Heq).
    apply Nat.eqb_eq in Heq. subst x.
    apply needsDiffStatsRefs_In in Hx. destruct Hx as (co & Hco & Hn).
    rewrite Hco. simpl. rewrite Hn. reflexivity.
  - destruct (nth_error contributors j) as [co |] eqn:Hco; [| reflexivity].
    simpl. destruct (Background.needsDiffStats co) eqn:Hn; [| reflexivity].
    exfalso.
    assert (Hin : In j (Background.needsDiffStatsRefs contributors))
      by (apply needsDiffStatsRefs_In; exists co; split; assumption).
    assert (existsb (Nat.eqb j) (Background.needsDiffStatsRefs contributors) = true).
    { apply existsb_exists. exists j. split; [exact Hin | apply Nat.eqb_refl]. }
    congruence.
Qed.

Lemma backfill_map (api : Background.Api) (contributors : list Contributor) :
  Background.backfill api contributors = map (BackfillSpec.backfillOne api) contributors.
Proof.
  apply nth_error_ext. intros j. rewrite backfill_nth, nth_error_map. reflexivity.
Qed.

Lemma fillDiffStats_abandoned (api : Background.Api) (co : Contributor) :
  BackfillSpec.commitListFails api co -> Background.fillDiffStats api co = co.
Proof.
  unfold BackfillSpec.commitListFails, Background.fillDiffStats, Background.fillDiffStats_try.
  destruct (Background.listCommits api (login co)) as [| | | [commits |]]; try reflexivity.
  intros ->. reflexivity.
Qed.

(** Only [listCommits] at this record's login and [getCommit] are consulted. *)
Lemma fillDiffStats_ext (api api' : Background.Api) (co : Contributor) :
  Background.listCommits api (login co) = Background.listCommits api' (login co) ->
  (forall s, Background.getCommit api s = Background.getCommit api' s) ->
  Background.fillDiffStats api co = Background.fillDiffStats api' co.
Proof.
  intros Hl Hg. unfold Background.fillDiffStats, Background.fillDiffStats_try.
  rewrite <- Hl.
  destruct (Background.listCommits api (login co)) as [| | | [commits |]]; try reflexivity.
  destruct (List.length commits =? 0)%nat; [reflexivity |].
  replace (map (Background.fetchDetail api') (firstn 10 commits))
    with (map (Background.fetchDetail api) (firstn 10 commits)); [reflexivity |].
  apply map_ext. intros cm. unfold Background.fetchDetail. rewrite Hg. reflexivity.
Qed.

(** C8.  When the commit-list fetch of a qualifying contributor throws, is
    not ok, or yields no commits, [fillDiffStats] leaves the record as it
    was, as it does whenever its [try] block throws; the overall result is
    still a success carrying that record unchanged, every other record is the result of its own backfill, and
    that result does not depend on what the API answers for this
    contributor. *)
Theorem failed_backfill_is_local
    (api : Background.Api) (statsData : Background.Json Background.Stat)
    (listData : Background.Json Background.ListEntry)
    (contributors : list Contributor) (i : nat) (co : Contributor) :
  contributors = Map_values (Background.buildContributorMap statsData listData) ->
  nth_error contributors i = Some co ->
  BackfillSpec.qualifies co ->
  BackfillSpec.commitListFails api co ->
  Background.fillDiffStats api co = co /\
  (forall co', Background.fillDiffStats_try api co' = Background.Throw ->
               Background.fillDiffStats api co' = co') /\
  Background.fetchContributorStats api statsData listData
    = Background.StatusSuccess (Background.backfill api contributors) /\
  nth_error (Background.backfill api contributors) i = Some co /\
  (forall (j : nat) (other : Contributor),
      j <> i -> nth_error contributors j = Some other ->
      nth_error (Background.backfill api contributors) j
      = Some (BackfillSpec.backfillOne api other)) /\
  (forall (api' : Background.Api) (j : nat) (other : Contributor),
      j <> i -> nth_error contributors j = Some other ->
      Background.listCommits api' (login other) = Background.listCommits api (login other) ->
      (forall s, Background.getCommit api' s = Background.getCommit api s) ->
      nth_error (Background.backfill api' contributors) j
      = nth_error (Background.backfill api contributors) j).
Proof.
  intros Hcs Hi Hq Hfail.
  pose proof (fillDiffStats_abandoned api co Hfail) as Hsame.
  split; [exact Hsame |].
  split.
  { intros co' Hthrow. unfold Background.fillDiffStats. rewrite Hthrow. reflexivity. }
  split.
  { unfold Background.fetchContributorStats. rewrite <- Hcs.
    destruct (Map_size (Background.buildContributorMap statsData listData) =? 0)%nat eqn:E;
      [| reflexivity].
    apply Nat.eqb_eq in E. unfold Map_size in E.
    assert (Hlen : List.length contributors = 0%nat)
      by (rewrite Hcs; unfold Map_values; rewrite length_map; exact E).
    destruct contributors; [destruct i; discriminate | discriminate]. }
  split.
  { rewrite backfill_nth, Hi. simpl. unfold BackfillSpec.backfillOne.
    destruct (Background.needsDiffStats co); [rewrite Hsame |]; reflexivity. }
  split.
  { intros j other _ Hj. rewrite backfill_nth, Hj. reflexivity. }
  intros api' j other _ Hj Hl Hg.
  rewrite !backfill_nth, Hj. simpl. f_equal. unfold BackfillSpec.backfillOne.
  destruct (Background.needsDiffStats other); [| reflexivity].
  apply fillDiffStats_ext; assumption.
Qed.

Lemma getWeekStartTimestamp_isWeekStart (date : Z) :
  WeekSpec.isWeekStartOf date (Background.getWeekStartTimestamp date).
Proof.
  unfold WeekSpec.isWeekStartOf, Background.getWeekStartTimestamp, Background.msPerDay.
  set (day := (date / 86400000)%Z).
  rewrite Z.div_mul by lia.
  set (dow := ((day + 4) mod 7)%Z).
  replace (day * 86400000 - dow * 86400000)%Z with ((day - dow) * 86400 * 1000)%Z by lia.
  rewrite Z.div_mul by lia.
  assert (Hday : (86400000 * day <= date < 86400000 * day + 86400000)%Z).
  { unfold day. pose proof (Z.mul_div_le date 86400000).
    pose proof (Z.mul_succ_div_gt date 86400000). lia. }
  assert (Hdow : (0 <= dow < 7)%Z) by (unfold dow; apply Z.mod_pos_bound; lia).
  assert (Hq : (day + 4 = 7 * ((day + 4) / 7) + dow)%Z) by (unfold dow; apply Z.div_mod; lia).
  split.
  - exists ((day + 4) / 7 - 1)%Z. lia.
  - lia.
Qed.

(** Tuesday 2023-11-14 falls in the week of Sunday 2023-11-12; the epoch, a
    Thursday, in the week of Sunday 1969-12-28. *)
Example getWeekStartTimestamp_samples :
  Background.getWeekStartTimestamp 1700000000000 = 1699747200%Z /\
  Background.getWeekStartTimestamp 1699747200000 = 1699747200%Z /\
  Background.getWeekStartTimestamp 1699747199999 = 1699142400%Z /\
  Background.getWeekStartTimestamp 0 = (-345600)%Z.
Proof. repeat split; reflexivity. Qed.

(** *** The accumulation loop *)

Lemma sumOf_app (l1 l2 : list Z) :
  sumOf (l1 ++ l2) = (sumOf l1 + sumOf l2)%Z.
Proof. induction l1 as [| x l1 IH]; simpl; [reflexivity | rewrite IH; lia]. Qed.

Lemma samplesOf_app (k : Z) (l1 l2 : list (option Background.CommitDetail)) :
  WeekSpec.samplesOf k (l1 ++ l2) = WeekSpec.samplesOf k l1 ++ WeekSpec.samplesOf k l2.
Proof.
  induction l1 as [| x l1 IH]; simpl; [reflexivity |].
  destruct (WeekSpec.sample x) as [[k' ad] |]; [| exact IH].
  destruct (k' =? k)%Z; simpl; rewrite IH; reflexivity.
Qed.

Lemma addDetail_skip (m : Background.WeekMap) (detail : option Background.CommitDetail) :
  WeekSpec.sample detail = None -> Background.addDetail m detail = m.
Proof.
  unfold WeekSpec.sample, Background.addDetail.
  destruct detail as [[[st |] [date |]] |]; intros H; try reflexivity; discriminate.
Qed.

Lemma Zeqb_eq' : forall x y : Z, (x =? y)%Z = true <-> x = y.
Proof. exact Z.eqb_eq. Qed.

Lemma Map_get_addDetail (k : Z) (m : Background.WeekMap)
    (detail : option Background.CommitDetail) (k' ad de : Z) :
  WeekSpec.sample detail = Some (k', (ad, de)) ->
  Map_get Z.eqb k (Background.addDetail m detail)
  = if (k' =? k)%Z
    then match Map_get Z.eqb k' m with
         | Some wk => Some {| w := w wk; a := a wk + ad; d := d wk + de; c := c wk + 1 |}
         | None => Some {| w := k'; a := 0 + ad; d := 0 + de; c := 0 + 1 |}
         end
    else Map_get Z.eqb k m.
Proof.
  unfold WeekSpec.sample, Background.addDetail.
  destruct detail as [[[st |] [date |]] |]; intros H; try discriminate.
  injection H as <- <- <-.
  set (ws := Background.getWeekStartTimestamp date).
  unfold Map_has.
  destruct (Map_get Z.eqb ws m) as [wk |] eqn:E.
  - rewrite E.
    destruct (Z.eqb_spec ws k) as [<- | Hne].
    + apply Map_get_set_same, Zeqb_eq'.
    + apply Map_get_set_other; [apply Zeqb_eq' | exact Hne].
  - rewrite Map_get_set_same by apply Zeqb_eq'.
    destruct (Z.eqb_spec ws k) as [<- | Hne].
    + rewrite Map_get_set_same by apply Zeqb_eq'. reflexivity.
    + rewrite !Map_get_set_other by (try apply Zeqb_eq'; assumption). reflexivity.
Qed.

Lemma addDetail_NoDup (m : Background.WeekMap) (detail : option Background.CommitDetail) :
  NoDup (Map_keys m) -> NoDup (Map_keys (Background.addDetail m detail)).
Proof.
  intros H. unfold Background.addDetail.
  destruct detail as [[[st |] [date |]] |]; try exact H.
  set (ws := Background.getWeekStartTimestamp date).
  set (m1 := if Map_has Z.eqb ws m then m else Map_set Z.eqb ws _ m).
  assert (H1 : NoDup (Map_keys m1)).
  { unfold m1. destruct (Map_has Z.eqb ws m); [exact H |].
    apply Map_keys_NoDup_set; [apply Zeqb_eq' | exact H]. }
  destruct (Map_get Z.eqb ws m1); [| exact H1].
  apply Map_keys_NoDup_set; [apply Zeqb_eq' | exact H1].
Qed.

Lemma buildWeekMap_snoc (details : list (option Background.CommitDetail))
    (detail : option Background.CommitDetail) :
  Background.buildWeekMap (details ++ [detail])
  = Background.addDetail (Background.buildWeekMap details) detail.
Proof. unfold Background.buildWeekMap. rewrite fold_left_app. reflexivity. Qed.

Lemma buildWeekMap_get (k : Z) (details : list (option Background.CommitDetail)) :
  Map_get Z.eqb k (Background.buildWeekMap details) = WeekSpec.aggregate k details.
Proof.
  induction details as [| detail details IH] using rev_ind; [reflexivity |].
  rewrite buildWeekMap_snoc.
  unfold WeekSpec.aggregate in *. rewrite samplesOf_app. simpl WeekSpec.samplesOf.
  destruct (WeekSpec.sample detail) as [[k' [ad de]] |] eqn:Es.
  - rewrite (Map_get_addDetail k _ _ Es).
    destruct (Z.eqb_spec k' k) as [-> | Hne].
    + rewrite IH.
      destruct (WeekSpec.samplesOf k details) as [| p l]; [simpl; f_equal; f_equal; lia |].
      set (l0 := p :: l).
      replace (l0 ++ [(ad, de)]) with (p :: (l ++ [(ad, de)])) by reflexivity.
      fold l0. cbn [w a d c].
      replace (p :: (l ++ [(ad, de)])) with (l0 ++ [(ad, de)]) by reflexivity.
      rewrite !map_app, !sumOf_app, length_app. simpl. f_equal. f_equal; lia.
    + rewrite app_nil_r. exact IH.
  - rewrite addDetail_skip by assumption. rewrite app_nil_r. exact IH.
Qed.

Lemma buildWeekMap_NoDup (details : list (option Background.CommitDetail)) :
  NoDup (Map_keys (Background.buildWeekMap details)).
Proof.
  unfold Background.buildWeekMap.
  apply fold_left_preserves; [apply addDetail_NoDup | constructor].
Qed.

(** *** The merge loop *)

Lemma Map_get_In (K V : Type) (eqb : K -> K -> bool) (k : K) (v : V) (m : JsMap K V) :
  (forall x y, eqb x y = true <-> x = y) ->
  NoDup (Map_keys m) -> In (k, v) m -> Map_get eqb k m = Some v.
Proof.
  intros Heq. unfold Map_keys. induction m as [| [k' v'] m IH]; simpl; [tauto |].
  intros Hnd [Hhd | Htl].
  - injection Hhd as -> ->. rewrite (proj2 (Heq k k) eq_refl). reflexivity.
  - inversion Hnd as [| ? ? Hni Hnd']; subst.
    destruct (eqb k' k) eqn:E.
    + apply Heq in E. subst k'. exfalso. apply Hni.
      change k with (fst (k, v)). apply in_map. exact Htl.
    + apply IH; assumption.
Qed.

Lemma buildWeekMap_keyed (details : list (option Background.CommitDetail)) :
  keyed (Background.buildWeekMap details).
Proof.
  intros k b Hin.
  pose proof (@Map_get_In _ _ Z.eqb k b _ Zeqb_eq' (buildWeekMap_NoDup details) Hin) as Hget.
  rewrite buildWeekMap_get in Hget. unfold WeekSpec.aggregate in Hget.
  destruct (WeekSpec.samplesOf k details); [discriminate |].
  injection Hget as <-. reflexivity.
Qed.

Lemma Map_get_snoc (k k' : Z) (b : Week) (m : Background.WeekMap) :
  Map_get Z.eqb k (m ++ [(k', b)])
  = match Map_get Z.eqb k m with
    | Some x => Some x
    | None => if (k' =? k)%Z then Some b else None
    end.
Proof.
  induction m as [| [k0 v0] m IH]; simpl; [reflexivity |].
  destruct (k0 =? k)%Z; [reflexivity | exact IH].
Qed.

Lemma overwriteFirst_None (k : Z) (b : Week) (ws : list Week) :
  ~ In k (map w ws) -> Background.overwriteFirst k b ws = None.
Proof.
  induction ws as [| wk ws IH]; simpl; [reflexivity |].
  intros Hni. destruct (Z.eqb_spec (w wk) k) as [Heq | Hne]; [tauto |].
  rewrite IH by tauto. reflexivity.
Qed.

Lemma overwritten_snoc_other (m : Background.WeekMap) (k : Z) (b wk : Week) :
  w wk <> k ->
  WeekSpec.overwritten (m ++ [(k, b)]) wk = WeekSpec.overwritten m wk.
Proof.
  intros Hne. unfold WeekSpec.overwritten. rewrite Map_get_snoc.
  destruct (Map_get Z.eqb (w wk) m); [reflexivity |].
  destruct (Z.eqb_spec k (w wk)); [congruence | reflexivity].
Qed.

Lemma map_overwritten_snoc_other (m : Background.WeekMap) (k : Z) (b : Week) (ws : list Week) :
  ~ In k (map w ws) ->
  map (WeekSpec.overwritten (m ++ [(k, b)])) ws = map (WeekSpec.overwritten m) ws.
Proof.
  intros Hni. apply map_ext_in. intros wk Hin.
  apply overwritten_snoc_other. intros Heq. apply Hni. rewrite <- Heq. apply in_map, Hin.
Qed.

Lemma w_overwritten (m : Background.WeekMap) (wk : Week) :
  w (WeekSpec.overwritten m wk) = w wk.
Proof. unfold WeekSpec.overwritten. destruct (Map_get Z.eqb (w wk) m); reflexivity. Qed.

(** A new bucket whose key an existing bucket has overwrites that bucket. *)
Lemma overwriteFirst_hit (m : Background.WeekMap) (k : Z) (b : Week)
    (ws rest : list Week) :
  NoDup (map w ws) -> In k (map w ws) -> Map_get Z.eqb k m = None ->
  Background.overwriteFirst k b (map (WeekSpec.overwritten m) ws ++ rest)
  = Some (map (WeekSpec.overwritten (m ++ [(k, b)])) ws ++ rest).
Proof.
  intros Hnd Hin Hget. induction ws as [| wk ws IH]; [destruct Hin |].
  simpl map in *. inversion Hnd as [| ? ? Hni Hnd']; subst.
  simpl app. simpl Background.overwriteFirst. rewrite w_overwritten.
  destruct (Z.eqb_spec (w wk) k) as [Heq | Hne].
  - subst k. rewrite map_overwritten_snoc_other by assumption.
    f_equal. f_equal.
    unfold WeekSpec.overwritten at 2. rewrite Map_get_snoc, Hget, Z.eqb_refl.
    unfold WeekSpec.overwritten. rewrite Hget. reflexivity.
  - destruct Hin as [Heq | Hin]; [congruence |].
    rewrite IH by assumption. simpl. rewrite overwritten_snoc_other by assumption.
    reflexivity.
Qed.

Lemma appended_keys (ws : list Week) (m : Background.WeekMap) (k : Z) :
  keyed m -> In k (map w (WeekSpec.appended ws m)) -> In k (Map_keys m).
Proof.
  intros Hk Hin. apply in_map_iff in Hin. destruct Hin as (b & Hb & Hin).
  unfold WeekSpec.appended in Hin. apply filter_In in Hin. destruct Hin as [Hin _].
  unfold Map_values in Hin. apply in_map_iff in Hin. destruct Hin as ([k' b'] & Heq & Hin).
  simpl in Heq. subst b'. rewrite (Hk _ _ Hin) in Hb. subst k'.
  unfold Map_keys. change k with (fst (k, b)). apply in_map, Hin.
Qed.

Lemma appended_snoc (ws : list Week) (m : Background.WeekMap) (k : Z) (b : Week) :
  w b = k ->
  WeekSpec.appended ws (m ++ [(k, b)])
  = WeekSpec.appended ws m
    ++ (if existsb (fun wk => (w wk =? k)%Z) ws then [] else [b]).
Proof.
  intros Hb. unfold WeekSpec.appended, Map_values.
  rewrite map_app, filter_app. simpl. rewrite Hb.
  destruct (existsb (fun wk => (w wk =? k)%Z) ws); reflexivity.
Qed.

Lemma existsb_key (k : Z) (ws : list Week) :
  existsb (fun wk => (w wk =? k)%Z) ws = true <-> In k (map w ws).
Proof.
  rewrite existsb_exists, in_map_iff.
  split; intros (wk & H1 & H2).
  - exists wk. apply Z.eqb_eq in H2. tauto.
  - exists wk. rewrite Z.eqb_eq. tauto.
Qed.

Lemma mergeWeek_spec (ws : list Week) (m : Background.WeekMap) (k : Z) (b : Week) :
  NoDup (map w ws) -> keyed m -> Map_get Z.eqb k m = None -> w b = k ->
  Background.mergeWeek (map (WeekSpec.overwritten m) ws ++ WeekSpec.appended ws m) (k, b)
  = map (WeekSpec.overwritten (m ++ [(k, b)])) ws ++ WeekSpec.appended ws (m ++ [(k, b)]).
Proof.
  intros Hnd Hkeyed Hget Hb. unfold Background.mergeWeek.
  rewrite (@appended_snoc ws m k b Hb).
  destruct (existsb (fun wk => (w wk =? k)%Z) ws) eqn:E.
  - apply existsb_key in E.
    rewrite overwriteFirst_hit by assumption. rewrite app_nil_r. reflexivity.
  - assert (Hni : ~ In k (map w ws)).
    { intros H. apply existsb_key in H. congruence. }
    rewrite overwriteFirst_None.
    + rewrite map_overwritten_snoc_other by assumption. rewrite app_assoc. reflexivity.
    + rewrite map_app, in_app_iff. intros [H | H].
      * rewrite map_map in H. erewrite map_ext in H; [| apply w_overwritten]. contradiction.
      * apply (@appended_keys ws m k Hkeyed) in H.
        apply (@Map_get_None _ _ Z.eqb Zeqb_eq') in Hget. contradiction.
Qed.

Lemma fold_mergeWeek_spec (ws : list Week) (m : Background.WeekMap) :
  NoDup (map w ws) -> NoDup (Map_keys m) -> keyed m ->
  fold_left Background.mergeWeek m ws
  = map (WeekSpec.overwritten m) ws ++ WeekSpec.appended ws m.
Proof.
  intros Hnd. induction m as [| [k b] m IH] using rev_ind; intros Hm Hkeyed.
  - simpl. unfold WeekSpec.appended. simpl. rewrite app_nil_r.
    symmetry. erewrite map_ext; [apply map_id |]. reflexivity.
  - rewrite fold_left_app. simpl fold_left.
    unfold Map_keys in Hm. rewrite map_app in Hm. simpl in Hm.
    assert (Hm' : NoDup (Map_keys m)) by (apply NoDup_app_remove_r in Hm; exact Hm).
    assert (Hk' : keyed m) by (intros k0 b0 H0; apply Hkeyed, in_or_app; left; exact H0).
    assert (Hget : Map_get Z.eqb k m = None).
    { apply (@Map_get_None _ _ Z.eqb Zeqb_eq'). intros Hin.
      apply NoDup_remove_2 with (l' := []) in Hm. rewrite app_nil_r in Hm. contradiction. }
    assert (Hb : w b = k) by (apply Hkeyed, in_or_app; right; left; reflexivity).
    rewrite IH by assumption.
    apply mergeWeek_spec; assumption.
Qed.

Lemma mergeWeeks_spec (ws : list Week) (m : Background.WeekMap) :
  NoDup (map w ws) -> NoDup (Map_keys m) -> keyed m ->
  Background.mergeWeeks ws m = WeekSpec.mergedWeeks ws m.
Proof.
  intros Hnd Hm Hkeyed. unfold Background.mergeWeeks, WeekSpec.mergedWeeks.
  destruct ws as [| wk ws]; [reflexivity |].
  simpl Nat.eqb. cbv iota. apply fold_mergeWeek_spec; assumption.
Qed.


(** ** The store: what [processContributors] writes *)

Section StoreProofs.
Import Store StoreFacts.

Lemma sub_refl (h : Heap) : sub h h.
Proof. intros l o H. exact H. Qed.

Lemma sub_trans (h1 h2 h3 : Heap) : sub h1 h2 -> sub h2 h3 -> sub h1 h3.
Proof. intros H12 H23 l o H. apply H23, H12, H. Qed.

Lemma sub_app (h ext : Heap) : sub h (h ++ ext).
Proof.
  intros l o H. rewrite nth_error_app1; [exact H |].
  apply nth_error_Some. congruence.
Qed.

Lemma nth_error_snoc (h : Heap) (o : Obj) : nth_error (h ++ [o]) (List.length h) = Some o.
Proof. rewrite nth_error_app2 by lia. rewrite Nat.sub_diag. reflexivity. Qed.

Lemma length_setNth (A : Type) (i : nat) (x : A) (l : list A) :
  List.length (Background.setNth i x l) = List.length l.
Proof.
  revert i. induction l as [| y l IH]; intros i; [destruct i; reflexivity |].
  destruct i; simpl; [reflexivity | rewrite IH; reflexivity].
Qed.

Lemma nth_error_setNth_same (A : Type) (i : nat) (x : A) (l : list A) :
  (i < List.length l)%nat -> nth_error (Background.setNth i x l) i = Some x.
Proof.
  intros Hi. rewrite nth_error_setNth, Nat.eqb_refl.
  destruct (nth_error l i) eqn:E; [reflexivity |].
  apply nth_error_None in E. lia.
Qed.

Lemma nth_error_setNth_other (A : Type) (i j : nat) (x : A) (l : list A) :
  i <> j -> nth_error (Background.setNth i x l) j = nth_error l j.
Proof.
  intros Hne. rewrite nth_error_setNth.
  destruct (Nat.eqb_spec i j); [contradiction | reflexivity].
Qed.

(** *** Reads *)

Lemma reads_readArray (l : loc) : reads (readArray l) (holdsArray l).
Proof.
  intros h x h'. unfold readArray, holdsArray.
  destruct (nth_error h l) as [[items | | |] |]; split;
    try (intros H; discriminate H); try (intros [_ H]; discriminate H).
  - intros H. injection H as <- <-. split; reflexivity.
  - intros [-> H]. injection H as <-. reflexivity.
Qed.

Lemma reads_readWeek (l : loc) : reads (readWeek l) (fun h => holdsWeek h l).
Proof.
  intros h x h'. unfold readWeek, holdsWeek.
  destruct (nth_error h l) as [[| wk | |] |]; split;
    try (intros H; discriminate H); try (intros [_ H]; discriminate H).
  - intros H. injection H as <- <-. split; reflexivity.
  - intros [-> H]. injection H as <-. reflexivity.
Qed.

Lemma reads_readEntry (l : loc) : reads (readEntry l) (fun h => holdsEntry h l).
Proof.
  intros h x h'. unfold readEntry, holdsEntry.
  destruct (nth_error h l) as [[| | | e] |]; split;
    try (intros H; discriminate H); try (intros [_ H]; discriminate H).
  - intros H. injection H as <- <-. split; reflexivity.
  - intros [-> H]. injection H as <-. reflexivity.
Qed.

Lemma reads_readContributor (l : loc) :
  reads (readContributor l) (fun h co => nth_error h l = Some (OContributor co)).
Proof.
  intros h x h'. unfold readContributor.
  destruct (nth_error h l) as [[| | co |] |]; split;
    try (intros H; discriminate H); try (intros [_ H]; discriminate H).
  - intros H. injection H as <- <-. split; reflexivity.
  - intros [-> H]. injection H as <-. reflexivity.
Qed.

Lemma reads_ret (A : Type) (x : A) : reads (ret x) (fun _ y => y = x).
Proof.
  intros h y h'. unfold ret. split.
  - intros H. injection H as <- <-. split; reflexivity.
  - intros [-> ->]. reflexivity.
Qed.

Lemma reads_bind (A B : Type) (m : M A) (k : A -> M B)
    (R : Heap -> A -> Prop) (S : A -> Heap -> B -> Prop) :
  reads m R -> (forall x, reads (k x) (S x)) ->
  reads (bind m k) (fun h y => exists x, R h x /\ S x h y).
Proof.
  intros Hm Hk h y h'. unfold bind. split.
  - destruct (m h) as [[x h1] |] eqn:E; [| discriminate].
    apply Hm in E. destruct E as [-> HR].
    intros H. apply Hk in H. destruct H as [-> HS].
    split; [reflexivity | exists x; split; assumption].
  - intros [-> (x & HR & HS)].
    rewrite (proj2 (Hm h x h) (conj eq_refl HR)).
    apply Hk. split; [reflexivity | exact HS].
Qed.

Lemma reads_mapM (A B : Type) (f : A -> M B) (R : Heap -> A -> B -> Prop) (l : list A) :
  (forall x, reads (f x) (fun h => R h x)) ->
  reads (mapM f l) (fun h ys => Forall2 (R h) l ys).
Proof.
  intros Hf. induction l as [| x l IH]; intros h ys h'.
  - simpl. unfold ret. split.
    + intros H. injection H as <- <-. split; [reflexivity | constructor].
    + intros [-> H]. inversion H. reflexivity.
  - simpl. unfold bind at 1. split.
    + destruct (f x h) as [[y h1] |] eqn:E; [| discriminate].
      apply Hf in E. destruct E as [-> HR].
      unfold bind. destruct (mapM f l h) as [[ys' h2] |] eqn:E2; [| discriminate].
      apply IH in E2. destruct E2 as [-> HF].
      unfold ret. intros H. injection H as <- <-.
      split; [reflexivity | constructor; assumption].
    + intros [-> H]. inversion H as [| ? y ? ys' HR HF]; subst.
      rewrite (proj2 (Hf x h y h) (conj eq_refl HR)).
      unfold bind. rewrite (proj2 (IH h ys' h) (conj eq_refl HF)). reflexivity.
Qed.

Lemma reads_ext (A : Type) (m : M A) (R R' : Heap -> A -> Prop) :
  reads m R -> (forall h x, R h x <-> R' h x) -> reads m R'.
Proof.
  intros Hm HR h x h'. rewrite (Hm h x h'). rewrite HR. reflexivity.
Qed.

Lemma reads_readContributorValue (l : loc) :
  reads (readContributorValue l) (fun h => holdsContributor h l).
Proof.
  unfold readContributorValue.
  eapply reads_ext.
  { apply reads_bind; [apply reads_readContributor |]. intros co.
    apply reads_bind; [apply reads_readArray |]. intros refs.
    apply reads_bind; [apply reads_mapM; intros r; apply reads_readWeek |]. intros vals.
    apply reads_ret. }
  intros h [cv refs]. unfold holdsContributor. simpl. split.
  - intros (co & Hco & refs' & Hrefs & vals & Hvals & Heq).
    injection Heq as -> ->. exists co. simpl. auto.
  - intros (co & Hco & Hrefs & Hvals & Heq).
    exists co. split; [exact Hco |]. exists refs. split; [exact Hrefs |].
    exists (weeks cv). split; [exact Hvals |]. rewrite Heq at 1. reflexivity.
Qed.

Lemma reads_readContributors (contributors : loc) :
  reads (readContributors contributors) (holdsContributors contributors).
Proof.
  unfold readContributors.
  eapply reads_ext.
  { apply reads_bind; [apply reads_readArray |]. intros arr.
    apply reads_bind; [apply reads_mapM; intros l; apply reads_readContributorValue |].
    intros crs. apply reads_ret. }
  intros h cs. unfold holdsContributors. split.
  - intros (arr & Harr & crs & Hcrs & ->). exists arr, crs. auto.
  - intros (arr & crs & Harr & Hcrs & ->). exists arr. split; [exact Harr |].
    exists crs. split; [exact Hcrs | reflexivity].
Qed.

Lemma reads_readEntries (active : loc) :
  reads (readEntries active)
        (fun h es => exists items, holdsArray active h items /\ Forall2 (holdsEntry h) items es).
Proof.
  unfold readEntries.
  apply reads_bind; [apply reads_readArray |]. intros items.
  apply reads_mapM. intros l. apply reads_readEntry.
Qed.

(** *** What holds in a store holds in a larger one *)

Lemma holdsContributor_sub (h h' : Heap) (l : loc) (cr : Contributor * list loc) :
  sub h h' -> holdsContributor h l cr -> holdsContributor h' l cr.
Proof.
  intros Hsub (co & Hco & Hrefs & Hvals & Heq).
  exists co. split; [apply Hsub, Hco |]. split; [apply Hsub, Hrefs |].
  split; [| exact Heq].
  eapply Forall2_impl; [| exact Hvals]. intros r v H. apply Hsub, H.
Qed.

Lemma holdsContributors_sub (h h' : Heap) (contributors : loc) (cs : list Contributor) :
  sub h h' -> holdsContributors contributors h cs -> holdsContributors contributors h' cs.
Proof.
  intros Hsub (arr & crs & Harr & Hcrs & Heq).
  exists arr, crs. split; [apply Hsub, Harr |]. split; [| exact Heq].
  eapply Forall2_impl; [| exact Hcrs]. intros l cr. apply holdsContributor_sub, Hsub.
Qed.

(** *** The [map] stage allocates *)

Lemma processOne_run (cutoff : Q) (l : loc) (h : Heap) (cr : Contributor * list loc) :
  holdsContributor h l cr ->
  exists tmp,
    Store.processOne cutoff l h
    = Some (S (List.length h), h ++ [OArray tmp; OEntry (Popup.processOne cutoff (fst cr))]).
Proof.
  intros Hc. unfold Store.processOne, bind at 1.
  rewrite (proj2 (reads_readContributorValue l h cr h) (conj eq_refl Hc)).
  destruct cr as [cv refs]. simpl fst.
  eexists. unfold bind, alloc. rewrite length_app, <- app_assoc. simpl.
  rewrite Nat.add_1_r. reflexivity.
Qed.

Lemma mapM_processOne (cutoff : Q) (h0 : Heap) (arr : list loc)
    (crs : list (Contributor * list loc)) :
  Forall2 (holdsContributor h0) arr crs ->
  forall h, sub h0 h ->
  exists items ext,
    mapM (Store.processOne cutoff) arr h = Some (items, h ++ ext) /\
    Forall2 (holdsEntry (h ++ ext)) items
            (map (fun cr => Popup.processOne cutoff (fst cr)) crs) /\
    Forall (fun l => (List.length h <= l)%nat) items /\
    NoDup items.
Proof.
  induction 1 as [| l cr arr crs Hl Hrest IH]; intros h Hsub.
  - exists [], []. rewrite app_nil_r. simpl. unfold ret.
    repeat split; constructor.
  - destruct (@processOne_run cutoff l h cr) as [tmp Hrun];
      [eapply holdsContributor_sub; eassumption |].
    set (e0 := Popup.processOne cutoff (fst cr)) in *.
    set (h1 := h ++ [OArray tmp; OEntry e0]) in *.
    destruct (IH h1) as (items & ext & Hmap & Hents & Hge & Hnd).
    { eapply sub_trans; [exact Hsub | apply sub_app]. }
    assert (Hlen1 : List.length h1 = S (S (List.length h))).
    { unfold h1. rewrite length_app. simpl. lia. }
    exists (S (List.length h) :: items), ([OArray tmp; OEntry e0] ++ ext).
    rewrite app_assoc. fold h1.
    split.
    { simpl mapM. unfold bind at 1. rewrite Hrun. fold h1.
      unfold bind. rewrite Hmap. reflexivity. }
    split.
    { simpl map. constructor; [| exact Hents].
      unfold holdsEntry. apply sub_app. unfold h1.
      rewrite nth_error_app2 by lia.
      replace (S (List.length h) - List.length h)%nat with 1%nat by lia. reflexivity. }
    split.
    { constructor; [lia |]. eapply Forall_impl; [| exact Hge].
      intros x Hx. cbv beta in Hx. rewrite Hlen1 in Hx. lia. }
    constructor; [| exact Hnd].
    intros Hin. rewrite Forall_forall in Hge. apply Hge in Hin. rewrite Hlen1 in Hin. lia.
Qed.

(** *** Lists of (address, entry) pairs *)

Lemma Forall2_combine (A B : Type) (R : A -> B -> Prop) (l1 : list A) (l2 : list B) :
  Forall2 R l1 l2 -> Forall (fun p => R (fst p) (snd p)) (combine l1 l2).
Proof. induction 1; simpl; constructor; assumption. Qed.

Lemma Forall_pairs_Forall2 (A B : Type) (R : A -> B -> Prop) (ps : list (A * B)) :
  Forall (fun p => R (fst p) (snd p)) ps -> Forall2 R (map fst ps) (map snd ps).
Proof. induction 1; simpl; constructor; assumption. Qed.

Lemma combine_fst_snd (A B : Type) (ps : list (A * B)) :
  combine (map fst ps) (map snd ps) = ps.
Proof.
  induction ps as [| [x y] ps IH]; simpl; [reflexivity | rewrite IH; reflexivity].
Qed.

Lemma Forall_filter (A : Type) (P : A -> Prop) (p : A -> bool) (l : list A) :
  Forall P l -> Forall P (filter p l).
Proof.
  intros H. apply Forall_forall. intros x Hx. apply filter_In in Hx.
  rewrite Forall_forall in H. apply H, Hx.
Qed.

Lemma filter_combine_snd (A B : Type) (p : B -> bool) (l1 : list A) (l2 : list B) :
  List.length l1 = List.length l2 ->
  map snd (filter (fun q => p (snd q)) (combine l1 l2)) = filter p l2.
Proof.
  revert l2. induction l1 as [| x l1 IH]; intros [| y l2] Hlen; simpl in *;
    try reflexivity; try discriminate.
  destruct (p y); simpl; rewrite IH by lia; reflexivity.
Qed.

Lemma filter_combine_fst_incl (A B : Type) (p : A * B -> bool) (l1 : list A) (l2 : list B)
    (x : A) :
  In x (map fst (filter p (combine l1 l2))) -> In x l1.
Proof.
  intros H. apply in_map_iff in H. destruct H as ([x' y] & Hx & Hin). simpl in Hx. subst x'.
  apply filter_In in Hin. destruct Hin as [Hin _]. eapply in_combine_l, Hin.
Qed.

Lemma filter_combine_fst_NoDup (A B : Type) (p : A * B -> bool) (l1 : list A) (l2 : list B) :
  NoDup l1 -> NoDup (map fst (filter p (combine l1 l2))).
Proof.
  intros Hnd. revert l2. induction Hnd as [| x l1 Hni Hnd IH]; intros l2; [constructor |].
  destruct l2 as [| y l2]; [constructor |]. simpl.
  destruct (p (x, y)); [| apply IH].
  simpl. constructor; [| apply IH].
  intros Hin. apply Hni. eapply filter_combine_fst_incl, Hin.
Qed.

Lemma Array_sort_map (A B : Type) (f : A -> B) (gt0 : B -> B -> bool) (l : list A) :
  map f (Array_sort (fun x y => gt0 (f x) (f y)) l) = Array_sort gt0 (map f l).
Proof.
  assert (Hins : forall x l',
             map f (sortInsert (fun x y => gt0 (f x) (f y)) x l')
             = sortInsert gt0 (f x) (map f l')).
  { intros x l'. induction l' as [| y l' IH]; simpl; [reflexivity |].
    destruct (gt0 (f x) (f y)); simpl; [rewrite IH |]; reflexivity. }
  induction l as [| x l IH]; simpl; [reflexivity |].
  rewrite Hins, IH. reflexivity.
Qed.

(** *** The rank assignment writes to the entries only *)

Lemma assignRank_run (l : loc) (index : Z) (h : Heap) (e : Popup.Entry) :
  holdsEntry h l e ->
  assignRank l index h
  = Some (tt, Background.setNth l (OEntry (Popup.setRank e (index + 1)%Z)) h).
Proof.
  intros He. unfold assignRank, bind.
  rewrite (proj2 (reads_readEntry l h e h) (conj eq_refl He)).
  unfold writeObj. unfold holdsEntry in He. rewrite He. reflexivity.
Qed.

Lemma forEachM_assignRank (ps : list (loc * Popup.Entry)) :
  NoDup (map fst ps) ->
  forall (index : Z) (h : Heap),
  Forall (fun p => holdsEntry h (fst p) (snd p)) ps ->
  exists h',
    forEachM assignRank (map fst ps) index h = Some (tt, h') /\
    List.length h' = List.length h /\
    (forall l, ~ In l (map fst ps) -> nth_error h' l = nth_error h l) /\
    Forall2 (holdsEntry h') (map fst ps) (Popup.assignRanks index (map snd ps)).
Proof.
  induction ps as [| [l e] ps IH]; intros Hnd index h Hall.
  - exists h. simpl. unfold ret. repeat split. constructor.
  - simpl map in *. inversion Hnd as [| ? ? Hni Hnd']; subst.
    inversion Hall as [| ? ? He Hall']; subst. simpl in He.
    set (h1 := Background.setNth l (OEntry (Popup.setRank e (index + 1)%Z)) h).
    assert (Hl : (l < List.length h)%nat).
    { apply nth_error_Some. unfold holdsEntry in He. congruence. }
    destruct (IH Hnd' (index + 1)%Z h1) as (h' & Hrun & Hlen & Hframe & Hents).
    { apply Forall_forall. intros [l' e'] Hin. simpl.
      rewrite Forall_forall in Hall'. specialize (Hall' _ Hin). simpl in Hall'.
      unfold holdsEntry, h1. rewrite nth_error_setNth_other; [exact Hall' |].
      intros ->. apply Hni. change l' with (fst (l', e')). apply in_map, Hin. }
    exists h'. split.
    { simpl forEachM. unfold bind. rewrite (assignRank_run index He). fold h1. exact Hrun. }
    split; [rewrite Hlen; unfold h1; apply length_setNth |].
    split.
    { intros x Hx. rewrite Hframe by (intros Hin; apply Hx; right; exact Hin).
      unfold h1. apply nth_error_setNth_other. intros ->. apply Hx. left. reflexivity. }
    simpl Popup.assignRanks. constructor; [| exact Hents].
    unfold holdsEntry. rewrite Hframe by exact Hni.
    unfold h1. apply nth_error_setNth_same. exact Hl.
Qed.

Lemma holdsEntry_sub (h h' : Heap) (items : list loc) (es : list Popup.Entry) :
  sub h h' -> Forall2 (holdsEntry h) items es -> Forall2 (holdsEntry h') items es.
Proof.
  intros Hsub H. eapply Forall2_impl; [| exact H]. intros l e He. apply Hsub, He.
Qed.

Lemma Forall2_In_left (A B : Type) (R : A -> B -> Prop) (l1 : list A) (l2 : list B) (x : A) :
  Forall2 R l1 l2 -> In x l1 -> exists y, In y l2 /\ R x y.
Proof.
  induction 1 as [| x' y' l1 l2 HR _ IH]; intros Hin; [destruct Hin |].
  destruct Hin as [-> | Hin].
  - exists y'. split; [left; reflexivity | exact HR].
  - destruct (IH Hin) as (y & Hy & HRy). exists y. split; [right; exact Hy | exact HRy].
Qed.

Lemma processContributors_run (now : Z) (period : string) (contributors : loc)
    (h : Heap) (cs : list Contributor) :
  holdsContributors contributors h cs ->
  exists active h',
    Store.processContributors now contributors period h = Some (active, h') /\
    (forall l, (l < List.length h)%nat -> nth_error h' l = nth_error h l) /\
    (exists items,
        holdsArray active h' items /\
        Forall2 (holdsEntry h') items (Popup.processContributors now cs period)).
Proof.
  intros (arr & crs & Harr & Hcrs & Hcs).
  set (cutoff := Popup.cutoffTimestamp now period).
  (* map *)
  destruct (@mapM_processOne cutoff h arr crs Hcrs h (sub_refl h))
    as (items & ext & Hmap & Hents & Hge & Hnd).
  set (h1 := h ++ ext) in *.
  set (es := map (fun cr => Popup.processOne cutoff (fst cr)) crs) in *.
  assert (Hes : es = map (Popup.processOne cutoff) cs)
    by (unfold es; rewrite Hcs, map_map; reflexivity).
  set (h2 := h1 ++ [OArray items]).
  assert (Hents2 : Forall2 (holdsEntry h2) items es)
    by (eapply holdsEntry_sub; [apply sub_app | exact Hents]).
  (* filter *)
  set (pairs := filter (fun p => Popup.isActive (snd p)) (combine items es)).
  set (h3 := h2 ++ [OArray (map fst pairs)]).
  set (active := List.length h2).
  assert (Hpairs3 : Forall (fun p => holdsEntry h3 (fst p) (snd p)) pairs).
  { unfold pairs. apply Forall_filter. apply Forall2_combine.
    eapply holdsEntry_sub; [apply sub_app | exact Hents2]. }
  assert (Hlt : forall p, In p pairs -> (List.length h <= fst p < active)%nat).
  { intros p Hp. split.
    - rewrite Forall_forall in Hge. apply Hge.
      eapply filter_combine_fst_incl. apply in_map. exact Hp.
    - assert (Hin : In (fst p) items)
        by (eapply filter_combine_fst_incl; apply in_map; exact Hp).
      destruct (@Forall2_In_left _ _ _ _ _ _ Hents Hin) as (e & _ & He).
      assert (fst p < List.length h1)%nat
        by (apply nth_error_Some; unfold holdsEntry in He; congruence).
      unfold active, h2. rewrite length_app. simpl. lia. }
  (* sort *)
  set (sorted := Array_sort (fun p q => Popup.byScoreGt0 (snd p) (snd q)) pairs).
  assert (Hperm : Permutation sorted pairs) by apply Array_sort_perm.
  set (h4 := Background.setNth active (OArray (map fst sorted)) h3).
  assert (Hactive3 : (active < List.length h3)%nat)
    by (unfold h3, active; rewrite length_app; simpl; lia).
  assert (Hsorted4 : Forall (fun p => holdsEntry h4 (fst p) (snd p)) sorted).
  { apply Forall_forall. intros p Hp.
    assert (Hp' : In p pairs) by (eapply Permutation_in; eassumption).
    rewrite Forall_forall in Hpairs3. specialize (Hpairs3 _ Hp').
    unfold holdsEntry, h4. rewrite nth_error_setNth_other; [exact Hpairs3 |].
    specialize (Hlt _ Hp'). lia. }
  assert (Hnd' : NoDup (map fst sorted)).
  { eapply Permutation_NoDup.
    - apply Permutation_map, Permutation_sym, Hperm.
    - unfold pairs. apply filter_combine_fst_NoDup, Hnd. }
  (* forEach *)
  destruct (@forEachM_assignRank sorted Hnd' 0%Z h4 Hsorted4)
    as (h5 & Hrun & Hlen5 & Hframe & Hranked).
  assert (Hnotin : forall l, (l < List.length h)%nat \/ l = active -> ~ In l (map fst sorted)).
  { intros l Hl Hin. apply in_map_iff in Hin. destruct Hin as (p & <- & Hp).
    assert (Hp' : In p pairs) by (eapply Permutation_in; eassumption).
    specialize (Hlt _ Hp'). lia. }
  exists active, h5.
  split.
  { unfold Store.processContributors. fold cutoff.
    unfold bind at 1. rewrite (proj2 (reads_readArray contributors h arr h) (conj eq_refl Harr)).
    unfold bind at 1. rewrite Hmap. fold h1.
    unfold bind at 1. unfold alloc at 1. fold h2.
    unfold bind at 1.
    rewrite (proj2 (@reads_mapM _ _ readEntry holdsEntry items reads_readEntry h2 es h2)
               (conj eq_refl Hents2)).
    fold pairs.
    unfold bind at 1. unfold alloc at 1. fold h3. fold active.
    unfold bind at 1.
    rewrite (proj2 (reads_readArray active h3 (map fst pairs) h3)
               (conj eq_refl (nth_error_snoc h2 _))).
    unfold bind at 1.
    rewrite (proj2 (@reads_mapM _ _ readEntry holdsEntry (map fst pairs) reads_readEntry
                      h3 (map snd pairs) h3)
               (conj eq_refl (@Forall_pairs_Forall2 _ _ _ _ Hpairs3))).
    rewrite combine_fst_snd. fold sorted.
    unfold bind at 1. unfold writeObj at 1.
    destruct (nth_error h3 active) eqn:E; [| apply nth_error_None in E; lia].
    fold h4.
    unfold bind at 1.
    rewrite (proj2 (reads_readArray active h4 (map fst sorted) h4)
               (conj eq_refl (@nth_error_setNth_same _ _ _ _ Hactive3))).
    unfold bind at 1. rewrite Hrun. reflexivity. }
  split.
  { intros l Hl. rewrite Hframe by (apply Hnotin; left; exact Hl).
    unfold h4. rewrite nth_error_setNth_other
      by (unfold active, h2, h1; rewrite !length_app; simpl; lia).
    unfold h3, h2, h1. rewrite !nth_error_app1; try reflexivity;
      rewrite ?length_app; simpl; lia. }
  exists (map fst sorted). split.
  { unfold holdsArray. rewrite Hframe by (apply Hnotin; right; reflexivity).
    apply nth_error_setNth_same, Hactive3. }
  replace (Popup.processContributors now cs period)
    with (Popup.assignRanks 0 (map snd sorted)); [exact Hranked |].
  unfold Popup.processContributors, Popup.sortAndRank. fold cutoff. f_equal.
  unfold sorted. rewrite (Array_sort_map (@snd loc Popup.Entry) Popup.byScoreGt0 pairs).
  f_equal. unfold pairs. rewrite filter_combine_snd; [rewrite Hes; reflexivity |].
  eapply Forall2_length, Hents.
Qed.

(** C9.  [processContributors] returns, and every object that was in the
    store before the call is the same after it: the input array, the
    contributor records, their week arrays and buckets.  Reading the
    contributors again yields the same records, and the entries at the
    returned address are those of the pure [Popup.processContributors]. *)
Theorem processContributors_leaves_input_unchanged
    (now : Z) (period : string) (contributors : loc) (h : Heap) (cs : list Contributor) :
  Store.readContributors contributors h = Some (cs, h) ->
  exists active h',
    Store.processContributors now contributors period h = Some (active, h') /\
    (forall l, (l < List.length h)%nat -> nth_error h' l = nth_error h l) /\
    Store.readContributors contributors h' = Some (cs, h') /\
    Store.readEntries active h' = Some (Popup.processContributors now cs period, h').
Proof.
  intros Hread. apply reads_readContributors in Hread. destruct Hread as [_ Hholds].
  destruct (@processContributors_run now period contributors h cs Hholds)
    as (active & h' & Hrun & Hframe & items & Hitems & Hents).
  exists active, h'. split; [exact Hrun |]. split; [exact Hframe |].
  split.
  - apply reads_readContributors. split; [reflexivity |].
    eapply holdsContributors_sub; [| exact Hholds].
    intros l o Hl. rewrite Hframe; [exact Hl |].
    apply nth_error_Some. congruence.
  - apply reads_readEntries. split; [reflexivity |].
    exists items. split; assumption.
Qed.

End StoreProofs.

(** ** The theorems at concrete inputs *)

(** With period ['week'] only the bucket of one day ago counts. *)
Lemma period_aggregation_witness :
  PeriodSpec.countersNonneg Sample.alice /\
  PeriodSpec.hasActivity
    (PeriodSpec.periodTotals (Popup.cutoffTimestamp Sample.now "week") Sample.alice) = true /\
  Permutation
    (map PeriodSpec.totalsOfEntry
       (Popup.processContributors Sample.now [Sample.alice; Sample.bob] "week"))
    [ {| PeriodSpec.t_login := "Alice"; PeriodSpec.t_commits := 1;
         PeriodSpec.t_additions := 7; PeriodSpec.t_deletions := 3 |} ].
Proof.
  assert (Hnn : PeriodSpec.countersNonneg Sample.alice).
  { unfold PeriodSpec.countersNonneg, PeriodSpec.weekNonneg. simpl.
    repeat constructor; simpl; lia. }
  destruct (period_aggregation Sample.now [Sample.alice; Sample.bob] "week")
    as (_ & _ & _ & Hperm & _ & Hact).
  split; [exact Hnn |].
  split; [rewrite Hact; [reflexivity | left; reflexivity | exact Hnn] |].
  exact Hperm.
Defined.


(** Bob qualifies, the network is down: the fetch result is a success and
    Bob's record is as the merge built it. *)
Lemma failed_backfill_is_local_witness :
  [Sample.bob] = Map_values (Background.buildContributorMap Background.JOther Sample.listData) /\
  nth_error [Sample.bob] 0 = Some Sample.bob /\
  BackfillSpec.qualifies Sample.bob /\
  BackfillSpec.commitListFails Sample.offline Sample.bob /\
  Background.fetchContributorStats Sample.offline Background.JOther Sample.listData
  = Background.StatusSuccess [Sample.bob].
Proof.
  assert (H1 : [Sample.bob]
               = Map_values (Background.buildContributorMap Background.JOther Sample.listData))
    by reflexivity.
  assert (H2 : nth_error [Sample.bob] 0 = Some Sample.bob) by reflexivity.
  assert (H3 : BackfillSpec.qualifies Sample.bob).
  { unfold BackfillSpec.qualifies. vm_compute. repeat split; reflexivity. }
  assert (H4 : BackfillSpec.commitListFails Sample.offline Sample.bob) by exact I.
  destruct (@failed_backfill_is_local Sample.offline Background.JOther Sample.listData
              [Sample.bob] 0%nat Sample.bob H1 H2 H3 H4) as (_ & _ & Hres & _).
  split; [exact H1 |]. split; [exact H2 |]. split; [exact H3 |]. split; [exact H4 |].
  rewrite Hres. reflexivity.
Defined.

Section StoreWitness.
Import Store.

(** A call on a four-object store. *)
Lemma processContributors_leaves_input_unchanged_witness :
  readContributors 0%nat Sample.heap = Some ([Sample.aliceStored], Sample.heap) /\
  exists active h',
    Store.processContributors Sample.now 0%nat "all" Sample.heap = Some (active, h') /\
    (forall l, (l < 4)%nat -> nth_error h' l = nth_error Sample.heap l) /\
    readContributors 0%nat h' = Some ([Sample.aliceStored], h') /\
    readEntries active h'
    = Some (Popup.processContributors Sample.now [Sample.aliceStored] "all", h').
Proof.
  assert (H : readContributors 0%nat Sample.heap = Some ([Sample.aliceStored], Sample.heap))
    by reflexivity.
  split; [exact H |].
  exact (@processContributors_leaves_input_unchanged Sample.now "all" 0%nat Sample.heap
           [Sample.aliceStored] H).
Defined.
End StoreWitness.

(** * Further properties *)

(** ** More on the score *)

Section ScoringMore.
Import Scoring.
Local Open Scope R_scope.

(** *** Where the bonus peaks and where it vanishes *)

Lemma balanceBonusOf_max_iff (avg : R) :
  balanceBonusOf SCORING_CONFIG avg = 10 <-> avg = 50.
Proof.
  destruct (Rle_dec avg 0) as [H0 | H0].
  { rewrite balanceBonusOf_outside by lra. lra. }
  destruct (Rlt_dec 100 avg) as [H1 | H1].
  { rewrite balanceBonusOf_outside by lra. lra. }
  destruct (Rle_dec avg 50) as [H2 | H2].
  - rewrite balanceBonusOf_low by lra. lra.
  - rewrite balanceBonusOf_high by lra. lra.
Qed.

Lemma balanceBonusOf_zero_iff (avg : R) :
  balanceBonusOf SCORING_CONFIG avg = 0 <-> avg <= 0 \/ 100 <= avg.
Proof.
  destruct (Rle_dec avg 0) as [H0 | H0].
  { rewrite balanceBonusOf_outside by lra. split; [left; exact H0 | reflexivity]. }
  destruct (Rlt_dec 100 avg) as [H1 | H1].
  { rewrite balanceBonusOf_outside by lra. split; [right; lra | reflexivity]. }
  destruct (Rle_dec avg 50) as [H2 | H2].
  - rewrite balanceBonusOf_low by lra. lra.
  - rewrite balanceBonusOf_high by lra. lra.
Qed.

Lemma IZR_div_eq (t c k : Z) :
  (0 < c)%Z -> IZR t / IZR c = IZR k <-> t = (k * c)%Z.
Proof.
  intros Hc. assert (Hc' : 0 < IZR c) by (apply IZR_lt; exact Hc).
  split.
  - intros H. apply eq_IZR. rewrite mult_IZR. rewrite <- H. field. lra.
  - intros ->. rewrite mult_IZR. field. lra.
Qed.

Lemma IZR_div_le (t c k : Z) :
  (0 < c)%Z -> IZR k <= IZR t / IZR c <-> (k * c <= t)%Z.
Proof.
  intros Hc. assert (Hc' : 0 < IZR c) by (apply IZR_lt; exact Hc).
  assert (Hi : 0 < / IZR c) by (apply Rinv_0_lt_compat; exact Hc').
  split.
  - intros H. apply le_IZR. rewrite mult_IZR.
    apply Rmult_le_compat_r with (r := IZR c) in H; [| lra].
    unfold Rdiv in H. rewrite Rmult_assoc, Rinv_l in H by lra. lra.
  - intros H. apply IZR_le in H. rewrite mult_IZR in H.
    apply Rmult_le_reg_r with (IZR c); [exact Hc' |].
    unfold Rdiv. rewrite Rmult_assoc, Rinv_l by lra. lra.
Qed.

(** X1.  The balance bonus reaches its cap of 10 exactly when the lines per
    commit equal the baseline, and it is 0 exactly when there is no commit,
    no line, or at least twice the baseline of lines per commit. *)
Theorem balanceBonus_peak_and_zero (commits additions deletions : Z) :
  (0 <= commits)%Z -> (0 <= additions)%Z -> (0 <= deletions)%Z ->
  (balanceBonus commits additions deletions = 10
   <-> (0 < commits /\ additions + deletions = 50 * commits)%Z) /\
  (balanceBonus commits additions deletions = 0
   <-> (commits = 0 \/ additions + deletions = 0 \/ 100 * commits <= additions + deletions)%Z).
Proof.
  intros Hc Ha Hd. unfold balanceBonus.
  destruct (Z.eq_dec commits 0) as [-> | Hne].
  - rewrite avgLinesPerCommit_zero.
    rewrite balanceBonusOf_max_iff, balanceBonusOf_zero_iff.
    split; split; intros H; try lra; try lia.
  - assert (Hpos : (0 < commits)%Z) by lia.
    rewrite avgLinesPerCommit_pos by exact Hpos.
    rewrite balanceBonusOf_max_iff, balanceBonusOf_zero_iff.
    split.
    + rewrite (IZR_div_eq (additions + deletions) 50 Hpos). split; [intros H | intros [_ H]]; lia.
    + rewrite (IZR_div_le (additions + deletions) 100 Hpos).
      assert (Hc' : 0 < IZR commits) by (apply IZR_lt; exact Hpos).
      assert (Hi : 0 < / IZR commits) by (apply Rinv_0_lt_compat; exact Hc').
      assert (Ht : 0 <= IZR (additions + deletions)) by (apply IZR_le; lia).
      split.
      * intros [H | H]; [| right; right; lia].
        right. left.
        assert (IZR (additions + deletions) <= 0).
        { apply Rmult_le_compat_r with (r := IZR commits) in H; [| lra].
          unfold Rdiv in H. rewrite Rmult_assoc, Rinv_l in H by lra. lra. }
        apply eq_IZR. lra.
      * intros [H | [H | H]]; [lia | | right; lia].
        left. rewrite H. unfold Rdiv. lra.
Qed.

Lemma balanceBonus_peak_and_zero_witness :
  (0 <= 3)%Z /\ (0 <= 100)%Z /\ (0 <= 50)%Z /\
  balanceBonus 3 100 50 = 10 /\ balanceBonus 3 400 50 = 0.
Proof.
  assert (Hc : (0 <= 3)%Z) by lia.
  assert (Ha : (0 <= 100)%Z) by lia.
  assert (Ha' : (0 <= 400)%Z) by lia.
  assert (Hd : (0 <= 50)%Z) by lia.
  split; [exact Hc |]. split; [exact Ha |]. split; [exact Hd |].
  split.
  - apply (balanceBonus_peak_and_zero Hc Ha Hd). lia.
  - apply (balanceBonus_peak_and_zero Hc Ha' Hd). lia.
Defined.

(** *** Whoever is active has a positive score *)

Lemma log10_2_lower : 3 / 10 < log10 2.
Proof.
  assert (H : ln (10 ^ 3) < ln (2 ^ 10)) by (apply ln_increasing; lra).
  rewrite !ln_pow in H by lra.
  rewrite !INR_IZR_INZ in H. simpl in H.
  pose proof ln10_pos as Hp. unfold log10.
  apply Rmult_lt_reg_r with (ln 10); [exact Hp |].
  replace (ln 2 / ln 10 * ln 10) with (ln 2) by (field; lra). lra.
Qed.

Lemma log10_succ_lower (n : Z) : (0 < n)%Z -> 3 / 10 < log10 (IZR n + 1).
Proof.
  intros Hn. apply Rlt_le_trans with (log10 2); [exact log10_2_lower |].
  apply log10_mono; [lra |].
  assert (1 <= IZR n) by (apply IZR_le; lia). lra.
Qed.

(** X2.  With non-negative counters of which one is positive, the score is at
    least 0.8. *)
Theorem active_score_positive (commits additions deletions : Z) :
  (0 <= commits)%Z -> (0 <= additions)%Z -> (0 <= deletions)%Z ->
  (0 < commits \/ 0 < additions \/ 0 < deletions)%Z ->
  8 / 10 <= calculateScore commits additions deletions.
Proof.
  intros Hc Ha Hd Hact.
  assert (Hraw : 75 / 100 < rawScore commits additions deletions).
  { unfold rawScore.
    pose proof (balanceBonusOf_range (avgLinesPerCommit commits additions deletions)) as [Hb _].
    fold (balanceBonus commits additions deletions) in Hb.
    unfold weightedScore. cbn [commitWeight additionsWeight deletionsWeight SCORING_CONFIG].
    assert (Hlc : 0 <= log10 (IZR commits + 1))
      by (apply log10_nonneg; apply IZR_le in Hc; lra).
    assert (Hla : 0 <= log10 (IZR additions + 1))
      by (apply log10_nonneg; apply IZR_le in Ha; lra).
    assert (Hld : 0 <= log10 (IZR deletions + 1))
      by (apply log10_nonneg; apply IZR_le in Hd; lra).
    destruct Hact as [H | [H | H]]; apply log10_succ_lower in H; lra. }
  pose proof (Math_round_bounds (rawScore commits additions deletions * 10)) as [Hlo _].
  assert (H8 : (8 <= Math_round (rawScore commits additions deletions * 10))%Z).
  { apply Z.lt_pred_le. apply lt_IZR. simpl. lra. }
  apply IZR_le in H8. unfold calculateScore. lra.
Qed.

Lemma active_score_positive_witness :
  (0 <= 0)%Z /\ (0 <= 0)%Z /\ (0 <= 1)%Z /\ (0 < 0 \/ 0 < 0 \/ 0 < 1)%Z /\
  8 / 10 <= calculateScore 0 0 1.
Proof.
  assert (H0 : (0 <= 0)%Z) by lia.
  assert (H1 : (0 <= 1)%Z) by lia.
  assert (Hact : (0 < 0 \/ 0 < 0 \/ 0 < 1)%Z) by lia.
  split; [exact H0 |]. split; [exact H0 |]. split; [exact H1 |]. split; [exact Hact |].
  exact (active_score_positive H0 H0 H1 Hact).
Defined.

End ScoringMore.

(** ** The title rules without division *)

Lemma Qltb_const_div (p : Z) (q : positive) (n t : Z) :
  (0 < t)%Z ->
  Popup.Qltb (p # q) (inject_Z n / inject_Z t) = (p * t <? n * Z.pos q)%Z.
Proof.
  intros Ht. destruct t as [| t | t]; try lia.
  unfold Popup.Qltb, Qle_bool, Qdiv, Qmult, Qinv, inject_Z. simpl.
  rewrite Z.ltb_antisym. f_equal. f_equal; lia.
Qed.

Lemma Qltb_div_const (p : Z) (q : positive) (n t : Z) :
  (0 < t)%Z ->
  Popup.Qltb (inject_Z n / inject_Z t) (p # q) = (n * Z.pos q <? p * t)%Z.
Proof.
  intros Ht. destruct t as [| t | t]; try lia.
  unfold Popup.Qltb, Qle_bool, Qdiv, Qmult, Qinv, inject_Z. simpl.
  rewrite Z.ltb_antisym. f_equal. f_equal; lia.
Qed.

Lemma title_rules_int (commits additions deletions : Z) :
  TitleSpec.rules commits additions deletions = TitleInt.rules commits additions deletions.
Proof.
  unfold TitleSpec.rules, TitleInt.rules, TitleSpec.ratio, TitleSpec.deleteRatio, TitleSpec.total.
  set (total := (additions + deletions)%Z).
  assert (Hcleaner :
    Popup.Qltb (6 # 10)
      (if (0 <? total)%Z then (inject_Z deletions / inject_Z total)%Q else 0%Q)
      && (100 <? total)%Z
    = (3 * total <? 5 * deletions)%Z && (100 <? total)%Z).
  { destruct (Z.ltb_spec 0 total) as [Ht | Ht].
    - rewrite Qltb_const_div by exact Ht.
      destruct (Z.ltb_spec (6 * total) (deletions * 10)),
               (Z.ltb_spec (3 * total) (5 * deletions)); try reflexivity; lia.
    - destruct (Z.ltb_spec 100 total); [lia |]. rewrite !andb_false_r. reflexivity. }
  assert (Htsunami :
    Popup.Qltb (inject_Z 500)
      (if (0 <? commits)%Z then (inject_Z total / inject_Z commits)%Q else 0%Q)
    = (0 <? commits)%Z && (500 * commits <? total)%Z).
  { destruct (Z.ltb_spec 0 commits) as [Hc | Hc]; [| reflexivity].
    unfold inject_Z at 1. rewrite Qltb_const_div by exact Hc.
    simpl andb. f_equal. lia. }
  assert (Hrapid :
    Popup.Qltb (if (0 <? commits)%Z then (inject_Z total / inject_Z commits)%Q else 0%Q)
      (inject_Z 20) && (50 <? commits)%Z
    = (total <? 20 * commits)%Z && (50 <? commits)%Z).
  { destruct (Z.ltb_spec 0 commits) as [Hc | Hc].
    - unfold inject_Z at 3. rewrite Qltb_div_const by exact Hc. f_equal. f_equal. lia.
    - destruct (Z.ltb_spec 50 commits); [lia |]. rewrite !andb_false_r. reflexivity. }
  rewrite Hcleaner, Htsunami, Hrapid. reflexivity.
Qed.

(** X3.  [assignTitle] is decided by integer comparisons: more than 60% of
    deletions is [5 * deletions > 3 * total], more than 500 lines per commit
    is [total > 500 * commits] with at least one commit, fewer than 20 lines
    per commit is [total < 20 * commits].  No commits, or no lines, never
    trips a quotient. *)
Theorem assignTitle_integer_rules (commits additions deletions : Z) :
  Popup.assignTitle commits additions deletions
  = TitleSpec.display (TitleSpec.firstMatch (TitleInt.rules commits additions deletions)).
Proof.
  rewrite assignTitle_classify. unfold TitleSpec.classify.
  rewrite title_rules_int. reflexivity.
Qed.

(** ** The periods are nested *)

Lemma sumBy_filter_le (f : Week -> Z) (p q : Week -> bool) (ws : list Week) :
  (forall wk, In wk ws -> (0 <= f wk)%Z) ->
  (forall wk, p wk = true -> q wk = true) ->
  (sumBy f (filter p ws) <= sumBy f (filter q ws))%Z.
Proof.
  intros Hnn Hpq. rewrite !sumBy_sumOf.
  induction ws as [| wk ws IH]; simpl; [lia |].
  assert (IH' : (sumOf (map f (filter p ws)) <= sumOf (map f (filter q ws)))%Z)
    by (apply IH; intros wk' Hin; apply Hnn; right; exact Hin).
  assert (H0 : (0 <= f wk)%Z) by (apply Hnn; left; reflexivity).
  destruct (p wk) eqn:Ep.
  - rewrite (Hpq wk Ep). simpl. lia.
  - destruct (q wk); simpl; lia.
Qed.

Lemma processOne_cutoff_mono (cutoff1 cutoff2 : Q) (co : Contributor) :
  PeriodSpec.countersNonneg co -> (cutoff2 <= cutoff1)%Q ->
  (Popup.commits (Popup.processOne cutoff1 co) <= Popup.commits (Popup.processOne cutoff2 co) /\
   Popup.additions (Popup.processOne cutoff1 co) <= Popup.additions (Popup.processOne cutoff2 co) /\
   Popup.deletions (Popup.processOne cutoff1 co) <= Popup.deletions (Popup.processOne cutoff2 co))%Z.
Proof.
  intros Hnn Hle. unfold Popup.processOne.
  cbn [Popup.commits Popup.additions Popup.deletions].
  unfold PeriodSpec.countersNonneg in Hnn. rewrite Forall_forall in Hnn.
  assert (Hpq : forall wk : Week,
             Qle_bool cutoff1 (inject_Z (w wk)) = true ->
             Qle_bool cutoff2 (inject_Z (w wk)) = true).
  { intros wk H. apply Qle_bool_iff in H. apply Qle_bool_iff.
    eapply Qle_trans; eassumption. }
  repeat split; apply sumBy_filter_le; try exact Hpq;
    intros wk Hin; apply Hnn in Hin; unfold PeriodSpec.weekNonneg in Hin; tauto.
Qed.

Lemma cutoff_month_le_week (now : Z) :
  (Popup.cutoffTimestamp now "month" <= Popup.cutoffTimestamp now "week")%Q.
Proof.
  unfold Popup.cutoffTimestamp, Popup.getPeriodCutoff, Popup.weekMs.
  simpl String.eqb. cbv iota.
  unfold Qle, Qdiv, Qmult, Qinv, inject_Z. simpl. lia.
Qed.

Lemma cutoff_default (now : Z) (period : string) :
  period <> "week"%string -> period <> "month"%string ->
  Popup.cutoffTimestamp now period = (inject_Z 0 / inject_Z 1000)%Q.
Proof.
  intros Hw Hm. unfold Popup.cutoffTimestamp, Popup.getPeriodCutoff.
  destruct (String.eqb_spec period "week"); [contradiction |].
  destruct (String.eqb_spec period "month"); [contradiction |]. reflexivity.
Qed.

Lemma cutoff_all_le_month (now : Z) (period : string) :
  period <> "week"%string -> period <> "month"%string ->
  (4 * Popup.weekMs <= now)%Z ->
  (Popup.cutoffTimestamp now period <= Popup.cutoffTimestamp now "month")%Q.
Proof.
  intros Hw Hm Hnow. rewrite (@cutoff_default now period Hw Hm).
  unfold Popup.cutoffTimestamp, Popup.getPeriodCutoff, Popup.weekMs in *.
  simpl String.eqb. cbv iota.
  unfold Qle, Qdiv, Qmult, Qinv, inject_Z. simpl. lia.
Qed.

(** X4.  With non-negative counters, a contributor's totals for ['week'] are at
    most those for ['month'], and once the clock is four weeks past the
    epoch those are at most the totals for any other period name (['all']);
    so whoever is active in a shorter window is active in the longer one. *)
Theorem periods_nested (now : Z) (period : string) (co : Contributor) :
  PeriodSpec.countersNonneg co ->
  period <> "week"%string -> period <> "month"%string ->
  (4 * Popup.weekMs <= now)%Z ->
  let week := Popup.processOne (Popup.cutoffTimestamp now "week") co in
  let month := Popup.processOne (Popup.cutoffTimestamp now "month") co in
  let all := Popup.processOne (Popup.cutoffTimestamp now period) co in
  (Popup.commits week <= Popup.commits month <= Popup.commits all /\
   Popup.additions week <= Popup.additions month <= Popup.additions all /\
   Popup.deletions week <= Popup.deletions month <= Popup.deletions all)%Z /\
  (Popup.isActive week = true -> Popup.isActive month = true) /\
  (Popup.isActive month = true -> Popup.isActive all = true).
Proof.
  intros Hnn Hw Hm Hnow week month all.
  destruct (@processOne_cutoff_mono _ _ co Hnn (cutoff_month_le_week now)) as (Hc1 & Ha1 & Hd1).
  destruct (@processOne_cutoff_mono _ _ co Hnn (@cutoff_all_le_month now period Hw Hm Hnow)) as (Hc2 & Ha2 & Hd2).
  fold week in Hc1, Ha1, Hd1. fold month in Hc1, Ha1, Hd1, Hc2, Ha2, Hd2.
  fold all in Hc2, Ha2, Hd2.
  split; [lia |].
  unfold Popup.isActive. rewrite !orb_true_iff, !Z.ltb_lt. split; intros H; lia.
Qed.

Lemma periods_nested_witness :
  PeriodSpec.countersNonneg Sample.alice /\
  (4 * Popup.weekMs <= Sample.now)%Z /\
  let week := Popup.processOne (Popup.cutoffTimestamp Sample.now "week") Sample.alice in
  let month := Popup.processOne (Popup.cutoffTimestamp Sample.now "month") Sample.alice in
  let all := Popup.processOne (Popup.cutoffTimestamp Sample.now "all") Sample.alice in
  (Popup.commits week <= Popup.commits month <= Popup.commits all)%Z /\
  (Popup.isActive week = true -> Popup.isActive month = true).
Proof.
  assert (Hnn : PeriodSpec.countersNonneg Sample.alice).
  { unfold PeriodSpec.countersNonneg, PeriodSpec.weekNonneg. simpl.
    repeat constructor; simpl; lia. }
  assert (Hnow : (4 * Popup.weekMs <= Sample.now)%Z) by (vm_compute; discriminate).
  assert (Hw : "all"%string <> "week"%string) by discriminate.
  assert (Hm : "all"%string <> "month"%string) by discriminate.
  split; [exact Hnn |]. split; [exact Hnow |].
  destruct (@periods_nested Sample.now "all" Sample.alice Hnn Hw Hm Hnow)
    as ((Hc & _ & _) & Hact & _).
  intros week month all. split; [exact Hc | exact Hact].
Defined.

(** ** More on the merge *)

Lemma addStat_no_key (m : Background.ContributorMap) (s : Background.Stat) :
  MergeSpec.statKey s = None -> Background.addStat m s = m.
Proof.
  unfold MergeSpec.statKey, Background.addStat.
  destruct (Background.author s) as [au |]; [| reflexivity].
  destruct (String.eqb (Background.a_login au) ""); [reflexivity | discriminate].
Qed.

Lemma addListEntry_no_key (m : Background.ContributorMap) (e : Background.ListEntry) :
  MergeSpec.listKey e = None -> Background.addListEntry m e = m.
Proof.
  unfold MergeSpec.listKey, Background.addListEntry.
  destruct (String.eqb (Background.l_login e) ""); [reflexivity | discriminate].
Qed.

Lemma hasKey_refl (k : string) : MergeSpec.hasKey k (Some k) = true.
Proof. simpl. apply String.eqb_refl. Qed.

Lemma find_hit (A : Type) (p : A -> bool) (l : list A) (x : A) :
  In x l -> p x = true -> find p l <> None.
Proof.
  intros Hin Hp Hnone. eapply find_none in Hnone; [| exact Hin]. congruence.
Qed.

Lemma buildContributorMap_nil_iff
    (statsData : Background.Json Background.Stat)
    (listData : Background.Json Background.ListEntry) :
  Background.buildContributorMap statsData listData = [] <->
  (forall s, In s (MergeSpec.items statsData) -> MergeSpec.statKey s = None) /\
  (forall e, In e (MergeSpec.items listData) -> MergeSpec.listKey e = None).
Proof.
  split.
  - intros Hnil.
    assert (Hget : forall k, MergeSpec.lookup k (MergeSpec.items statsData)
                               (MergeSpec.items listData) = None).
    { intros k.
      assert (H : Map_get String.eqb k (Background.buildContributorMap statsData listData)
                  = MergeSpec.lookup k (MergeSpec.items statsData) (MergeSpec.items listData)).
      { unfold Background.buildContributorMap, MergeSpec.lookup.
        destruct statsData as [stats |], listData as [entries |]; simpl MergeSpec.items.
        + rewrite Map_get_fold_addListEntry, Map_get_fold_addStat.
          destruct (find _ (rev stats)); reflexivity.
        + rewrite Map_get_fold_addStat. destruct (find _ (rev stats)); reflexivity.
        + rewrite Map_get_fold_addListEntry. reflexivity.
        + reflexivity. }
      rewrite <- H, Hnil. reflexivity. }
    split.
    + intros s Hin. destruct (MergeSpec.statKey s) as [k |] eqn:Ek; [| reflexivity].
      exfalso. specialize (Hget k). unfold MergeSpec.lookup in Hget.
      destruct (find (fun s0 => MergeSpec.hasKey k (MergeSpec.statKey s0))
                  (rev (MergeSpec.items statsData))) eqn:Ef; [discriminate |].
      revert Ef. apply find_hit with (x := s); [apply in_rev in Hin; exact Hin |].
      rewrite Ek. apply hasKey_refl.
    + intros e Hin. destruct (MergeSpec.listKey e) as [k |] eqn:Ek; [| reflexivity].
      exfalso. specialize (Hget k). unfold MergeSpec.lookup in Hget.
      destruct (find _ (rev (MergeSpec.items statsData))); [discriminate |].
      destruct (find (fun e0 => MergeSpec.hasKey k (MergeSpec.listKey e0))
                  (MergeSpec.items listData)) eqn:Ef; [discriminate |].
      revert Ef. apply find_hit with (x := e); [exact Hin |].
      rewrite Ek. apply hasKey_refl.
  - intros [HA HB]. unfold Background.buildContributorMap.
    assert (H1 : match statsData with
                 | Background.JArray stats => fold_left Background.addStat stats []
                 | Background.JOther => []
                 end = ([] : Background.ContributorMap)).
    { destruct statsData as [stats |]; [| reflexivity]. simpl in HA.
      induction stats as [| s stats IH]; [reflexivity |].
      simpl. rewrite addStat_no_key by (apply HA; left; reflexivity).
      apply IH. intros s' Hin. apply HA. right. exact Hin. }
    rewrite H1.
    destruct listData as [entries |]; [| reflexivity]. simpl in HB.
    induction entries as [| e entries IH]; [reflexivity |].
    simpl. rewrite addListEntry_no_key by (apply HB; left; reflexivity).
    apply IH. intros e' Hin. apply HB. right. exact Hin.
Qed.

Lemma backfill_length (api : Background.Api) (contributors : list Contributor) :
  List.length (Background.backfill api contributors) = List.length contributors.
Proof. rewrite backfill_map. apply length_map. Qed.

(** X5.  The result is ['empty'] exactly when no entry of either source has a
    login; in every other case it is a success whose data is not empty and
    has one record per key of the map. *)
Theorem fetchContributorStats_empty_iff
    (api : Background.Api)
    (statsData : Background.Json Background.Stat)
    (listData : Background.Json Background.ListEntry) :
  (Background.fetchContributorStats api statsData listData = Background.StatusEmpty <->
   (forall s, In s (MergeSpec.items statsData) -> MergeSpec.statKey s = None) /\
   (forall e, In e (MergeSpec.items listData) -> MergeSpec.listKey e = None)) /\
  (Background.fetchContributorStats api statsData listData <> Background.StatusEmpty ->
   exists data,
     Background.fetchContributorStats api statsData listData = Background.StatusSuccess data /\
     data <> [] /\
     List.length data = Map_size (Background.buildContributorMap statsData listData)).
Proof.
  unfold Background.fetchContributorStats.
  set (m := Background.buildContributorMap statsData listData).
  assert (Hm : m = [] <->
               (forall s, In s (MergeSpec.items statsData) -> MergeSpec.statKey s = None) /\
               (forall e, In e (MergeSpec.items listData) -> MergeSpec.listKey e = None))
    by apply buildContributorMap_nil_iff.
  destruct m as [| kv m'] eqn:Em.
  - simpl. split.
    + split; [intros _; apply Hm; reflexivity | reflexivity].
    + intros H. exfalso. apply H. reflexivity.
  - simpl Nat.eqb. cbv iota. split.
    + split; [discriminate | intros H; apply Hm in H; discriminate].
    + intros _. eexists. split; [reflexivity |]. split.
      * intros Hnil. apply (f_equal (@List.length Contributor)) in Hnil.
        rewrite backfill_length in Hnil. simpl in Hnil. discriminate.
      * rewrite backfill_length. unfold Map_values, Map_size.
        change (snd kv :: map snd m') with (map snd (kv :: m')). apply length_map.
Qed.

(** ** What the backfill leaves alone *)

Lemma fillDiffStats_setWeeks (api : Background.Api) (co : Contributor) :
  exists ws, Background.fillDiffStats api co = Background.setWeeks co ws.
Proof.
  unfold Background.fillDiffStats, Background.fillDiffStats_try.
  assert (Hid : co = Background.setWeeks co (weeks co)) by (destruct co; reflexivity).
  destruct (Background.listCommits api (login co)) as [| | | [commits |]];
    try (exists (weeks co); exact Hid).
  destruct (List.length commits =? 0)%nat; [exists (weeks co); exact Hid |].
  eexists. reflexivity.
Qed.

Lemma backfillOne_identity (api : Background.Api) (co : Contributor) :
  login (BackfillSpec.backfillOne api co) = login co /\
  avatar (BackfillSpec.backfillOne api co) = avatar co /\
  profileUrl (BackfillSpec.backfillOne api co) = profileUrl co /\
  totalCommits (BackfillSpec.backfillOne api co) = totalCommits co.
Proof.
  unfold BackfillSpec.backfillOne.
  destruct (Background.needsDiffStats co); [| repeat split].
  destruct (fillDiffStats_setWeeks api co) as [ws ->]. repeat split.
Qed.

(** X6.  The backfill keeps the number and the order of the records, never
    touches a login, avatar, profile URL or fallback total, and leaves every
    record that does not qualify exactly as it was. *)
Theorem backfill_keeps_identity (api : Background.Api) (contributors : list Contributor) :
  List.length (Background.backfill api contributors) = List.length contributors /\
  map login (Background.backfill api contributors) = map login contributors /\
  map avatar (Background.backfill api contributors) = map avatar contributors /\
  map profileUrl (Background.backfill api contributors) = map profileUrl contributors /\
  map totalCommits (Background.backfill api contributors) = map totalCommits contributors /\
  (forall i co,
      nth_error contributors i = Some co -> Background.needsDiffStats co = false ->
      nth_error (Background.backfill api contributors) i = Some co).
Proof.
  split; [apply backfill_length |].
  rewrite backfill_map, !map_map.
  repeat split; try (apply map_ext; intros co; apply backfillOne_identity).
  intros i co Hi Hn. rewrite nth_error_map, Hi. simpl.
  unfold BackfillSpec.backfillOne. rewrite Hn. reflexivity.
Qed.

(** ** Week keys *)

Lemma isWeekStartOf_unique (date s1 s2 : Z) :
  WeekSpec.isWeekStartOf date s1 -> WeekSpec.isWeekStartOf date s2 -> s1 = s2.
Proof.
  intros [[n1 ->] H1] [[n2 ->] H2]. lia.
Qed.

(** X7.  The week key does not decrease with the date, and every instant of the
    seven days that start at a week key has that key; so the key of a week
    start is itself. *)
Theorem getWeekStartTimestamp_buckets (date date' : Z) :
  (date <= date')%Z ->
  (Background.getWeekStartTimestamp date <= Background.getWeekStartTimestamp date')%Z /\
  ((date' < (Background.getWeekStartTimestamp date + 7 * 86400) * 1000)%Z ->
   Background.getWeekStartTimestamp date' = Background.getWeekStartTimestamp date) /\
  Background.getWeekStartTimestamp (Background.getWeekStartTimestamp date * 1000)
  = Background.getWeekStartTimestamp date.
Proof.
  intros Hle.
  pose proof (getWeekStartTimestamp_isWeekStart date) as H1.
  pose proof (getWeekStartTimestamp_isWeekStart date') as H2.
  pose proof (getWeekStartTimestamp_isWeekStart
                (Background.getWeekStartTimestamp date * 1000)) as H3.
  set (s := Background.getWeekStartTimestamp date) in *.
  set (s' := Background.getWeekStartTimestamp date') in *.
  split; [| split].
  - destruct H1 as [[n1 E1] B1], H2 as [[n2 E2] B2]. lia.
  - intros Hlt. apply (@isWeekStartOf_unique date'); [exact H2 |].
    destruct H1 as [E1 B1]. split; [exact E1 | lia].
  - apply (@isWeekStartOf_unique (s * 1000)); [exact H3 |].
    destruct H1 as [E1 B1]. split; [exact E1 | lia].
Qed.

Lemma getWeekStartTimestamp_buckets_witness :
  (1699747200000 <= 1700351999999)%Z /\
  Background.getWeekStartTimestamp 1700351999999
  = Background.getWeekStartTimestamp 1699747200000.
Proof.
  assert (H : (1699747200000 <= 1700351999999)%Z) by lia.
  split; [exact H |].
  destruct (getWeekStartTimestamp_buckets H) as (_ & Hsame & _).
  apply Hsame. reflexivity.
Defined.

(** ** The sample of a backfill *)

(** *** Distinct week keys are kept *)

Lemma map_w_values (m : Background.WeekMap) :
  keyed m -> map w (Map_values m) = Map_keys m.
Proof.
  intros Hk. unfold Map_values, Map_keys. rewrite map_map.
  apply map_ext_in. intros [k b] Hin. simpl. apply Hk, Hin.
Qed.

Lemma filtered_weeks_distinct (keep : Week -> bool) (ws : list Week)
    (Hnd : NoDup (map w ws)) :
  NoDup (map w (filter keep ws)).
Proof.
  induction ws as [| wk ws IH]; simpl; [constructor |].
  inversion Hnd as [| ? ? Hni Hnd']; subst.
  destruct (keep wk); [| apply IH, Hnd'].
  simpl. constructor; [| apply IH, Hnd'].
  intros Hin. apply Hni. apply in_map_iff in Hin. destruct Hin as (y & Hy & Hin).
  apply filter_In in Hin. rewrite <- Hy. apply in_map, Hin.
Qed.

Lemma mergedWeeks_NoDup (ws : list Week) (m : Background.WeekMap) :
  NoDup (map w ws) -> NoDup (Map_keys m) -> keyed m ->
  NoDup (map w (WeekSpec.mergedWeeks ws m)).
Proof.
  intros Hws Hm Hk. unfold WeekSpec.mergedWeeks.
  destruct ws as [| wk ws']; [rewrite map_w_values by exact Hk; exact Hm |].
  set (ws := wk :: ws') in *.
  rewrite map_app, map_map.
  rewrite (map_ext _ w (w_overwritten m)).
  apply NoDup_app.
  - exact Hws.
  - unfold WeekSpec.appended. apply filtered_weeks_distinct.
    rewrite map_w_values by exact Hk. exact Hm.
  - intros k Hin1 Hin2. apply in_map_iff in Hin2. destruct Hin2 as (b & Hb & Hin2).
    unfold WeekSpec.appended in Hin2. apply filter_In in Hin2. destruct Hin2 as [_ Hneg].
    apply negb_true_iff in Hneg. rewrite Hb in Hneg.
    apply existsb_key in Hin1. congruence.
Qed.

(** X8.  If the week buckets of a record have distinct week starts before
    [fillDiffStats], they have distinct week starts after it. *)
Theorem fillDiffStats_keeps_weeks_distinct (api : Background.Api) (co : Contributor) :
  NoDup (map w (weeks co)) ->
  NoDup (map w (weeks (Background.fillDiffStats api co))).
Proof.
  intros Hnd. unfold Background.fillDiffStats, Background.fillDiffStats_try.
  destruct (Background.listCommits api (login co)) as [| | | [commits |]]; try exact Hnd.
  destruct (List.length commits =? 0)%nat; [exact Hnd |].
  cbn [weeks Background.setWeeks].
  rewrite mergeWeeks_spec;
    [| exact Hnd | apply buildWeekMap_NoDup | apply buildWeekMap_keyed].
  apply mergedWeeks_NoDup;
    [exact Hnd | apply buildWeekMap_NoDup | apply buildWeekMap_keyed].
Qed.

Lemma fillDiffStats_keeps_weeks_distinct_witness :
  NoDup (map w (weeks Sample.alice)) /\
  NoDup (map w (weeks (Background.fillDiffStats Sample.api Sample.alice))).
Proof.
  assert (H : NoDup (map w (weeks Sample.alice))).
  { simpl. repeat constructor; simpl; intros H;
      repeat (destruct H as [H | H]; [discriminate H |]); exact H. }
  split; [exact H |]. exact (fillDiffStats_keeps_weeks_distinct Sample.api Sample.alice H).
Defined.

(** *** Bucketing keeps the totals *)

Lemma sumOf_values_set (f : Week -> Z) (k : Z) (v : Week) (m : Background.WeekMap) :
  sumOf (map f (Map_values (Map_set Z.eqb k v m)))
  = (sumOf (map f (Map_values m))
     - match Map_get Z.eqb k m with Some v0 => f v0 | None => 0 end
     + f v)%Z.
Proof.
  unfold Map_values. induction m as [| [k' v'] m IH]; simpl; [lia |].
  destruct (k' =? k)%Z; simpl; [lia | rewrite IH; lia].
Qed.

Lemma sumOf_values_addDetail (f : Week -> Z) (g : Z * Z -> Z)
    (m : Background.WeekMap) (detail : option Background.CommitDetail) :
  (forall wk ad, f {| w := w wk; a := a wk + fst ad; d := d wk + snd ad; c := c wk + 1 |}
                 = (f wk + g ad)%Z) ->
  (forall k, f {| w := k; a := 0; d := 0; c := 0 |} = 0%Z) ->
  sumOf (map f (Map_values (Background.addDetail m detail)))
  = (sumOf (map f (Map_values m))
     + match WeekSpec.sample detail with Some (_, ad) => g ad | None => 0 end)%Z.
Proof.
  intros Hf H0. unfold WeekSpec.sample, Background.addDetail.
  destruct detail as [[[st |] [date |]] |]; try lia.
  set (k := Background.getWeekStartTimestamp date).
  set (ad := (orZero (Background.additions st), orZero (Background.deletions st))).
  unfold Map_has.
  destruct (Map_get Z.eqb k m) as [wk |] eqn:E.
  - rewrite E. rewrite sumOf_values_set, E.
    change (orZero (Background.additions st)) with (fst ad).
    change (orZero (Background.deletions st)) with (snd ad).
    rewrite Hf. lia.
  - rewrite (@Map_get_set_same _ _ Z.eqb Zeqb_eq').
    rewrite !sumOf_values_set, E.
    rewrite (@Map_get_set_same _ _ Z.eqb Zeqb_eq').
    change (orZero (Background.additions st)) with (fst ad).
    change (orZero (Background.deletions st)) with (snd ad).
    rewrite (Hf {| w := k; a := 0; d := 0; c := 0 |} ad), H0. lia.
Qed.

Lemma sumOf_values_buildWeekMap (f : Week -> Z) (g : Z * Z -> Z)
    (details : list (option Background.CommitDetail)) :
  (forall wk ad, f {| w := w wk; a := a wk + fst ad; d := d wk + snd ad; c := c wk + 1 |}
                 = (f wk + g ad)%Z) ->
  (forall k, f {| w := k; a := 0; d := 0; c := 0 |} = 0%Z) ->
  sumOf (map f (Map_values (Background.buildWeekMap details)))
  = sumOf (map g (SampleSpec.usable details)).
Proof.
  intros Hf H0.
  assert (Happ : forall l1 l2, SampleSpec.usable (l1 ++ l2)
                               = SampleSpec.usable l1 ++ SampleSpec.usable l2).
  { intros l1 l2. induction l1 as [| x l1 IH]; simpl; [reflexivity |].
    destruct (WeekSpec.sample x) as [[k ad] |]; simpl; rewrite IH; reflexivity. }
  induction details as [| detail details IH] using rev_ind; [reflexivity |].
  rewrite buildWeekMap_snoc, (@sumOf_values_addDetail f g _ detail Hf H0), IH, Happ.
  rewrite map_app, sumOf_app. simpl.
  destruct (WeekSpec.sample detail) as [[k ad] |]; simpl; lia.
Qed.

Lemma usable_length (details : list (option Background.CommitDetail)) :
  (List.length (SampleSpec.usable details) <= List.length details)%nat.
Proof.
  induction details as [| x l IH]; simpl; [lia |].
  destruct (WeekSpec.sample x) as [[k ad] |]; simpl; lia.
Qed.

Lemma sumOf_const_one (A : Type) (l : list A) :
  sumOf (map (fun _ => 1%Z) l) = Z.of_nat (List.length l).
Proof.
  unfold sumOf. induction l as [| x l IH]; [reflexivity |].
  cbn [map fold_right List.length]. rewrite Nat2Z.inj_succ, IH. lia.
Qed.

(** X9.  For a record without weeks, a backfill that gets a commit list makes
    the commit counters sum to the number of details that count, at most
    ten, and the additions and deletions sum to theirs: spreading the
    sample over week buckets loses nothing. *)
Theorem fillDiffStats_totals (api : Background.Api) (co : Contributor)
    (commits : list Background.Commit) :
  Background.listCommits api (login co) = Background.Body (Background.JArray commits) ->
  commits <> [] ->
  weeks co = [] ->
  let details := map (Background.fetchDetail api) (firstn 10 commits) in
  let after := Background.fillDiffStats api co in
  sumBy c (weeks after) = Z.of_nat (List.length (SampleSpec.usable details)) /\
  (sumBy c (weeks after) <= 10)%Z /\
  sumBy a (weeks after) = sumOf (map fst (SampleSpec.usable details)) /\
  sumBy d (weeks after) = sumOf (map snd (SampleSpec.usable details)).
Proof.
  intros Hlist Hne Hweeks details after.
  assert (Hafter : weeks after = Map_values (Background.buildWeekMap details)).
  { unfold after, Background.fillDiffStats, Background.fillDiffStats_try. rewrite Hlist.
    destruct commits as [| cm commits']; [contradiction |].
    simpl Nat.eqb. cbv iota. cbn [weeks Background.setWeeks].
    rewrite Hweeks. reflexivity. }
  rewrite Hafter, !sumBy_sumOf.
  assert (Hc : sumOf (map c (Map_values (Background.buildWeekMap details)))
               = Z.of_nat (List.length (SampleSpec.usable details))).
  { rewrite (@sumOf_values_buildWeekMap c (fun _ => 1%Z)); [apply sumOf_const_one | |];
      reflexivity. }
  split; [exact Hc |]. split.
  - rewrite Hc. pose proof (usable_length details) as Hl.
    unfold details in Hl at 2. rewrite length_map, length_firstn in Hl. lia.
  - split; apply sumOf_values_buildWeekMap; reflexivity.
Qed.

Lemma fillDiffStats_totals_witness :
  Background.listCommits Sample.api (login Sample.bob)
    = Background.Body (Background.JArray Sample.commits) /\
  Sample.commits <> [] /\ weeks Sample.bob = [] /\
  sumBy c (weeks (Background.fillDiffStats Sample.api Sample.bob)) = 3%Z /\
  sumBy a (weeks (Background.fillDiffStats Sample.api Sample.bob)) = 15%Z /\
  sumBy d (weeks (Background.fillDiffStats Sample.api Sample.bob)) = 5%Z.
Proof.
  assert (H1 : Background.listCommits Sample.api (login Sample.bob)
               = Background.Body (Background.JArray Sample.commits)) by reflexivity.
  assert (H2 : Sample.commits <> []) by discriminate.
  assert (H3 : weeks Sample.bob = []) by reflexivity.
  destruct (@fillDiffStats_totals Sample.api Sample.bob Sample.commits H1 H2 H3)
    as (Hc & _ & Ha & Hd).
  split; [exact H1 |]. split; [exact H2 |]. split; [exact H3 |].
  split; [rewrite Hc; reflexivity |]. split; [rewrite Ha | rewrite Hd]; reflexivity.
Defined.

(** *** What the backfill looks at *)

Lemma buildWeekMap_no_sample (details : list (option Background.CommitDetail)) :
  (forall detail, In detail details -> WeekSpec.sample detail = None) ->
  Background.buildWeekMap details = [].
Proof.
  intros H. unfold Background.buildWeekMap.
  assert (Hfold : forall m : Background.WeekMap,
             fold_left Background.addDetail details m = m).
  { induction details as [| x l IH]; intros m; [reflexivity |].
    simpl. rewrite addDetail_skip by (apply H; left; reflexivity).
    apply IH. intros y Hy. apply H. right. exact Hy. }
  apply Hfold.
Qed.

Lemma mergeWeeks_nil (ws : list Week) : Background.mergeWeeks ws [] = ws.
Proof. unfold Background.mergeWeeks. destruct ws; reflexivity. Qed.

Lemma setWeeks_same (co : Contributor) : Background.setWeeks co (weeks co) = co.
Proof. destruct co; reflexivity. Qed.

(** X10.  Commits past the tenth are never looked at, and when none of the first
    ten yields a detail with a diff-stat and a date the record stays as it
    was. *)
Theorem fillDiffStats_first_ten (api api' : Background.Api) (co : Contributor)
    (commits commits' : list Background.Commit) :
  Background.listCommits api (login co) = Background.Body (Background.JArray commits) ->
  Background.listCommits api' (login co) = Background.Body (Background.JArray commits') ->
  (forall s, Background.getCommit api s = Background.getCommit api' s) ->
  firstn 10 commits = firstn 10 commits' ->
  Background.fillDiffStats api co = Background.fillDiffStats api' co /\
  ((forall cm, In cm (firstn 10 commits) ->
               WeekSpec.sample (Background.fetchDetail api cm) = None) ->
   Background.fillDiffStats api co = co).
Proof.
  intros Hl Hl' Hg Hten.
  assert (Hsame : map (Background.fetchDetail api') (firstn 10 commits')
                  = map (Background.fetchDetail api) (firstn 10 commits)).
  { rewrite <- Hten. apply map_ext. intros cm. unfold Background.fetchDetail.
    rewrite Hg. reflexivity. }
  assert (Hlen : (List.length commits' =? 0)%nat = (List.length commits =? 0)%nat).
  { destruct commits, commits'; try reflexivity; discriminate Hten. }
  unfold Background.fillDiffStats, Background.fillDiffStats_try.
  rewrite Hl, Hl', Hlen, Hsame.
  split; [reflexivity |].
  intros Hnone. destruct (List.length commits =? 0)%nat; [reflexivity |].
  rewrite buildWeekMap_no_sample.
  - rewrite mergeWeeks_nil. apply setWeeks_same.
  - intros detail Hin. apply in_map_iff in Hin. destruct Hin as (cm & <- & Hin).
    apply Hnone, Hin.
Qed.

Lemma fillDiffStats_first_ten_witness :
  let more := {| Background.listCommits := fun _ =>
                   Background.Body (Background.JArray
                     (Sample.commits ++ Sample.commits ++ Sample.commits ++ Sample.commits));
                 Background.getCommit := Background.getCommit Sample.api |} in
  let ten := {| Background.listCommits := fun _ =>
                  Background.Body (Background.JArray
                    (firstn 10 (Sample.commits ++ Sample.commits ++ Sample.commits
                                ++ Sample.commits)));
                Background.getCommit := Background.getCommit Sample.api |} in
  Background.fillDiffStats more Sample.bob = Background.fillDiffStats ten Sample.bob.
Proof.
  intros more ten.
  apply (@fillDiffStats_first_ten more ten Sample.bob
           (Sample.commits ++ Sample.commits ++ Sample.commits ++ Sample.commits)
           (firstn 10 (Sample.commits ++ Sample.commits ++ Sample.commits ++ Sample.commits))
           eq_refl eq_refl (fun s => eq_refl) eq_refl).
Defined.

(** ** The order of the merged list *)

Lemma existsb_eqb_In (k : string) (l : list string) :
  existsb (String.eqb k) l = true <-> In k l.
Proof.
  rewrite existsb_exists. split.
  - intros (x & Hx & Heq). apply String.eqb_eq in Heq. subst x. exact Hx.
  - intros H. exists k. split; [exact H | apply String.eqb_refl].
Qed.

Lemma Map_has_In (k : string) (m : Background.ContributorMap) :
  Map_has String.eqb k m = existsb (String.eqb k) (Map_keys m).
Proof.
  unfold Map_has.
  destruct (Map_get String.eqb k m) eqn:E.
  - symmetry. apply existsb_eqb_In.
    destruct (in_dec string_dec k (Map_keys m)) as [Hin | Hni]; [exact Hin |].
    apply (@Map_get_None _ _ String.eqb String.eqb_eq) in Hni. congruence.
  - symmetry. apply not_true_is_false. intros H. apply existsb_eqb_In in H.
    apply (@Map_get_None _ _ String.eqb String.eqb_eq) in E. contradiction.
Qed.

Lemma fold_addStat_order (stats : list Background.Stat) (m : Background.ContributorMap) :
  NoDup (Map_keys m ++ OrderSpec.statKeys stats) ->
  fold_left Background.addStat stats m
  = m ++ flat_map (fun s => match MergeSpec.statKey s with
                            | Some k => [(k, MergeSpec.statRecord s)]
                            | None => []
                            end) stats.
Proof.
  revert m. induction stats as [| s stats IH]; intros m Hnd; simpl.
  - rewrite app_nil_r. reflexivity.
  - unfold OrderSpec.statKeys in Hnd. simpl in Hnd. fold (OrderSpec.statKeys stats) in Hnd.
    destruct (MergeSpec.statKey s) as [k |] eqn:Ek.
    + assert (Hadd : Background.addStat m s = m ++ [(k, MergeSpec.statRecord s)]).
      { assert (Hfresh : Map_get String.eqb k m = None).
        { apply (@Map_get_None _ _ String.eqb String.eqb_eq). intros Hin.
          apply NoDup_remove_2 in Hnd. apply Hnd. apply in_or_app. left. exact Hin. }
        unfold Background.addStat, MergeSpec.statKey, MergeSpec.statRecord in *.
        destruct (Background.author s) as [au |]; [| discriminate].
        destruct (String.eqb (Background.a_login au) ""); [discriminate |].
        injection Ek as <-. apply Map_set_absent. exact Hfresh. }
      rewrite Hadd, IH.
      * rewrite <- app_assoc. reflexivity.
      * unfold Map_keys. rewrite map_app. simpl. rewrite <- app_assoc. exact Hnd.
    + rewrite addStat_no_key by exact Ek. simpl in Hnd. apply IH, Hnd.
Qed.

Lemma fold_addListEntry_order (entries : list Background.ListEntry)
    (m : Background.ContributorMap) (base : list string) :
  NoDup (OrderSpec.listKeys entries) ->
  (forall k, In k (OrderSpec.listKeys entries) -> (In k (Map_keys m) <-> In k base)) ->
  fold_left Background.addListEntry entries m
  = m ++ flat_map (fun e => match MergeSpec.listKey e with
                            | Some k => if existsb (String.eqb k) base then []
                                        else [(k, MergeSpec.listRecord e)]
                            | None => []
                            end) entries.
Proof.
  revert m. induction entries as [| e entries IH]; intros m Hnd Hbase; simpl.
  - rewrite app_nil_r. reflexivity.
  - unfold OrderSpec.listKeys in Hnd, Hbase. simpl in Hnd, Hbase.
    fold (OrderSpec.listKeys entries) in Hnd, Hbase.
    destruct (MergeSpec.listKey e) as [k |] eqn:Ek.
    + simpl in Hnd, Hbase. inversion Hnd as [| ? ? Hni Hnd']; subst.
      assert (Hhas : Map_has String.eqb k m = existsb (String.eqb k) base).
      { rewrite Map_has_In.
        destruct (existsb (String.eqb k) base) eqn:Eb.
        - apply existsb_eqb_In. apply Hbase; [left; reflexivity |].
          apply existsb_eqb_In. exact Eb.
        - apply not_true_is_false. intros H. apply existsb_eqb_In in H.
          apply Hbase in H; [| left; reflexivity].
          apply existsb_eqb_In in H. congruence. }
      assert (Hadd : Background.addListEntry m e
                     = m ++ (if existsb (String.eqb k) base then []
                             else [(k, MergeSpec.listRecord e)])).
      { unfold Background.addListEntry, MergeSpec.listKey, MergeSpec.listRecord in *.
        destruct (String.eqb (Background.l_login e) ""); [discriminate |].
        injection Ek as <-. rewrite Hhas.
        destruct (existsb _ base) eqn:Eb; [rewrite app_nil_r; reflexivity |].
        apply Map_set_absent. unfold Map_has in Hhas.
        destruct (Map_get String.eqb _ m); [discriminate Hhas | reflexivity]. }
      rewrite Hadd, IH.
      * rewrite <- app_assoc. reflexivity.
      * exact Hnd'.
      * intros k' Hk'. rewrite <- Hbase by (right; exact Hk').
        unfold Map_keys. rewrite map_app, in_app_iff.
        split; [| intros H; left; exact H].
        intros [H | H]; [exact H |].
        destruct (existsb (String.eqb k) base); [destruct H |].
        simpl in H. destruct H as [<- | []]. contradiction.
    + rewrite addListEntry_no_key by exact Ek. simpl in Hnd, Hbase. apply IH; assumption.
Qed.

(** X11.  When no login occurs twice inside a source, the merged list holds the
    detailed entries that have a login, in their order, followed by the
    summary entries whose login the detailed source lacks, in theirs. *)
Theorem merged_list_order (stats : list Background.Stat) (entries : list Background.ListEntry) :
  NoDup (OrderSpec.statKeys stats) ->
  NoDup (OrderSpec.listKeys entries) ->
  Map_values (Background.buildContributorMap (Background.JArray stats)
                                              (Background.JArray entries))
  = map MergeSpec.statRecord (filter OrderSpec.hasLogin stats)
    ++ map MergeSpec.listRecord (filter (OrderSpec.fillsGap stats) entries).
Proof.
  intros HA HB. unfold Background.buildContributorMap.
  rewrite (fold_addStat_order stats []) by exact HA. simpl app.
  set (mA := flat_map _ stats).
  assert (HkeysA : Map_keys mA = OrderSpec.statKeys stats).
  { unfold mA, Map_keys, OrderSpec.statKeys.
    induction stats as [| s stats IH]; [reflexivity |].
    simpl. rewrite map_app, IH by (simpl in HA; unfold OrderSpec.statKeys in HA; simpl in HA;
                                   apply NoDup_app_remove_l in HA; exact HA).
    destruct (MergeSpec.statKey s); reflexivity. }
  rewrite (@fold_addListEntry_order entries mA (OrderSpec.statKeys stats) HB)
    by (intros k _; rewrite HkeysA; reflexivity).
  unfold Map_values. rewrite map_app. f_equal.
  - unfold mA, OrderSpec.hasLogin.
    clear. induction stats as [| s stats IH]; [reflexivity |].
    simpl. rewrite map_app, IH. destruct (MergeSpec.statKey s); reflexivity.
  - unfold OrderSpec.fillsGap.
    clear. induction entries as [| e entries IH]; [reflexivity |].
    simpl. rewrite map_app, IH. destruct (MergeSpec.listKey e) as [k |]; [| reflexivity].
    destruct (existsb (String.eqb k) (OrderSpec.statKeys stats)); reflexivity.
Qed.

Lemma merged_list_order_witness :
  let stats :=
    [ {| Background.author :=
           Some {| Background.a_login := "Alice"; Background.avatar_url := "";
                   Background.html_url := "" |};
         Background.s_weeks := None |};
      {| Background.author := None; Background.s_weeks := None |};
      {| Background.author :=
           Some {| Background.a_login := "Carol"; Background.avatar_url := "";
                   Background.html_url := "" |};
         Background.s_weeks := None |} ] in
  let entries :=
    [ {| Background.l_login := "dave"; Background.l_avatar_url := "";
         Background.l_html_url := ""; Background.contributions := Some 2%Z |};
      {| Background.l_login := "CAROL"; Background.l_avatar_url := "";
         Background.l_html_url := ""; Background.contributions := Some 7%Z |} ] in
  NoDup (OrderSpec.statKeys stats) /\ NoDup (OrderSpec.listKeys entries) /\
  map login (Map_values (Background.buildContributorMap (Background.JArray stats)
                                                         (Background.JArray entries)))
  = ["Alice"; "Carol"; "dave"]%string.
Proof.
  intros stats entries.
  assert (HA : NoDup (OrderSpec.statKeys stats)).
  { vm_compute. repeat constructor; simpl; intros H;
      repeat (destruct H as [H | H]; [discriminate H |]); exact H. }
  assert (HB : NoDup (OrderSpec.listKeys entries)).
  { vm_compute. repeat constructor; simpl; intros H;
      repeat (destruct H as [H | H]; [discriminate H |]); exact H. }
  split; [exact HA |]. split; [exact HB |].
  rewrite (@merged_list_order stats entries HA HB). reflexivity.
Defined.

(** ** URLs *)

Section UrlFacts.
Local Open Scope string_scope.

Lemma append_assoc' (s1 s2 s3 : string) : (s1 ++ s2) ++ s3 = s1 ++ (s2 ++ s3).
Proof. induction s1 as [| ch s1 IH]; simpl; [reflexivity | rewrite IH; reflexivity]. Qed.

Lemma append_nil_r (s : string) : s ++ "" = s.
Proof. induction s as [| ch s IH]; simpl; [reflexivity | rewrite IH; reflexivity]. Qed.

Lemma stripPrefix_append (p s : string) : Url.stripPrefix p (p ++ s) = Some s.
Proof.
  induction p as [| ch p IH]; simpl; [reflexivity |].
  rewrite Ascii.eqb_refl. exact IH.
Qed.

Lemma stripPrefix_Some (p s s1 : string) : Url.stripPrefix p s = Some s1 -> s = p ++ s1.
Proof.
  revert s. induction p as [| a p IH]; intros s H; simpl in *.
  - injection H as ->. reflexivity.
  - destruct s as [| b s]; [discriminate |].
    destruct (Ascii.eqb_spec a b) as [-> | Hne]; [| discriminate].
    rewrite (IH s H). reflexivity.
Qed.

Lemma span_append (cls : ascii -> bool) (run rest : string) :
  UrlSpec.allOf cls run = true -> UrlSpec.stopsAt cls rest ->
  Url.span cls (run ++ rest) = (run, rest).
Proof.
  intros Hrun Hrest. induction run as [| ch run IH]; simpl in *.
  - destruct rest as [| ch rest]; [reflexivity |].
    simpl in Hrest. simpl. rewrite Hrest. reflexivity.
  - apply andb_true_iff in Hrun. destruct Hrun as [Hch Hrun].
    rewrite Hch, (IH Hrun). reflexivity.
Qed.

Lemma span_spec (cls : ascii -> bool) (s run rest : string) :
  Url.span cls s = (run, rest) ->
  s = run ++ rest /\ UrlSpec.allOf cls run = true /\ UrlSpec.stopsAt cls rest.
Proof.
  revert run rest. induction s as [| ch s IH]; intros run rest H; simpl in H.
  - injection H as <- <-. repeat split.
  - destruct (cls ch) eqn:E.
    + destruct (Url.span cls s) as [run' rest'] eqn:Es.
      injection H as <- <-. destruct (IH run' rest' eq_refl) as (-> & Hall & Hstop).
      simpl. rewrite E, Hall. repeat split. exact Hstop.
    + injection H as <- <-. repeat split. simpl. exact E.
Qed.

Lemma matchHere_Some (s o r : string) :
  Url.matchHere s = Some (o, r) ->
  exists rest,
    s = "github.com/" ++ o ++ "/" ++ r ++ rest /\
    o <> "" /\ UrlSpec.allOf Url.notSlash o = true /\
    r <> "" /\ UrlSpec.allOf Url.notDelimiter r = true /\
    UrlSpec.stopsAt Url.notDelimiter rest.
Proof.
  unfold Url.matchHere. intros H.
  destruct (Url.stripPrefix "github.com/" s) as [s1 |] eqn:Ep; [| discriminate].
  apply stripPrefix_Some in Ep.
  destruct (Url.span Url.notSlash s1) as [o' s2] eqn:Eo.
  destruct (String.eqb_spec o' "") as [| Hne]; [discriminate |].
  destruct s2 as [| ch s3]; [discriminate |].
  destruct (Ascii.eqb_spec ch "/") as [-> | Hch];
    [| destruct ch as [[] [] [] [] [] [] [] []]; try discriminate H; exfalso; apply Hch; reflexivity].
  destruct (Url.span Url.notDelimiter s3) as [r' rest] eqn:Er.
  destruct (String.eqb_spec r' "") as [| Hner]; [discriminate |].
  injection H as <- <-.
  apply span_spec in Eo. destruct Eo as (-> & Hall & _).
  apply span_spec in Er. destruct Er as (-> & Hallr & Hstop).
  exists rest. rewrite Ep. repeat split; assumption.
Qed.

Lemma matchHere_append (o r rest : string) :
  o <> "" -> UrlSpec.allOf Url.notSlash o = true ->
  r <> "" -> UrlSpec.allOf Url.notDelimiter r = true ->
  UrlSpec.stopsAt Url.notDelimiter rest ->
  Url.matchHere ("github.com/" ++ o ++ "/" ++ r ++ rest) = Some (o, r).
Proof.
  intros Ho Hao Hr Har Hrest. unfold Url.matchHere.
  rewrite stripPrefix_append.
  rewrite (@span_append Url.notSlash o ("/" ++ r ++ rest) Hao) by reflexivity.
  destruct (String.eqb_spec o ""); [contradiction |].
  change ("/" ++ r ++ rest) with (String "/" (r ++ rest)). cbv iota beta.
  rewrite (@span_append Url.notDelimiter r rest Har Hrest).
  destruct (String.eqb_spec r ""); [contradiction |]. reflexivity.
Qed.

Lemma regexMatch_Some (url o r : string) :
  Url.regexMatch url = Some (o, r) ->
  exists pre s, url = pre ++ s /\ Url.matchHere s = Some (o, r).
Proof.
  induction url as [| ch url IH]; intros H.
  - discriminate H.
  - simpl in H. destruct (Url.matchHere (String ch url)) as [cap |] eqn:E.
    + exists "", (String ch url). split; [reflexivity |]. rewrite E. exact H.
    + destruct (IH H) as (pre & s & -> & Hs).
      exists (String ch pre), s. split; [reflexivity | exact Hs].
Qed.

Lemma matchHere_notG (ch : ascii) (s : string) :
  UrlSpec.notG ch = true -> Url.matchHere (String ch s) = None.
Proof.
  unfold UrlSpec.notG, Url.matchHere. intros H.
  apply negb_true_iff in H. rewrite Ascii.eqb_sym in H.
  change (Url.stripPrefix "github.com/" (String ch s))
    with (if Ascii.eqb "g" ch then Url.stripPrefix "ithub.com/" s else None).
  rewrite H. reflexivity.
Qed.

Lemma regexMatch_skip (pre s : string) :
  UrlSpec.allOf UrlSpec.notG pre = true ->
  Url.regexMatch (pre ++ s) = Url.regexMatch s.
Proof.
  induction pre as [| ch pre IH]; intros H; [reflexivity |].
  simpl in H. apply andb_true_iff in H. destruct H as [Hch Hpre].
  simpl append. simpl Url.regexMatch. rewrite (@matchHere_notG ch (pre ++ s) Hch). apply IH, Hpre.
Qed.

Lemma regexMatch_here (s : string) (cap : string * string) :
  Url.matchHere s = Some cap -> Url.regexMatch s = Some cap.
Proof.
  intros H. destruct s as [| ch s]; [discriminate H |].
  cbn [Url.regexMatch]. rewrite H. reflexivity.
Qed.

(** X12.  A URL made of a prefix without the letter g (such as [https://]),
    [github.com/], an owner, a slash, a repository name and then nothing or
    something that starts with [/], [?] or [#] parses to that owner and
    that name, one final [.git] taken off. *)
Theorem parseGitHubUrl_canonical (pre o r rest : string) :
  UrlSpec.allOf UrlSpec.notG pre = true ->
  o <> "" -> UrlSpec.allOf Url.notSlash o = true ->
  r <> "" -> UrlSpec.allOf Url.notDelimiter r = true ->
  UrlSpec.stopsAt Url.notDelimiter rest ->
  Url.parseGitHubUrl (pre ++ "github.com/" ++ o ++ "/" ++ r ++ rest)
  = Some {| Url.owner := o; Url.repo := Url.stripGitSuffix r |}.
Proof.
  intros Hpre Ho Hao Hr Har Hrest. unfold Url.parseGitHubUrl.
  rewrite (@regexMatch_skip pre _ Hpre).
  rewrite (@regexMatch_here _ (o, r) (@matchHere_append o r rest Ho Hao Hr Har Hrest)).
  reflexivity.
Qed.

Lemma parseGitHubUrl_canonical_witness :
  UrlSpec.allOf UrlSpec.notG "https://" = true /\
  "philjestin" <> "" /\ UrlSpec.allOf Url.notSlash "philjestin" = true /\
  "git-gladiators.git" <> "" /\ UrlSpec.allOf Url.notDelimiter "git-gladiators.git" = true /\
  UrlSpec.stopsAt Url.notDelimiter "?tab=readme" /\
  Url.parseGitHubUrl "https://github.com/philjestin/git-gladiators.git?tab=readme"
  = Some {| Url.owner := "philjestin"; Url.repo := "git-gladiators" |}.
Proof.
  assert (H1 : UrlSpec.allOf UrlSpec.notG "https://" = true) by reflexivity.
  assert (H2 : "philjestin" <> "") by discriminate.
  assert (H3 : UrlSpec.allOf Url.notSlash "philjestin" = true) by reflexivity.
  assert (H4 : "git-gladiators.git" <> "") by discriminate.
  assert (H5 : UrlSpec.allOf Url.notDelimiter "git-gladiators.git" = true) by reflexivity.
  assert (H6 : UrlSpec.stopsAt Url.notDelimiter "?tab=readme") by reflexivity.
  split; [exact H1 |]. split; [exact H2 |]. split; [exact H3 |]. split; [exact H4 |].
  split; [exact H5 |]. split; [exact H6 |].
  exact (@parseGitHubUrl_canonical "https://" "philjestin" "git-gladiators.git" "?tab=readme"
           H1 H2 H3 H4 H5 H6).
Defined.

(** X13.  Whatever [parseGitHubUrl] returns was read off the URL after a
    [github.com/]: the owner is not empty and has no slash, the name is a
    non-empty run without [/], [?] and [#] (one final [.git] taken off) that
    ends where such a character or the end of the URL follows.  A URL
    without [github.com/] gives [null]. *)
Theorem parseGitHubUrl_sound (url : string) (info : Url.RepoInfo) :
  Url.parseGitHubUrl url = Some info ->
  exists pre name rest,
    url = pre ++ "github.com/" ++ Url.owner info ++ "/" ++ name ++ rest /\
    Url.repo info = Url.stripGitSuffix name /\
    Url.owner info <> "" /\ UrlSpec.allOf Url.notSlash (Url.owner info) = true /\
    name <> "" /\ UrlSpec.allOf Url.notDelimiter name = true /\
    UrlSpec.stopsAt Url.notDelimiter rest.
Proof.
  unfold Url.parseGitHubUrl. intros H.
  destruct (Url.regexMatch url) as [[o r] |] eqn:E; [| discriminate].
  injection H as <-. simpl.
  apply regexMatch_Some in E. destruct E as (pre & s & -> & Hs).
  apply matchHere_Some in Hs. destruct Hs as (rest & -> & Ho & Hao & Hr & Har & Hrest).
  exists pre, r, rest. repeat split; assumption.
Qed.

Lemma parseGitHubUrl_sound_witness :
  Url.parseGitHubUrl "https://github.com/a/.git#x"
  = Some {| Url.owner := "a"; Url.repo := "" |} /\
  exists pre name rest,
    "https://github.com/a/.git#x" = pre ++ "github.com/" ++ "a" ++ "/" ++ name ++ rest /\
    "" = Url.stripGitSuffix name /\ name <> "".
Proof.
  assert (H : Url.parseGitHubUrl "https://github.com/a/.git#x"
              = Some {| Url.owner := "a"; Url.repo := "" |}) by reflexivity.
  split; [exact H |].
  destruct (@parseGitHubUrl_sound _ _ H) as (pre & name & rest & H1 & H2 & _ & _ & H3 & _).
  exists pre, name, rest. split; [exact H1 |]. split; [exact H2 | exact H3].
Defined.

(** *** The [.git] suffix *)

Lemma length_append' (s t : string) :
  String.length (s ++ t) = (String.length s + String.length t)%nat.
Proof. induction s as [| ch s IH]; simpl; [reflexivity | rewrite IH; reflexivity]. Qed.

Lemma stripGitSuffix_append (s : string) : Url.stripGitSuffix (s ++ ".git") = s.
Proof.
  induction s as [| ch s IH]; [reflexivity |].
  simpl append. unfold Url.stripGitSuffix; fold Url.stripGitSuffix.
  destruct (String.eqb_spec (String ch (s ++ ".git")) ".git") as [E | _].
  - exfalso. apply (f_equal String.length) in E. simpl in E.
    rewrite length_append' in E. simpl in E. lia.
  - rewrite IH. reflexivity.
Qed.

Lemma stripGitSuffix_other (s : string) :
  (forall t, s <> t ++ ".git") -> Url.stripGitSuffix s = s.
Proof.
  induction s as [| ch s IH]; intros H; [reflexivity |].
  unfold Url.stripGitSuffix; fold Url.stripGitSuffix.
  destruct (String.eqb_spec (String ch s) ".git") as [E | _].
  - exfalso. apply (H ""). exact E.
  - rewrite IH; [reflexivity |].
    intros t Ht. apply (H (String ch t)). simpl. rewrite Ht. reflexivity.
Qed.

(** X14.  Exactly one final [.git] is removed: a name that ends in [.git] loses
    these four characters and no more, so [x.git.git] becomes [x.git] and
    [.git] becomes the empty name; any other name is returned as it is. *)
Theorem stripGitSuffix_once (s : string) :
  Url.stripGitSuffix (s ++ ".git") = s /\
  ((forall t, s <> t ++ ".git") -> Url.stripGitSuffix s = s).
Proof. split; [apply stripGitSuffix_append | apply stripGitSuffix_other]. Qed.

Lemma stripGitSuffix_once_witness :
  (forall t, "repo.gitx" <> t ++ ".git") /\ Url.stripGitSuffix "repo.gitx" = "repo.gitx".
Proof.
  assert (H : forall t, "repo.gitx" <> t ++ ".git").
  { intros t E.
    assert (Hlen : String.length t = 5%nat).
    { apply (f_equal String.length) in E. rewrite length_append' in E. simpl in E. lia. }
    destruct t as [| c1 [| c2 [| c3 [| c4 [| c5 [| c6 t]]]]]]; try discriminate Hlen.
    discriminate E. }
  split; [exact H |]. apply (stripGitSuffix_once "repo.gitx"). exact H.
Defined.

End UrlFacts.

(** ** CRC-32, bit by bit *)

Section CrcFacts.
Local Open Scope Z_scope.
Import Icons.

Ltac bitwise :=
  apply Z.bits_inj'; intros ?n ?Hn;
  repeat (rewrite Z.lxor_spec || rewrite Z.land_spec || rewrite Z.ldiff_spec
          || rewrite Z.bits_0);
  repeat match goal with
         | |- context [Z.testbit ?x ?i] => destruct (Z.testbit x i)
         end; reflexivity.

(** *** The 32-bit operators on the unsigned value *)

Lemma ToUint32_range (x : Z) : 0 <= ToUint32 x < 2 ^ 32.
Proof. unfold ToUint32. apply Z.mod_pos_bound. lia. Qed.

Lemma ToUint32_small (x : Z) : 0 <= x < 2 ^ 32 -> ToUint32 x = x.
Proof. intros H. unfold ToUint32. apply Z.mod_small, H. Qed.

Lemma ToUint32_ToInt32 (x : Z) : ToUint32 (ToInt32 x) = ToUint32 x.
Proof.
  unfold ToUint32, ToInt32.
  destruct (Z.ltb_spec (x mod 2 ^ 32) (2 ^ 31)).
  - apply Z.mod_mod. lia.
  - replace (x mod 2 ^ 32 - 2 ^ 32) with (x mod 2 ^ 32 + (-1) * 2 ^ 32) by lia.
    rewrite Z.mod_add by lia. apply Z.mod_mod. lia.
Qed.

Lemma ToUint32_land_ones (x : Z) : ToUint32 x = Z.land x (Z.ones 32).
Proof. unfold ToUint32. rewrite Z.land_ones by lia. reflexivity. Qed.

Lemma ToUint32_lxor (x y : Z) :
  ToUint32 (Z.lxor x y) = Z.lxor (ToUint32 x) (ToUint32 y).
Proof. rewrite !ToUint32_land_ones. bitwise. Qed.

Lemma ToUint32_land (x y : Z) :
  ToUint32 (Z.land x y) = Z.land (ToUint32 x) (ToUint32 y).
Proof. rewrite !ToUint32_land_ones. bitwise. Qed.

Lemma ToUint32_bitXor (x y : Z) :
  ToUint32 (bitXor x y) = Z.lxor (ToUint32 x) (ToUint32 y).
Proof.
  unfold bitXor. rewrite ToUint32_ToInt32, ToUint32_lxor, !ToUint32_ToInt32. reflexivity.
Qed.

Lemma ToUint32_bitAnd (x y : Z) :
  ToUint32 (bitAnd x y) = Z.land (ToUint32 x) (ToUint32 y).
Proof.
  unfold bitAnd. rewrite ToUint32_ToInt32, ToUint32_land, !ToUint32_ToInt32. reflexivity.
Qed.

Lemma ToInt32_small (x : Z) : 0 <= x < 2 ^ 31 -> ToInt32 x = x.
Proof.
  intros H. unfold ToInt32. rewrite Z.mod_small by lia.
  destruct (Z.ltb_spec x (2 ^ 31)); lia.
Qed.

Lemma land_small (x y : Z) : 0 <= y < 2 ^ 31 -> 0 <= Z.land x y < 2 ^ 31.
Proof.
  intros Hy.
  assert (E : Z.land x y = Z.land x y mod 2 ^ 31).
  { rewrite <- Z.land_ones by lia. rewrite <- Z.land_assoc.
    rewrite (Z.land_ones y) by lia. rewrite (Z.mod_small y) by lia. reflexivity. }
  rewrite E. apply Z.mod_pos_bound. lia.
Qed.

Lemma bitAnd_small (x y : Z) : 0 <= y < 2 ^ 31 -> bitAnd x y = Z.land (ToUint32 x) y.
Proof.
  intros Hy.
  assert (Hr : 0 <= bitAnd x y < 2 ^ 31).
  { unfold bitAnd. rewrite (ToInt32_small Hy).
    rewrite ToInt32_small; apply land_small; exact Hy. }
  rewrite <- (ToUint32_small (x := bitAnd x y)) by lia.
  rewrite ToUint32_bitAnd. rewrite (ToUint32_small (x := y)) by lia. reflexivity.
Qed.

Lemma ushr_spec (x n : Z) : 0 <= n < 32 -> ushr x n = Z.shiftr (ToUint32 x) n.
Proof. intros Hn. unfold ushr. rewrite Z.mod_small by lia. reflexivity. Qed.

Lemma shiftr_range (u n : Z) : 0 <= n -> 0 <= u < 2 ^ 32 -> 0 <= Z.shiftr u n < 2 ^ 32.
Proof.
  intros Hn Hu. rewrite Z.shiftr_div_pow2 by lia.
  assert (0 < 2 ^ n) by (apply Z.pow_pos_nonneg; lia).
  split; [apply Z.div_pos; lia |].
  apply Z.le_lt_trans with u; [| lia].
  apply Z.div_le_upper_bound; [lia |]. nia.
Qed.

Lemma lxor_range (x y : Z) : 0 <= x < 2 ^ 32 -> 0 <= y < 2 ^ 32 -> 0 <= Z.lxor x y < 2 ^ 32.
Proof.
  intros Hx Hy.
  rewrite <- (ToUint32_small Hx), <- (ToUint32_small Hy), <- ToUint32_lxor.
  apply ToUint32_range.
Qed.

(** *** The table *)

Lemma tableStep_unsigned (c : Z) :
  ToUint32 (tableStep c) = CrcSpec.shiftStep (ToUint32 c).
Proof.
  unfold tableStep, CrcSpec.shiftStep.
  pose proof (ToUint32_range c) as Hu.
  set (u := ToUint32 c) in *.
  assert (Hodd : (bitAnd c 1 =? 0) = negb (Z.odd u)).
  { rewrite bitAnd_small by lia. fold u.
    change 1 with (Z.ones 1). rewrite Z.land_ones by lia.
    change (2 ^ 1) with 2. rewrite Zmod_odd. destruct (Z.odd u); reflexivity. }
  rewrite Hodd, (ushr_spec c) by lia. fold u.
  pose proof (shiftr_range (n := 1) ltac:(lia) Hu) as Hs.
  destruct (Z.odd u); simpl negb; cbv iota.
  - rewrite ToUint32_bitXor, (ToUint32_small Hs).
    rewrite ToUint32_small by (unfold CrcSpec.poly; lia). apply Z.lxor_comm.
  - apply ToUint32_small, Hs.
Qed.

Lemma shiftStep_range (c : Z) : 0 <= c < 2 ^ 32 -> 0 <= CrcSpec.shiftStep c < 2 ^ 32.
Proof.
  intros Hc. rewrite <- (ToUint32_small Hc), <- tableStep_unsigned. apply ToUint32_range.
Qed.

Lemma iter_shiftStep_range (n : nat) (c : Z) :
  0 <= c < 2 ^ 32 -> 0 <= Nat.iter n CrcSpec.shiftStep c < 2 ^ 32.
Proof. intros Hc. induction n as [| n IH]; [exact Hc | apply shiftStep_range, IH]. Qed.

Lemma iter_tableStep_unsigned (n : nat) (c : Z) :
  ToUint32 (Nat.iter n tableStep c) = Nat.iter n CrcSpec.shiftStep (ToUint32 c).
Proof.
  induction n as [| n IH]; [reflexivity |].
  simpl. rewrite tableStep_unsigned, IH. reflexivity.
Qed.

Lemma tableAt_spec (i : Z) :
  0 <= i < 256 -> tableAt getCRC32Table i = Nat.iter 8 CrcSpec.shiftStep i.
Proof.
  intros Hi. unfold tableAt, getCRC32Table.
  assert (Hlt : (Z.to_nat i < 256)%nat) by lia.
  rewrite (nth_indep _ 0 (tableEntry (Z.of_nat 0)))
    by (rewrite length_map, length_seq; exact Hlt).
  rewrite (map_nth (fun k => tableEntry (Z.of_nat k))).
  rewrite seq_nth by exact Hlt. simpl Nat.add. rewrite Z2Nat.id by lia.
  unfold tableEntry. rewrite iter_tableStep_unsigned.
  rewrite ToUint32_small by lia. reflexivity.
Qed.

(** *** Eight shifts at once *)

Lemma shiftStep_lxor (x y : Z) :
  CrcSpec.shiftStep (Z.lxor x y) = Z.lxor (CrcSpec.shiftStep x) (CrcSpec.shiftStep y).
Proof.
  unfold CrcSpec.shiftStep.
  rewrite <- !Z.bit0_odd, Z.lxor_spec, Z.shiftr_lxor.
  set (a := Z.shiftr x 1). set (b := Z.shiftr y 1). set (p := CrcSpec.poly).
  destruct (Z.testbit x 0), (Z.testbit y 0); simpl xorb; cbv iota; bitwise.
Qed.

Lemma iter_shiftStep_lxor (n : nat) (x y : Z) :
  Nat.iter n CrcSpec.shiftStep (Z.lxor x y)
  = Z.lxor (Nat.iter n CrcSpec.shiftStep x) (Nat.iter n CrcSpec.shiftStep y).
Proof.
  induction n as [| n IH]; [reflexivity |].
  simpl. rewrite IH. apply shiftStep_lxor.
Qed.

Lemma iter_shiftStep_low_zero (n : nat) (x : Z) :
  (forall i, 0 <= i < Z.of_nat n -> Z.testbit x i = false) ->
  Nat.iter n CrcSpec.shiftStep x = Z.shiftr x (Z.of_nat n).
Proof.
  induction n as [| n IH]; intros Hlow.
  - simpl. rewrite Z.shiftr_0_r. reflexivity.
  - simpl Nat.iter. rewrite IH by (intros i Hi; apply Hlow; lia).
    unfold CrcSpec.shiftStep.
    rewrite <- Z.bit0_odd, Z.shiftr_spec by lia.
    rewrite Hlow by lia.
    rewrite Z.shiftr_shiftr by lia. f_equal. lia.
Qed.

Lemma testbit_255_high (i : Z) : 8 <= i -> Z.testbit 255 i = false.
Proof. intros Hi. change 255 with (Z.ones 8). apply Z.ones_spec_high. lia. Qed.

Lemma testbit_255_low (i : Z) : 0 <= i < 8 -> Z.testbit 255 i = true.
Proof. intros Hi. change 255 with (Z.ones 8). apply Z.ones_spec_low. lia. Qed.

(** The step of the table-driven loop is eight one-bit steps. *)
Lemma byte_step (x : Z) :
  Nat.iter 8 CrcSpec.shiftStep x
  = Z.lxor (Nat.iter 8 CrcSpec.shiftStep (Z.land x 255)) (Z.shiftr x 8).
Proof.
  assert (Hsplit : x = Z.lxor (Z.land x 255) (Z.ldiff x 255)) by bitwise.
  rewrite Hsplit at 1. rewrite iter_shiftStep_lxor. f_equal.
  rewrite iter_shiftStep_low_zero.
  - apply Z.bits_inj'. intros n Hn.
    rewrite !Z.shiftr_spec by lia. rewrite Z.ldiff_spec.
    rewrite testbit_255_high by lia. apply andb_true_r.
  - intros i Hi. rewrite Z.ldiff_spec, testbit_255_low by lia. apply andb_false_r.
Qed.

Lemma byteZ_range (b : Byte.byte) : 0 <= byteZ b < 256.
Proof. unfold byteZ. pose proof (Byte.to_N_bounded b). lia. Qed.

Lemma crc_step (crc : Z) (b : Byte.byte) :
  ToUint32 (bitXor (tableAt getCRC32Table (bitAnd (bitXor crc (byteZ b)) 0xff)) (ushr crc 8))
  = CrcSpec.feed (ToUint32 crc) b.
Proof.
  pose proof (byteZ_range b) as Hb. pose proof (ToUint32_range crc) as Hu.
  set (u := ToUint32 crc) in *.
  assert (Hidx : bitAnd (bitXor crc (byteZ b)) 255 = Z.land (Z.lxor u (byteZ b)) 255).
  { rewrite bitAnd_small by lia. rewrite ToUint32_bitXor. fold u.
    rewrite (ToUint32_small (x := byteZ b)) by lia. reflexivity. }
  assert (Hidx_range : 0 <= Z.land (Z.lxor u (byteZ b)) 255 < 256).
  { change 255 with (Z.ones 8). rewrite Z.land_ones by lia. apply Z.mod_pos_bound. lia. }
  rewrite Hidx, ToUint32_bitXor, tableAt_spec by exact Hidx_range.
  rewrite ushr_spec by lia. fold u.
  rewrite ToUint32_small by (apply iter_shiftStep_range; lia).
  rewrite ToUint32_small by (apply shiftr_range; lia).
  unfold CrcSpec.feed. rewrite (byte_step (Z.lxor u (byteZ b))).
  f_equal. rewrite Z.shiftr_lxor.
  replace (Z.shiftr (byteZ b) 8) with 0; [rewrite Z.lxor_0_r; reflexivity |].
  symmetry. rewrite Z.shiftr_div_pow2 by lia. apply Z.div_small. lia.
Qed.

Lemma feed_range (u : Z) (b : Byte.byte) :
  0 <= u < 2 ^ 32 -> 0 <= CrcSpec.feed u b < 2 ^ 32.
Proof.
  intros Hu. unfold CrcSpec.feed. apply iter_shiftStep_range.
  apply lxor_range; [exact Hu |]. pose proof (byteZ_range b). lia.
Qed.

Lemma crc_loop (data : list Byte.byte) (crc : Z) :
  ToUint32 (fold_left
              (fun crc b =>
                 bitXor (tableAt getCRC32Table (bitAnd (bitXor crc (byteZ b)) 0xff))
                        (ushr crc 8))
              data crc)
  = fold_left CrcSpec.feed data (ToUint32 crc).
Proof.
  revert crc. induction data as [| b data IH]; intros crc; [reflexivity |].
  simpl fold_left. rewrite IH, crc_step. reflexivity.
Qed.

Lemma fold_feed_range (data : list Byte.byte) (u : Z) :
  0 <= u < 2 ^ 32 -> 0 <= fold_left CrcSpec.feed data u < 2 ^ 32.
Proof.
  revert u. induction data as [| b data IH]; intros u Hu; [exact Hu |].
  simpl. apply IH, feed_range, Hu.
Qed.

Lemma crc32_crcBitwise (data : list Byte.byte) : crc32 data = CrcSpec.crcBitwise data.
Proof.
  unfold crc32, CrcSpec.crcBitwise.
  rewrite ushr_spec by lia. rewrite Z.shiftr_0_r, ToUint32_bitXor, crc_loop.
  reflexivity.
Qed.

Lemma crc32_range (data : list Byte.byte) : 0 <= crc32 data < 2 ^ 32.
Proof.
  rewrite crc32_crcBitwise. unfold CrcSpec.crcBitwise.
  apply lxor_range; [apply fold_feed_range |]; lia.
Qed.

(** X15.  The table-driven [crc32] computes the standard CRC-32 (reflected
    polynomial EDB88320, register preset to and finally inverted with all
    ones), bit by bit; its result is an unsigned 32-bit integer, whatever
    signs the intermediate values of the bitwise operators take. *)
Theorem crc32_is_bitwise_crc (data : list Byte.byte) :
  crc32 data = CrcSpec.crcBitwise data /\ 0 <= crc32 data < 2 ^ 32.
Proof. split; [apply crc32_crcBitwise | apply crc32_range]. Qed.

End CrcFacts.

Section ChunkFacts.
Local Open Scope Z_scope.
Import Icons.

Lemma byteZ_byteOf (x : Z) : byteZ (byteOf x) = x mod 256.
Proof.
  unfold byteZ, byteOf.
  assert (Hr : 0 <= x mod 256 < 256) by (apply Z.mod_pos_bound; lia).
  destruct (Byte.of_N (Z.to_N (x mod 256))) as [b |] eqn:E.
  - apply Byte.to_of_N in E. rewrite E. lia.
  - apply Byte.of_N_None_iff in E. lia.
Qed.

Lemma writeUInt32BE_read (value : Z) :
  0 <= value < 2 ^ 32 ->
  exists bytes,
    writeUInt32BE value = Some bytes /\ List.length bytes = 4%nat /\
    CrcSpec.readUInt32BE bytes = value.
Proof.
  intros Hv. unfold writeUInt32BE.
  destruct (Z.leb_spec 0 value); [| lia].
  destruct (Z.ltb_spec value (2 ^ 32)); [| lia].
  eexists. split; [reflexivity |]. split; [reflexivity |].
  unfold CrcSpec.readUInt32BE. rewrite !byteZ_byteOf.
  rewrite !Z.shiftr_div_pow2 by lia.
  change (2 ^ 24) with 16777216. change (2 ^ 16) with 65536. change (2 ^ 8) with 256.
  change (2 ^ 32) with 4294967296 in *.
  Z.div_mod_to_equations. lia.
Qed.

Lemma writeUInt32BE_None (value : Z) :
  writeUInt32BE value = None <-> ~ (0 <= value < 2 ^ 32).
Proof.
  unfold writeUInt32BE.
  destruct (Z.leb_spec 0 value), (Z.ltb_spec value (2 ^ 32)); simpl;
    split; intros Hx; try discriminate; try lia; try reflexivity; exfalso; apply Hx; lia.
Qed.

Lemma createChunk_Some (type : string) (data : list Byte.byte) :
  Z.of_nat (List.length data) < 2 ^ 32 ->
  exists lengthBytes crcBytes,
    createChunk type data
    = Some (lengthBytes ++ list_byte_of_string type ++ data ++ crcBytes) /\
    List.length lengthBytes = 4%nat /\ List.length crcBytes = 4%nat /\
    CrcSpec.readUInt32BE lengthBytes = Z.of_nat (List.length data) /\
    CrcSpec.readUInt32BE crcBytes = CrcSpec.crcBitwise (list_byte_of_string type ++ data).
Proof.
  intros Hlen.
  pose proof (crc32_crcBitwise (list_byte_of_string type ++ data)) as Hcrc.
  pose proof (crc32_range (list_byte_of_string type ++ data)) as Hrange.
  destruct (writeUInt32BE_read Hrange) as (crcBytes & Hw2 & Hl2 & Hr2).
  destruct (@writeUInt32BE_read (Z.of_nat (List.length data)) ltac:(lia))
    as (lengthBytes & Hw1 & Hl1 & Hr1).
  exists lengthBytes, crcBytes. unfold createChunk. rewrite Hw1, Hw2.
  repeat split; try assumption. rewrite Hr2. exact Hcrc.
Qed.

(** X16.  A chunk is the data length on four bytes, most significant first, the
    type, the data, and the CRC-32 of type and data on four bytes; writing
    the CRC never throws, so [createChunk] throws only for data of 2^32
    bytes or more. *)
Theorem createChunk_layout (type : string) (data : list Byte.byte) :
  (Z.of_nat (List.length data) < 2 ^ 32 ->
   exists lengthBytes crcBytes,
     createChunk type data
     = Some (lengthBytes ++ list_byte_of_string type ++ data ++ crcBytes) /\
     List.length lengthBytes = 4%nat /\ List.length crcBytes = 4%nat /\
     CrcSpec.readUInt32BE lengthBytes = Z.of_nat (List.length data) /\
     CrcSpec.readUInt32BE crcBytes = CrcSpec.crcBitwise (list_byte_of_string type ++ data)) /\
  (createChunk type data = None <-> 2 ^ 32 <= Z.of_nat (List.length data)).
Proof.
  split; [apply createChunk_Some |].
  pose proof (crc32_range (list_byte_of_string type ++ data)) as Hrange.
  destruct (writeUInt32BE_read Hrange) as (crcBytes & Hw2 & _).
  unfold createChunk.
  destruct (writeUInt32BE (Z.of_nat (List.length data))) as [lengthBytes |] eqn:E.
  - rewrite Hw2. split; [discriminate |]. intros H.
    assert (Hn : writeUInt32BE (Z.of_nat (List.length data)) = None)
      by (apply writeUInt32BE_None; lia).
    congruence.
  - split; [| reflexivity]. intros _. apply writeUInt32BE_None in E. lia.
Qed.

Lemma createChunk_layout_witness :
  (Z.of_nat (List.length (@nil Byte.byte)) < 2 ^ 32) /\
  exists lengthBytes crcBytes,
    createChunk "IEND" [] = Some (lengthBytes ++ list_byte_of_string "IEND" ++ [] ++ crcBytes) /\
    CrcSpec.readUInt32BE lengthBytes = 0 /\
    CrcSpec.readUInt32BE crcBytes = 0xAE426082.
Proof.
  assert (H : Z.of_nat (List.length (@nil Byte.byte)) < 2 ^ 32) by reflexivity.
  split; [exact H |].
  destruct (createChunk_layout "IEND" []) as [Hsome _].
  destruct (Hsome H) as (lengthBytes & crcBytes & Hc & _ & _ & Hl & Hr).
  exists lengthBytes, crcBytes. split; [exact Hc |]. split; [exact Hl |].
  rewrite Hr. reflexivity.
Defined.

End ChunkFacts.

(** ** PNG scanlines *)

Section ScanlineFacts.
Local Open Scope nat_scope.
Import Icons.

Lemma setNth_app_mid (A : Type) (i : nat) (v z : A) (l1 l2 : list A) :
  i = List.length l1 ->
  Background.setNth i v (l1 ++ z :: l2) = l1 ++ v :: l2.
Proof.
  intros ->. induction l1 as [| x l1 IH]; simpl; [reflexivity | rewrite IH; reflexivity].
Qed.

Lemma seq_snoc (a n : nat) : seq a (S n) = seq a n ++ [a + n].
Proof. rewrite seq_S. reflexivity. Qed.

Lemma writePixel_step (width : nat) (pixels done rest before : list Byte.byte) (y x : nat) :
  List.length before = y * (width * 4 + 1) + 1 + x * 4 ->
  writePixel width pixels y (before ++ repeat Byte.x00 4 ++ rest) x
  = before ++ map (fun k => nth (y * width * 4 + k) pixels Byte.x00) (seq (x * 4) 4) ++ rest.
Proof.
  intros Hlen. unfold writePixel.
  replace ((y * width + x) * 4 + 3) with (y * width * 4 + S (S (S (x * 4)))) by lia.
  replace ((y * width + x) * 4 + 2) with (y * width * 4 + S (S (x * 4))) by lia.
  replace ((y * width + x) * 4 + 1) with (y * width * 4 + S (x * 4)) by lia.
  replace ((y * width + x) * 4) with (y * width * 4 + x * 4) by lia.
  set (p0 := nth (y * width * 4 + x * 4) pixels Byte.x00).
  set (p1 := nth (y * width * 4 + S (x * 4)) pixels Byte.x00).
  set (p2 := nth (y * width * 4 + S (S (x * 4))) pixels Byte.x00).
  set (p3 := nth (y * width * 4 + S (S (S (x * 4)))) pixels Byte.x00).
  change (map (fun k => nth (y * width * 4 + k) pixels Byte.x00) (seq (x * 4) 4))
    with [p0; p1; p2; p3].
  change (repeat Byte.x00 4 ++ rest) with (Byte.x00 :: Byte.x00 :: Byte.x00 :: Byte.x00 :: rest).
  rewrite (@setNth_app_mid _ _ p0 Byte.x00 before) by lia.
  change (before ++ p0 :: Byte.x00 :: Byte.x00 :: Byte.x00 :: rest)
    with (before ++ [p0] ++ Byte.x00 :: Byte.x00 :: Byte.x00 :: rest).
  rewrite app_assoc.
  rewrite setNth_app_mid by (rewrite length_app; simpl; lia).
  change ((before ++ [p0]) ++ p1 :: Byte.x00 :: Byte.x00 :: rest)
    with ((before ++ [p0]) ++ [p1] ++ Byte.x00 :: Byte.x00 :: rest).
  rewrite app_assoc.
  rewrite setNth_app_mid by (rewrite !length_app; simpl; lia).
  change (((before ++ [p0]) ++ [p1]) ++ p2 :: Byte.x00 :: rest)
    with (((before ++ [p0]) ++ [p1]) ++ [p2] ++ Byte.x00 :: rest).
  rewrite app_assoc.
  rewrite setNth_app_mid by (rewrite !length_app; simpl; lia).
  rewrite <- !app_assoc. reflexivity.
Qed.

Lemma writePixels_loop (width : nat) (pixels rest before : list Byte.byte) (y : nat) :
  List.length before = y * (width * 4 + 1) ->
  forall n, n <= width ->
  fold_left (writePixel width pixels y) (seq 0 n)
            (before ++ Byte.x00 :: repeat Byte.x00 (width * 4) ++ rest)
  = before ++ Byte.x00
      :: map (fun k => nth (y * width * 4 + k) pixels Byte.x00) (seq 0 (n * 4))
      ++ repeat Byte.x00 ((width - n) * 4) ++ rest.
Proof.
  intros Hlen n. induction n as [| n IH]; intros Hn.
  - simpl. rewrite Nat.sub_0_r. reflexivity.
  - rewrite seq_snoc, fold_left_app, IH by lia. simpl fold_left. simpl Nat.add.
    replace ((width - n) * 4) with (4 + (width - S n) * 4) by lia.
    rewrite repeat_app.
    set (done := map (fun k => nth (y * width * 4 + k) pixels Byte.x00) (seq 0 (n * 4))).
    replace (before ++ Byte.x00 :: done
               ++ (repeat Byte.x00 4 ++ repeat Byte.x00 ((width - S n) * 4)) ++ rest)
      with ((before ++ Byte.x00 :: done)
              ++ repeat Byte.x00 4 ++ (repeat Byte.x00 ((width - S n) * 4) ++ rest))
      by (rewrite <- !app_assoc; reflexivity).
    rewrite (@writePixel_step width pixels done).
    + replace (S n * 4) with (n * 4 + 4) by lia.
      rewrite seq_app, map_app. fold done.
      rewrite <- !app_assoc. reflexivity.
    + rewrite length_app. simpl. unfold done. rewrite length_map, length_seq. lia.
Qed.

Lemma writeRow_step (width : nat) (pixels rest before : list Byte.byte) (y : nat) :
  List.length before = y * (width * 4 + 1) ->
  writeRow width pixels (before ++ repeat Byte.x00 (width * 4 + 1) ++ rest) y
  = before ++ ScanlineSpec.scanline width pixels y ++ rest.
Proof.
  intros Hlen. unfold writeRow.
  replace (width * 4 + 1) with (S (width * 4)) at 2 by lia. simpl repeat. simpl app.
  rewrite setNth_app_mid by lia.
  rewrite writePixels_loop by (try exact Hlen; lia).
  rewrite Nat.sub_diag. simpl repeat. simpl app.
  unfold ScanlineSpec.scanline. reflexivity.
Qed.

Lemma scanlines_length (width height : nat) (pixels : list Byte.byte) :
  List.length (ScanlineSpec.scanlines width height pixels) = (width * 4 + 1) * height.
Proof.
  unfold ScanlineSpec.scanlines.
  assert (H : forall a n, List.length (flat_map (ScanlineSpec.scanline width pixels) (seq a n))
                          = (width * 4 + 1) * n).
  { intros a n. revert a. induction n as [| n IH]; intros a; [simpl; lia |].
    cbn [seq flat_map]. rewrite length_app, IH.
    unfold ScanlineSpec.scanline. cbn [List.length]. rewrite length_map, length_seq. lia. }
  apply H.
Qed.

Lemma fillRawData_loop (width height : nat) (pixels : list Byte.byte) (n : nat) :
  n <= height ->
  fold_left (writeRow width pixels) (seq 0 n) (repeat Byte.x00 ((width * 4 + 1) * height))
  = ScanlineSpec.scanlines width n pixels ++ repeat Byte.x00 ((width * 4 + 1) * (height - n)).
Proof.
  induction n as [| n IH]; intros Hn.
  - simpl. rewrite Nat.sub_0_r. reflexivity.
  - rewrite seq_snoc, fold_left_app, IH by lia. simpl fold_left. simpl Nat.add.
    replace ((width * 4 + 1) * (height - n))
      with ((width * 4 + 1) + (width * 4 + 1) * (height - S n)) by nia.
    rewrite repeat_app, writeRow_step by (rewrite scanlines_length; lia).
    unfold ScanlineSpec.scanlines. rewrite seq_snoc, flat_map_app. cbn [flat_map Nat.add].
    rewrite app_nil_r, <- app_assoc. reflexivity.
Qed.

Lemma fillRawData_eq (width height : nat) (pixels : list Byte.byte) :
  fillRawData width height pixels = ScanlineSpec.scanlines width height pixels.
Proof.
  unfold fillRawData. rewrite fillRawData_loop by lia.
  rewrite Nat.sub_diag, Nat.mul_0_r. apply app_nil_r.
Qed.

(** X17.  The buffer handed to the compressor holds the image as PNG scanlines:
    for each row the filter type 0 followed by the four bytes of each of its
    pixels, [(width * 4 + 1) * height] bytes in all; bytes that [pixels]
    lacks count as 0. *)
Theorem fillRawData_scanlines (width height : nat) (pixels : list Byte.byte) :
  fillRawData width height pixels = ScanlineSpec.scanlines width height pixels /\
  List.length (fillRawData width height pixels) = (width * 4 + 1) * height.
Proof.
  split; [apply fillRawData_eq | rewrite fillRawData_eq; apply scanlines_length].
Qed.

(** X18.  For sizes and compressed data below 2^32, [createPNG] returns the
    eight signature bytes, an IHDR chunk of 25 bytes, an IDAT chunk that
    carries the compressed scanlines, and an IEND chunk of 12 bytes: 57
    bytes around the compressed data. *)
Theorem createPNG_structure (deflateSync : list Byte.byte -> list Byte.byte)
    (width height : nat) (pixels : list Byte.byte) :
  (Z.of_nat width < 2 ^ 32)%Z -> (Z.of_nat height < 2 ^ 32)%Z ->
  let compressed := deflateSync (ScanlineSpec.scanlines width height pixels) in
  (Z.of_nat (List.length compressed) < 2 ^ 32)%Z ->
  exists ihdr idat iend png,
    createPNG deflateSync width height pixels = Some png /\
    png = map byteOf [137; 80; 78; 71; 13; 10; 26; 10]%Z ++ ihdr ++ idat ++ iend /\
    createChunk "IDAT" compressed = Some idat /\
    createChunk "IEND" [] = Some iend /\
    List.length ihdr = 25 /\
    List.length idat = 12 + List.length compressed /\
    List.length iend = 12 /\
    List.length png = 57 + List.length compressed.
Proof.
  intros Hw Hh compressed Hc. unfold createPNG.
  destruct (@writeUInt32BE_read (Z.of_nat width) ltac:(lia)) as (wb & Hwb & Hlw & _).
  destruct (@writeUInt32BE_read (Z.of_nat height) ltac:(lia)) as (hb & Hhb & Hlh & _).
  rewrite Hwb, Hhb.
  set (ihdrData := wb ++ hb ++ map byteOf [8; 6; 0; 0; 0]%Z).
  assert (Hil : List.length ihdrData = 13)
    by (unfold ihdrData; rewrite !length_app, Hlw, Hlh; reflexivity).
  destruct (@createChunk_Some "IHDR" ihdrData ltac:(rewrite Hil; reflexivity))
    as (l1 & c1 & E1 & Hl1 & Hc1 & _).
  rewrite E1, fillRawData_eq. fold compressed.
  destruct (@createChunk_Some "IDAT" compressed Hc) as (l2 & c2 & E2 & Hl2 & Hc2 & _).
  rewrite E2.
  destruct (@createChunk_Some "IEND" [] ltac:(reflexivity)) as (l3 & c3 & E3 & Hl3 & Hc3 & _).
  rewrite E3.
  do 4 eexists. split; [reflexivity |]. split; [reflexivity |].
  split; [reflexivity |]. split; [reflexivity |].
  assert (L1 : List.length (l1 ++ list_byte_of_string "IHDR" ++ ihdrData ++ c1) = 25)
    by (rewrite !length_app, Hl1, Hc1, Hil; reflexivity).
  assert (L2 : List.length (l2 ++ list_byte_of_string "IDAT" ++ compressed ++ c2)
               = 12 + List.length compressed)
    by (rewrite !length_app, Hl2, Hc2; simpl; lia).
  assert (L3 : List.length (l3 ++ list_byte_of_string "IEND" ++ [] ++ c3) = 12)
    by (rewrite !length_app, Hl3, Hc3; reflexivity).
  split; [exact L1 |]. split; [exact L2 |]. split; [exact L3 |].
  rewrite !length_app with (l := map byteOf _).
  rewrite length_app, L1, length_app, L2, L3. simpl. lia.
Qed.

Lemma createPNG_structure_witness :
  let deflateSync := fun raw : list Byte.byte => raw in
  (Z.of_nat 2 < 2 ^ 32)%Z /\ (Z.of_nat 1 < 2 ^ 32)%Z /\
  exists png, createPNG deflateSync 2 1 [] = Some png /\ List.length png = 57 + 9.
Proof.
  intros deflateSync.
  assert (Hw : (Z.of_nat 2 < 2 ^ 32)%Z) by reflexivity.
  assert (Hh : (Z.of_nat 1 < 2 ^ 32)%Z) by reflexivity.
  split; [exact Hw |]. split; [exact Hh |].
  destruct (@createPNG_structure deflateSync 2 1 [] Hw Hh ltac:(reflexivity))
    as (ihdr & idat & iend & png & Hpng & _ & _ & _ & _ & _ & _ & Hlen).
  exists png. split; [exact Hpng | exact Hlen].
Defined.

End ScanlineFacts.

(** ** The leaderboard on the page *)

Section ViewFacts.
Import View.

Lemma appendCards_length (index : nat) (l : list Popup.Entry) :
  List.length (appendCards index l) = List.length l.
Proof.
  revert index. induction l as [| e l IH]; intros index; simpl; [reflexivity |].
  rewrite IH. reflexivity.
Qed.

Lemma appendCards_nth (l : list Popup.Entry) (index i : nat) :
  nth_error (appendCards index l) i
  = option_map (fun e => createContributorCard e (index + i)) (nth_error l i).
Proof.
  revert index i. induction l as [| e l IH]; intros index i.
  - destruct i; reflexivity.
  - destruct i as [| i]; simpl.
    + rewrite Nat.add_0_r. reflexivity.
    + rewrite IH. rewrite Nat.add_succ_comm. reflexivity.
Qed.

Lemma getMedalEmoji_rank (i : nat) :
  getMedalEmoji (Some (Z.of_nat i + 1)%Z) = nth_error ViewSpec.medals i.
Proof.
  destruct i as [| [| [| j]]]; try reflexivity.
  unfold getMedalEmoji, rankIs.
  replace (Z.of_nat (S (S (S j))) + 1 =? 1)%Z with false by (symmetry; apply Z.eqb_neq; lia).
  replace (Z.of_nat (S (S (S j))) + 1 =? 2)%Z with false by (symmetry; apply Z.eqb_neq; lia).
  replace (Z.of_nat (S (S (S j))) + 1 =? 3)%Z with false by (symmetry; apply Z.eqb_neq; lia).
  destruct j; reflexivity.
Qed.

Lemma sortAndRank_length (active : list Popup.Entry) :
  List.length (Popup.sortAndRank active) = List.length active.
Proof.
  unfold Popup.sortAndRank. rewrite assignRanks_length.
  apply Permutation_length, Array_sort_perm.
Qed.

Lemma filter_nil_iff (A : Type) (p : A -> bool) (l : list A) :
  filter p l = [] <-> forall x, In x l -> p x = false.
Proof.
  induction l as [| y l IH]; simpl.
  - split; [intros _ x [] | reflexivity].
  - destruct (p y) eqn:E.
    + split; [discriminate |]. intros H. specialize (H y (or_introl eq_refl)). congruence.
    + rewrite IH. split.
      * intros H x [<- | Hx]; [exact E | apply H, Hx].
      * intros H x Hx. apply H. right. exact Hx.
Qed.

(** X19.  What the page shows for a period.  When no contributor has activity in
    the period, the status bar is hidden and the leaderboard is the empty
    state that names the period.  Otherwise the status bar is as before and
    the leaderboard has one card for each contributor with activity; the
    card at index [i] carries rank [i + 1] and animation index [i], and the
    first three cards carry the gold, silver and bronze medals, the others
    none. *)
Theorem renderLeaderboard_of_period (now : Z) (data : list Contributor) (period : string)
    (page : Page) :
  let page' := renderLeaderboard period (Popup.processContributors now data period) page in
  match leaderboardEl page' with
  | EmptyState title message =>
      title = "No activity"%string /\
      message = ("No contributions found for " ++ periodName period)%string /\
      statusBarHidden page' = true /\
      forall co, In co data -> ViewSpec.shownIn now period co = false
  | Children cards =>
      statusBarHidden page' = statusBarHidden page /\
      (exists co, In co data /\ ViewSpec.shownIn now period co = true) /\
      List.length cards = List.length (filter (ViewSpec.shownIn now period) data) /\
      forall i card, nth_error cards i = Some card ->
        cardRank card = Some (Z.of_nat i + 1)%Z /\
        cardIndex card = i /\
        cardMedal card = nth_error ViewSpec.medals i /\
        nth_error (Popup.processContributors now data period) i = Some (cardContributor card)
  end.
Proof.
  intros page'. subst page'.
  assert (Hlen : List.length (Popup.processContributors now data period)
                 = List.length (filter (ViewSpec.shownIn now period) data)).
  { unfold Popup.processContributors. rewrite sortAndRank_length.
    unfold ViewSpec.shownIn.
    induction data as [| co data IH]; simpl; [reflexivity |].
    destruct (Popup.isActive _); simpl; rewrite IH; reflexivity. }
  assert (Hnth : forall i e, nth_error (Popup.processContributors now data period) i = Some e ->
                             Popup.rank e = Some (Z.of_nat i + 1)%Z).
  { intros i e. unfold Popup.processContributors, Popup.sortAndRank.
    rewrite assignRanks_nth.
    destruct (nth_error _ i) as [e0 |]; simpl; [| discriminate].
    intros [= <-]. reflexivity. }
  unfold renderLeaderboard.
  destruct (Popup.processContributors now data period) as [| e entries] eqn:E.
  - cbn [leaderboardEl showEmpty hideStatus statusBarHidden].
    split; [reflexivity |]. split; [reflexivity |]. split; [reflexivity |].
    symmetry in Hlen. apply length_zero_iff_nil in Hlen.
    apply (proj1 (filter_nil_iff _ _)). exact Hlen.
  - cbn [leaderboardEl statusBarHidden].
    split; [reflexivity |]. split; [| split].
    + destruct (filter (ViewSpec.shownIn now period) data) as [| co l] eqn:F;
        [discriminate Hlen |].
      exists co.
      assert (Hin : In co (filter (ViewSpec.shownIn now period) data))
        by (rewrite F; left; reflexivity).
      apply filter_In in Hin. exact Hin.
    + rewrite appendCards_length. exact Hlen.
    + intros i card Hcard. rewrite appendCards_nth in Hcard.
      destruct (nth_error (e :: entries) i) as [e' |] eqn:En; [| discriminate Hcard].
      simpl in Hcard. injection Hcard as <-.
      cbn [createContributorCard cardRank cardIndex cardMedal cardContributor].
      rewrite (Hnth _ _ En).
      split; [reflexivity |]. split; [reflexivity |].
      split; [apply getMedalEmoji_rank | reflexivity].
Qed.

End ViewFacts.

